(** * Connect-4: board, win detection, position evaluation and the AI tiers

    A shallow embedding of the C sources (board.c, input.c, game.c, ai.c)
    and the properties of the game-state and AI decision engine.

    C [int] values are modelled in [Z]; every quantity computed here stays
    far inside the 32-bit range (counts are at most 7, scores at most 6918
    in absolute value), so no wrap-around occurs.  The global array
    [Cell board[ROWS][COLS]] is a list of rows; an access outside the
    array is undefined behaviour in C and is the result [Fault] here. *)

From Stdlib Require Import ZArith List Lia Bool Permutation.
From stdpp Require Import base numbers list.
Import ListNotations.

Open Scope Z_scope.

(** ** Data model *)

(** Modelled from the spec: the enumeration [Cell] of board.h (the header is
    not part of the sources at hand): Empty | Player1 | Player2. *)
Inductive Cell : Type := cell_empty | cell_player1 | cell_player2.

Definition Cell_eqb (a b : Cell) : bool :=
  match a, b with
  | cell_empty, cell_empty => true
  | cell_player1, cell_player1 => true
  | cell_player2, cell_player2 => true
  | _, _ => false
  end.

(** board.c: [#define ROWS 6], [#define COLS 7]. *)
Definition ROWS : Z := 6.
Definition COLS : Z := 7.

(** Modelled from the spec: the macros [WIN_COUNT] and [BOARD_FULL] of
    board.h: four in a row win, the board holds 6*7 = 42 pieces. *)
Definition WIN_COUNT : Z := 4.
Definition BOARD_FULL : Z := 42.

Definition INT_MIN : Z := - 2147483648.
Definition INT_MAX : Z := 2147483647.

(** input.h: [typedef struct { int row; int column; } GameMove;] *)
Record GameMove : Type := mkMove { row : Z; column : Z }.

(** The global [board]: a list of [ROWS] rows of [COLS] cells, row 0 on top. *)
Abbreviation Board := (list (list Cell)).

Definition wf_board (b : Board) : Prop :=
  length b = Z.to_nat ROWS /\ Forall (fun r => length r = Z.to_nat COLS) b.

(** board.c, [board_init]: every cell empty. *)
Definition board_init : Board :=
  replicate (Z.to_nat ROWS) (replicate (Z.to_nat COLS) cell_empty).

(** ** Outcomes of a run

    [Val a]: the code returns [a]; [Fault]: it reads or writes outside the
    array; [Timeout]: the fuel given to a loop or a recursion ran out. *)
Inductive res (A : Type) : Type :=
| Val (a : A)
| Fault
| Timeout.
Arguments Val {A} a.
Arguments Fault {A}.
Arguments Timeout {A}.

Definition rbind {A B : Type} (m : res A) (k : A -> res B) : res B :=
  match m with
  | Val a => k a
  | Fault => Fault
  | Timeout => Timeout
  end.

Notation "'let*' x ':=' m 'in' k" := (rbind m (fun x => k))
  (at level 10, x name, m at level 100, k at level 200).

Definition in_grid (r c : Z) : bool :=
  (0 <=? r) && (r <? ROWS) && (0 <=? c) && (c <? COLS).

(** [board[r][c]] as an rvalue. *)
Definition rd (b : Board) (r c : Z) : res Cell :=
  if in_grid r c then
    match b !! Z.to_nat r with
    | Some line =>
        match line !! Z.to_nat c with
        | Some v => Val v
        | None => Fault
        end
    | None => Fault
    end
  else Fault.

(** [board[r][c] = v]. *)
Definition wr (b : Board) (r c : Z) (v : Cell) : res Board :=
  if in_grid r c then
    match b !! Z.to_nat r with
    | Some line =>
        if (Z.to_nat c <? length line)%nat
        then Val (<[Z.to_nat r := <[Z.to_nat c := v]> line]> b)
        else Fault
    | None => Fault
    end
  else Fault.

(** Code that works on the global board: a state and error monad. *)
Definition M (A : Type) : Type := Board -> res (A * Board).

Definition ret {A : Type} (a : A) : M A := fun b => Val (a, b).

Definition bind {A B : Type} (m : M A) (k : A -> M B) : M B :=
  fun b =>
    match m b with
    | Val (a, b') => k a b'
    | Fault => Fault
    | Timeout => Timeout
    end.

Notation "'do' x <- m 'in' k" := (bind m (fun x => k))
  (at level 10, x name, m at level 100, k at level 200).

(** A call of a function that only reads the board. *)
Definition peek {A : Type} (f : Board -> res A) : M A :=
  fun b =>
    match f b with
    | Val a => Val (a, b)
    | Fault => Fault
    | Timeout => Timeout
    end.

Definition load (r c : Z) : M Cell := peek (fun b => rd b r c).

Definition store (r c : Z) (v : Cell) : M unit :=
  fun b =>
    match wr b r c v with
    | Val b' => Val (tt, b')
    | Fault => Fault
    | Timeout => Timeout
    end.

(** The integers [lo, lo+1, ..., lo+n-1]: the values a counting [for] loop
    runs through. *)
Fixpoint upto (lo : Z) (n : nat) : list Z :=
  match n with
  | O => []
  | S n' => lo :: upto (lo + 1) n'
  end.

(** [for (row = ROWS - 1; row >= 0; row--)]. *)
Definition rows_bottom_up : list Z := rev (upto 0 (Z.to_nat ROWS)).
(** [for (col = 0; col < COLS; col++)]. *)
Definition cols_left_right : list Z := upto 0 (Z.to_nat COLS).

(** ** Win detection (game.c, current revision) *)

(** Fuel of the counting loops: a walk in a fixed direction leaves the grid
    after fewer than [ROWS + COLS] steps. *)
Definition LOOP_FUEL : nat := 13.

(** [while (guard && board[r + dr][c + dc] == player)
       { count++; r += dr; c += dc; }]
    where [guard] is the bounds test the loop makes on the next cell. *)
Fixpoint count_run (fuel : nat) (guard : Z -> Z -> bool) (dr dc : Z)
         (b : Board) (player : Cell) (r c count : Z) : res Z :=
  match fuel with
  | O => Timeout
  | S fuel' =>
      if guard r c then
        let* v := rd b (r + dr) (c + dc) in
        if Cell_eqb v player
        then count_run fuel' guard dr dc b player (r + dr) (c + dc) (count + 1)
        else Val count
      else Val count
  end.

Definition check_vertical (b : Board) (last_move : GameMove) (player : Cell)
  : res bool :=
  let count := 1 in
  (* count downwards (row increases) *)
  let* count := count_run LOOP_FUEL (fun r _ => r + 1 <? ROWS) 1 0
                  b player (row last_move) (column last_move) count in
  (* continue counting upwards, count is not reset *)
  let* count := count_run LOOP_FUEL (fun r _ => r - 1 >=? 0) (-1) 0
                  b player (row last_move) (column last_move) count in
  Val (count >=? WIN_COUNT).

Definition check_horizontal (b : Board) (last_move : GameMove) (player : Cell)
  : res bool :=
  let count := 1 in
  let* count := count_run LOOP_FUEL (fun _ c => c + 1 <? COLS) 0 1
                  b player (row last_move) (column last_move) count in
  let* count := count_run LOOP_FUEL (fun _ c => c - 1 >=? 0) 0 (-1)
                  b player (row last_move) (column last_move) count in
  Val (count >=? WIN_COUNT).

Definition check_diagonal (b : Board) (last_move : GameMove) (player : Cell)
  : res bool :=
  (* positive slope: up-right, then down-left *)
  let count := 1 in
  let* count := count_run LOOP_FUEL
                  (fun r c => (r - 1 >=? 0) && (c + 1 <? COLS)) (-1) 1
                  b player (row last_move) (column last_move) count in
  let* count := count_run LOOP_FUEL
                  (fun r c => (r + 1 <? ROWS) && (c - 1 >=? 0)) 1 (-1)
                  b player (row last_move) (column last_move) count in
  if count >=? WIN_COUNT then Val true else
  (* negative slope: up-left, then down-right *)
  let count := 1 in
  let* count := count_run LOOP_FUEL
                  (fun r c => (r - 1 >=? 0) && (c - 1 >=? 0)) (-1) (-1)
                  b player (row last_move) (column last_move) count in
  let* count := count_run LOOP_FUEL
                  (fun r c => (r + 1 <? ROWS) && (c + 1 <? COLS)) 1 1
                  b player (row last_move) (column last_move) count in
  Val (count >=? WIN_COUNT).

Definition check_winner (b : Board) (last_move : GameMove) (player : Cell)
  : res bool :=
  let* v := check_vertical b last_move player in
  if v then Val true else
  let* h := check_horizontal b last_move player in
  if h then Val true else
  let* d := check_diagonal b last_move player in
  if d then Val true else Val false.

(** ** Win detection (game.c, earlier revision)

    The earlier revision of the three checks bounds every loop by
    [count < WIN_COUNT] and restarts [count] at 1 before it walks the
    opposite direction. *)
Module Legacy.

(** [while (guard && board[r + dr][c + dc] == player && count < WIN_COUNT)]. *)
Fixpoint count_run (fuel : nat) (guard : Z -> Z -> bool) (dr dc : Z)
       (b : Board) (player : Cell) (r c count : Z) : res Z :=
match fuel with
| O => Timeout
| S fuel' =>
    if guard r c then
      let* v := rd b (r + dr) (c + dc) in
      if Cell_eqb v player && (count <? WIN_COUNT)
      then count_run fuel' guard dr dc b player (r + dr) (c + dc) (count + 1)
      else Val count
    else Val count
end.

Definition check_vertical (b : Board) (last_move : GameMove) (player : Cell)
: res bool :=
let count := 1 in
let* count := count_run LOOP_FUEL (fun r _ => r + 1 <? ROWS) 1 0
                b player (row last_move) (column last_move) count in
if count =? WIN_COUNT then Val true else
let count := 1 in
let* count := count_run LOOP_FUEL (fun r _ => r - 1 >=? 0) (-1) 0
                b player (row last_move) (column last_move) count in
Val (count =? WIN_COUNT).

Definition check_horizontal (b : Board) (last_move : GameMove) (player : Cell)
: res bool :=
let count := 1 in
let* count := count_run LOOP_FUEL (fun _ c => c + 1 <? COLS) 0 1
                b player (row last_move) (column last_move) count in
if count =? WIN_COUNT then Val true else
let count := 1 in
let* count := count_run LOOP_FUEL (fun _ c => c - 1 >=? 0) 0 (-1)
                b player (row last_move) (column last_move) count in
Val (count =? WIN_COUNT).

Definition check_diagonal (b : Board) (last_move : GameMove) (player : Cell)
: res bool :=
let count := 1 in
let* count := count_run LOOP_FUEL
                (fun r c => (r + 1 <? ROWS) && (c + 1 <? COLS)) 1 1
                b player (row last_move) (column last_move) count in
if count =? WIN_COUNT then Val true else
let count := 1 in
let* count := count_run LOOP_FUEL
                (fun r c => (r - 1 >=? 0) && (c - 1 >=? 0)) (-1) (-1)
                b player (row last_move) (column last_move) count in
if count =? WIN_COUNT then Val true else
let count := 1 in
let* count := count_run LOOP_FUEL
                (fun r c => (r + 1 <? ROWS) && (c - 1 >=? 0)) 1 (-1)
                b player (row last_move) (column last_move) count in
if count =? WIN_COUNT then Val true else
let count := 1 in
let* count := count_run LOOP_FUEL
                (fun r c => (r - 1 >=? 0) && (c + 1 <? COLS)) (-1) 1
                b player (row last_move) (column last_move) count in
Val (count =? WIN_COUNT).

Definition check_winner (b : Board) (last_move : GameMove) (player : Cell)
: res bool :=
let* v := check_vertical b last_move player in
if v then Val true else
let* h := check_horizontal b last_move player in
if h then Val true else
let* d := check_diagonal b last_move player in
if d then Val true else Val false.

End Legacy.

(** ** Column scans and simulated moves (input.c, ai.c) *)

(** The scan that input_player_move, ai_easy_move, ai_medium_move and
    ai_hard_move all make:
    [for (row = ROWS - 1; row >= 0; row--)
       if (board[row][col] == cell_empty) { ... row found ... }].
    [Some row] is the lowest empty row, [None] a full column. *)
Fixpoint scan_rows (b : Board) (col : Z) (rows : list Z) : res (option Z) :=
  match rows with
  | [] => Val None
  | r :: rows' =>
      let* v := rd b r col in
      if Cell_eqb v cell_empty then Val (Some r) else scan_rows b col rows'
  end.

Definition scan_column (b : Board) (col : Z) : res (option Z) :=
  scan_rows b col rows_bottom_up.

(** ai.c, [make_move]: the loop body stores and returns at the first empty
    cell from the bottom; [-1] when the loop falls through. *)
Fixpoint make_move_rows (col : Z) (player : Cell) (rows : list Z) : M Z :=
  match rows with
  | [] => ret (-1)
  | r :: rows' =>
      do v <- load r col in
      if Cell_eqb v cell_empty
      then do _ <- store r col player in ret r
      else make_move_rows col player rows'
  end.

Definition make_move (col : Z) (player : Cell) : M Z :=
  make_move_rows col player rows_bottom_up.

(** ai.c, [undo_move]. *)
Definition undo_move (r col : Z) : M unit := store r col cell_empty.

(** ai.c, [get_valid_moves]: the columns whose top cell is empty, in
    ascending order ([valid_cols] with its [count] is the list). *)
Fixpoint get_valid_moves_from (b : Board) (cols : list Z) : res (list Z) :=
  match cols with
  | [] => Val []
  | c :: cols' =>
      let* v := rd b 0 c in
      let* rest := get_valid_moves_from b cols' in
      Val (if Cell_eqb v cell_empty then c :: rest else rest)
  end.

Definition get_valid_moves (b : Board) : res (list Z) :=
  get_valid_moves_from b cols_left_right.

(** ** Medium AI helpers (ai.c) *)

(** Inner loop of [find_winning_move] for one column: [Some m] when the
    function returns [m] from inside the loop, [None] when the loop ends
    ([break] after the trial, or a full column). *)
Fixpoint find_winning_move_rows (player : Cell) (col : Z) (rows : list Z)
  : M (option GameMove) :=
  match rows with
  | [] => ret None
  | r :: rows' =>
      do v <- load r col in
      if Cell_eqb v cell_empty then
        do _ <- store r col player in
        let test_move := mkMove r col in
        do w <- peek (fun b => check_winner b test_move player) in
        if w
        then do _ <- store r col cell_empty in ret (Some test_move)
        else do _ <- store r col cell_empty in ret None
      else find_winning_move_rows player col rows'
  end.

Fixpoint find_winning_move_cols (player : Cell) (cols : list Z) : M GameMove :=
  match cols with
  | [] => ret (mkMove (-1) (-1))
  | col :: cols' =>
      do found <- find_winning_move_rows player col rows_bottom_up in
      match found with
      | Some m => ret m
      | None => find_winning_move_cols player cols'
      end
  end.

Definition find_winning_move (player : Cell) : M GameMove :=
  find_winning_move_cols player cols_left_right.

Definition count_threats (r col : Z) (player : Cell) : M Z :=
  let threats := 0 in
  do _ <- store r col player in
  (* horizontal: right, then left *)
  let count := 1 in
  do count <- peek (fun b => count_run LOOP_FUEL (fun _ c => c + 1 <? COLS) 0 1
                               b player r col count) in
  do count <- peek (fun b => count_run LOOP_FUEL (fun _ c => c - 1 >=? 0) 0 (-1)
                               b player r col count) in
  let threats := if count >=? 2 then threats + count else threats in
  (* vertical: down, then up *)
  let count := 1 in
  do count <- peek (fun b => count_run LOOP_FUEL (fun r _ => r + 1 <? ROWS) 1 0
                               b player r col count) in
  do count <- peek (fun b => count_run LOOP_FUEL (fun r _ => r - 1 >=? 0) (-1) 0
                               b player r col count) in
  let threats := if count >=? 2 then threats + count else threats in
  do _ <- store r col cell_empty in
  ret threats.

Definition center_bonus (col : Z) : Z :=
  if col =? 3 then 3
  else if (col =? 2) || (col =? 4) then 2
  else if (col =? 1) || (col =? 5) then 1
  else 0.

(** Inner loop of [find_best_strategic_move] for one column; the state is
    [(best_score, best_move)]. *)
Fixpoint strategic_rows (player : Cell) (col : Z) (rows : list Z)
         (best : Z * GameMove) : M (Z * GameMove) :=
  match rows with
  | [] => ret best
  | r :: rows' =>
      do v <- load r col in
      if Cell_eqb v cell_empty then
        do score <- count_threats r col player in
        let score := score + center_bonus col in
        if score >? fst best then ret (score, mkMove r col) else ret best
      else strategic_rows player col rows' best
  end.

Fixpoint strategic_cols (player : Cell) (cols : list Z) (best : Z * GameMove)
  : M (Z * GameMove) :=
  match cols with
  | [] => ret best
  | col :: cols' =>
      do best <- strategic_rows player col rows_bottom_up best in
      strategic_cols player cols' best
  end.

Definition find_best_strategic_move (player : Cell) : M GameMove :=
  do best <- strategic_cols player cols_left_right (-1, mkMove (-1) (-1)) in
  ret (snd best).

(** ** Easy and Medium AI (ai.c)

    [rand()] is modelled by the sequence [rnd] of the values its successive
    calls return and a cursor into it; the cursor after the call is
    returned with the move. *)

Fixpoint ai_easy_move (fuel : nat) (rnd : nat -> Z) (k : nat)
  : M (GameMove * nat) :=
  match fuel with
  | O => fun _ => Timeout
  | S fuel' =>
      let col := Z.rem (rnd k) 7 in
      do found <- peek (fun b => scan_column b col) in
      match found with
      | None => ai_easy_move fuel' rnd (S k)      (* column full: try again *)
      | Some r => ret (mkMove r col, S k)
      end
  end.

(** An [int a[7]] local array: index checked, as [board] is. *)
Definition arr_get (a : list Z) (i : Z) : res Z :=
  if (0 <=? i) && (i <? 7) then
    match a !! Z.to_nat i with Some v => Val v | None => Fault end
  else Fault.

Definition arr_set (a : list Z) (i v : Z) : res (list Z) :=
  if (0 <=? i) && (i <? 7) && (Z.to_nat i <? length a)%nat
  then Val (<[Z.to_nat i := v]> a) else Fault.

(** The shuffle loop of [ai_medium_move]:
    [for (i = 0; i < 7; i++) { j = rand() % 7; swap a[i], a[j]; }]. *)
Fixpoint shuffle (rnd : nat -> Z) (k : nat) (idxs : list Z) (a : list Z)
  : res (list Z * nat) :=
  match idxs with
  | [] => Val (a, k)
  | i :: idxs' =>
      let j := Z.rem (rnd k) 7 in
      let* temp := arr_get a i in
      let* aj := arr_get a j in
      let* a := arr_set a i aj in
      let* a := arr_set a j temp in
      shuffle rnd (S k) idxs' a
  end.

(** The last loop of [ai_medium_move]: the first column of the shuffled
    list that has an empty cell. *)
Fixpoint first_open (b : Board) (a : list Z) (idxs : list Z)
  : res (option GameMove) :=
  match idxs with
  | [] => Val None
  | i :: idxs' =>
      let* col := arr_get a i in
      let* found := scan_column b col in
      match found with
      | Some r => Val (Some (mkMove r col))
      | None => first_open b a idxs'
      end
  end.

Definition ai_medium_move (fuel : nat) (rnd : nat -> Z) (k : nat)
  : M (GameMove * nat) :=
  (* Priority 1: take a winning move *)
  do winning_move <- find_winning_move cell_player2 in
  if negb (row winning_move =? -1) then ret (winning_move, k) else
  (* Priority 2: block the opponent's winning move *)
  do blocking_move <- find_winning_move cell_player1 in
  if negb (row blocking_move =? -1) then ret (blocking_move, k) else
  (* Priority 3: strategic move, 70% of the time *)
  do strategic_move <- find_best_strategic_move cell_player2 in
  let take := negb (row strategic_move =? -1) && (Z.rem (rnd k) 100 <? 70) in
  let k := if negb (row strategic_move =? -1) then S k else k in
  if take then ret (strategic_move, k) else
  (* Priority 4: shuffled centre-biased preference *)
  do sh <- peek (fun _ => shuffle rnd k (upto 0 7) [3; 2; 4; 1; 5; 0; 6]) in
  let (center_preference, k) := (sh : list Z * nat) in
  do found <- peek (fun b => first_open b center_preference (upto 0 7)) in
  match found with
  | Some m => ret (m, k)
  | None => ai_easy_move fuel rnd k
  end.

(** ** Position evaluation (ai.c, [evaluate_position]) *)

Definition opponent_of (player : Cell) : Cell :=
  if Cell_eqb player cell_player1 then cell_player2 else cell_player1.

(** The pairs (outer, inner) two nested counting loops run through. *)
Definition nest (outer inner : list Z) : list (Z * Z) :=
  flat_map (fun o => map (fun i => (o, i)) inner) outer.

(** [for (i = 0; i < 4; i++)] over the cells of one window: the counters
    [(player_count, opponent_count, empty_count)]. *)
Fixpoint count_window (b : Board) (player opponent : Cell)
         (cell_at : Z -> Z * Z) (idxs : list Z) (cnt : Z * Z * Z)
  : res (Z * Z * Z) :=
  match idxs with
  | [] => Val cnt
  | i :: idxs' =>
      let '(pc, oc, ec) := cnt in
      let* v := rd b (fst (cell_at i)) (snd (cell_at i)) in
      count_window b player opponent cell_at idxs'
        (if Cell_eqb v player then (pc + 1, oc, ec)
         else if Cell_eqb v opponent then (pc, oc + 1, ec)
         else (pc, oc, ec + 1))
  end.

(** The two [if] chains that score one window. *)
Definition score_window (cnt : Z * Z * Z) (score : Z) : Z :=
  let '(player_count, opponent_count, empty_count) := cnt in
  let score :=
    if player_count =? 4 then score + 100
    else if (player_count =? 3) && (empty_count =? 1) then score + 5
    else if (player_count =? 2) && (empty_count =? 2) then score + 2
    else score in
  if opponent_count =? 4 then score - 100
  else if (opponent_count =? 3) && (empty_count =? 1) then score - 4
  else score.

(** One of the four loop nests: [window o i k] is the k-th cell of the
    window the loop variables [(o, i)] stand for. *)
Fixpoint eval_windows (b : Board) (player opponent : Cell)
         (window : Z -> Z -> Z -> Z * Z) (starts : list (Z * Z)) (score : Z)
  : res Z :=
  match starts with
  | [] => Val score
  | (o, i) :: starts' =>
      let* cnt := count_window b player opponent (window o i) (upto 0 4)
                    (0, 0, 0) in
      eval_windows b player opponent window starts' (score_window cnt score)
  end.

(** [for (r = 0; r < ROWS; r++) if (board[r][3] == player) score += 3;] *)
Fixpoint eval_center (b : Board) (player : Cell) (rows : list Z) (score : Z)
  : res Z :=
  match rows with
  | [] => Val score
  | r :: rows' =>
      let* v := rd b r 3 in
      eval_center b player rows' (if Cell_eqb v player then score + 3 else score)
  end.

Definition evaluate_position (b : Board) (player : Cell) : res Z :=
  let score := 0 in
  let opponent := opponent_of player in
  (* horizontal: r = 0..ROWS-1, c = 0..COLS-4, cells (r, c+i) *)
  let* score := eval_windows b player opponent (fun r c i => (r, c + i))
                  (nest (upto 0 (Z.to_nat ROWS)) (upto 0 (Z.to_nat (COLS - 4 + 1))))
                  score in
  (* vertical: c = 0..COLS-1, r = 0..ROWS-4, cells (r+i, c) *)
  let* score := eval_windows b player opponent (fun c r i => (r + i, c))
                  (nest (upto 0 (Z.to_nat COLS)) (upto 0 (Z.to_nat (ROWS - 4 + 1))))
                  score in
  (* first diagonal: r = 0..ROWS-4, c = 0..COLS-4, cells (r+i, c+i) *)
  let* score := eval_windows b player opponent (fun r c i => (r + i, c + i))
                  (nest (upto 0 (Z.to_nat (ROWS - 4 + 1)))
                        (upto 0 (Z.to_nat (COLS - 4 + 1))))
                  score in
  (* second diagonal: r = 3..ROWS-1, c = 0..COLS-4, cells (r-i, c+i) *)
  let* score := eval_windows b player opponent (fun r c i => (r - i, c + i))
                  (nest (upto 3 (Z.to_nat (ROWS - 3)))
                        (upto 0 (Z.to_nat (COLS - 4 + 1))))
                  score in
  eval_center b player (upto 0 (Z.to_nat ROWS)) score.

(** ** Hard AI (ai.c) *)

(** First loop nest of [is_game_over]: some occupied cell wins. *)
Fixpoint any_winner (b : Board) (cells : list (Z * Z)) : res bool :=
  match cells with
  | [] => Val false
  | (r, c) :: cells' =>
      let* v := rd b r c in
      if negb (Cell_eqb v cell_empty) then
        let* w := check_winner b (mkMove r c) v in
        if w then Val true else any_winner b cells'
      else any_winner b cells'
  end.

(** Second loop of [is_game_over]: [full] stays 1 unless a top cell is empty. *)
Fixpoint top_row_full (b : Board) (cols : list Z) : res bool :=
  match cols with
  | [] => Val true
  | c :: cols' =>
      let* v := rd b 0 c in
      if Cell_eqb v cell_empty then Val false else top_row_full b cols'
  end.

Definition is_game_over (b : Board) : res bool :=
  let* won := any_winner b (nest (upto 0 (Z.to_nat ROWS)) (upto 0 (Z.to_nat COLS))) in
  if won then Val true else top_row_full b cols_left_right.

(** The loop of the maximizing branch of [minimax]; [search alpha beta] is
    the recursive call [minimax(depth - 1, alpha, beta, 0, player)]. *)
Fixpoint max_loop (search : Z -> Z -> M Z) (player : Cell) (cols : list Z)
         (max_eval alpha beta : Z) : M Z :=
  match cols with
  | [] => ret max_eval
  | col :: cols' =>
      do r <- make_move col player in
      do eval <- search alpha beta in
      do _ <- undo_move r col in
      let max_eval := if eval >? max_eval then eval else max_eval in
      let alpha := if alpha >? eval then alpha else eval in
      if beta <=? alpha then ret max_eval
      else max_loop search player cols' max_eval alpha beta
  end.

(** The loop of the minimizing branch. *)
Fixpoint min_loop (search : Z -> Z -> M Z) (opponent : Cell) (cols : list Z)
         (min_eval alpha beta : Z) : M Z :=
  match cols with
  | [] => ret min_eval
  | col :: cols' =>
      do r <- make_move col opponent in
      do eval <- search alpha beta in
      do _ <- undo_move r col in
      let min_eval := if eval <? min_eval then eval else min_eval in
      let beta := if beta <? eval then beta else eval in
      if beta <=? alpha then ret min_eval
      else min_loop search opponent cols' min_eval alpha beta
  end.

(** [minimax]; [fuel] bounds the depth of the C recursion. *)
Fixpoint minimax (fuel : nat) (depth alpha beta : Z) (maximizing : bool)
         (player : Cell) : M Z :=
  match fuel with
  | O => fun _ => Timeout
  | S fuel' =>
      let opponent := opponent_of player in
      do over <- (if depth =? 0 then ret true else peek is_game_over) in
      if (over : bool) then peek (fun b => evaluate_position b player) else
      do valid_cols <- peek get_valid_moves in
      if Z.of_nat (length valid_cols) =? 0 then ret 0 else
      if maximizing then
        max_loop (fun a b => minimax fuel' (depth - 1) a b false player)
                 player valid_cols INT_MIN alpha beta
      else
        min_loop (fun a b => minimax fuel' (depth - 1) a b true player)
                 opponent valid_cols INT_MAX alpha beta
  end.

(** The search loop of [ai_hard_move]; the state is [(best_score, best_col)]
    and [search] the call [minimax(SEARCH_DEPTH - 1, INT_MIN, INT_MAX, 0,
    cell_player2)]. *)
Fixpoint hard_loop (search : M Z) (cols : list Z) (best : Z * Z) : M (Z * Z) :=
  match cols with
  | [] => ret best
  | col :: cols' =>
      do r <- make_move col cell_player2 in
      do score <- search in
      do _ <- undo_move r col in
      hard_loop search cols'
        (if score >? fst best then (score, col) else best)
  end.

Definition SEARCH_DEPTH : Z := 5.

(** [ai_hard_move]; the fall-back to [ai_easy_move] is why it takes the
    random sequence. *)
Definition ai_hard_move (fuel : nat) (rnd : nat -> Z) (k : nat)
  : M (GameMove * nat) :=
  (* Priority 1: take an immediate win *)
  do winning_move <- find_winning_move cell_player2 in
  if negb (row winning_move =? -1) then ret (winning_move, k) else
  (* Priority 2: block an immediate loss *)
  do blocking_move <- find_winning_move cell_player1 in
  if negb (row blocking_move =? -1) then ret (blocking_move, k) else
  (* Priority 3: minimax over the valid columns *)
  do valid_cols <- peek get_valid_moves in
  do best <- hard_loop
               (minimax fuel (SEARCH_DEPTH - 1) INT_MIN INT_MAX false cell_player2)
               valid_cols (INT_MIN, 3) in
  let best_col := snd best in
  do found <- peek (fun b => scan_column b best_col) in
  match found with
  | Some r => ret (mkMove r best_col, k)
  | None => ai_easy_move fuel rnd k
  end.

(** *** Exhaustive minimax: the search of the specification without pruning

    The same recursion with no window: every valid column of every node is
    searched. *)
Fixpoint max_all (search : M Z) (player : Cell) (cols : list Z) (max_eval : Z)
  : M Z :=
  match cols with
  | [] => ret max_eval
  | col :: cols' =>
      do r <- make_move col player in
      do eval <- search in
      do _ <- undo_move r col in
      max_all search player cols' (if eval >? max_eval then eval else max_eval)
  end.

Fixpoint min_all (search : M Z) (opponent : Cell) (cols : list Z) (min_eval : Z)
  : M Z :=
  match cols with
  | [] => ret min_eval
  | col :: cols' =>
      do r <- make_move col opponent in
      do eval <- search in
      do _ <- undo_move r col in
      min_all search opponent cols' (if eval <? min_eval then eval else min_eval)
  end.

Fixpoint minimax_exhaustive (fuel : nat) (depth : Z) (maximizing : bool)
         (player : Cell) : M Z :=
  match fuel with
  | O => fun _ => Timeout
  | S fuel' =>
      let opponent := opponent_of player in
      do over <- (if depth =? 0 then ret true else peek is_game_over) in
      if (over : bool) then peek (fun b => evaluate_position b player) else
      do valid_cols <- peek get_valid_moves in
      if Z.of_nat (length valid_cols) =? 0 then ret 0 else
      if maximizing then
        max_all (minimax_exhaustive fuel' (depth - 1) false player)
                player valid_cols INT_MIN
      else
        min_all (minimax_exhaustive fuel' (depth - 1) true player)
                opponent valid_cols INT_MAX
  end.

(** The hard AI of the specification with the exhaustive search in the
    place of the pruned one. *)
Definition ai_hard_move_exhaustive (fuel : nat) (rnd : nat -> Z) (k : nat)
  : M (GameMove * nat) :=
  do winning_move <- find_winning_move cell_player2 in
  if negb (row winning_move =? -1) then ret (winning_move, k) else
  do blocking_move <- find_winning_move cell_player1 in
  if negb (row blocking_move =? -1) then ret (blocking_move, k) else
  do valid_cols <- peek get_valid_moves in
  do best <- hard_loop
               (minimax_exhaustive fuel (SEARCH_DEPTH - 1) false cell_player2)
               valid_cols (INT_MIN, 3) in
  let best_col := snd best in
  do found <- peek (fun b => scan_column b best_col) in
  match found with
  | Some r => ret (mkMove r best_col, k)
  | None => ai_easy_move fuel rnd k
  end.

(** ** Game session (game.c, [game_init_pvp] and the three AI modes)

    menu.c calls [board_init()] before each [game_init_*]; the loop state is
    the board with [count_moves] and [turn]. *)
Record Session : Type :=
  mkSession { s_board : Board; count_moves : Z; turn : Z }.

Definition session_start : Session := mkSession board_init 0 0.

(** One pass of the loop body once the move is known (from
    [input_player_move] or from the AI): the store, [count_moves++] and the
    gated win check.  The second component is [None] when [check_winner] is
    not called and [Some winner] when it is. *)
Definition ply (s : Session) (move : GameMove) : res (Session * option bool) :=
  let player := if turn s =? 0 then cell_player1 else cell_player2 in
  let turn' := if turn s =? 0 then 1 else 0 in
  let* b := wr (s_board s) (row move) (column move) player in
  let count_moves := count_moves s + 1 in
  if count_moves >? 6 then
    let* winner := check_winner b move player in
    Val (mkSession b count_moves turn', Some winner)
  else Val (mkSession b count_moves turn', None).

(** A move as [input_player_move] and the AI tiers produce it: a column in
    range with the row its bottom-up scan finds. *)
Definition is_drop (b : Board) (move : GameMove) : Prop :=
  0 <= column move < COLS /\
  scan_column b (column move) = Val (Some (row move)).

(** The sessions a game can be in: from the start, one legal drop per ply. *)
Inductive in_play : Session -> Prop :=
| in_play_start : in_play session_start
| in_play_ply s move s' w :
    in_play s -> is_drop (s_board s) move -> ply s move = Val (s', w) ->
    in_play s'.

(** ** The vocabulary of the specification *)

(** The cell is on the grid and holds [p]. *)
Definition holds (b : Board) (p : Cell) (rc : Z * Z) : bool :=
  match rd b (fst rc) (snd rc) with
  | Val v => Cell_eqb v p
  | _ => false
  end.

(** The four cells from [(r, c)] in direction [(dr, dc)]. *)
Definition window_cells (r c dr dc : Z) : list (Z * Z) :=
  map (fun i => (r + i * dr, c + i * dc)) (upto 0 4).

(** Vertical, horizontal, and the two diagonals. *)
Definition axes : list (Z * Z) := [(1, 0); (0, 1); (-1, 1); (1, 1)].

(** Some axis through [(r, c)] carries four consecutive cells of [p], the
    cell [(r, c)] among them. *)
Definition four_through (b : Board) (p : Cell) (r c : Z) : bool :=
  List.existsb (fun d : Z * Z =>
    List.existsb (fun k =>
      List.forallb (holds b p)
        (window_cells (r - k * fst d) (c - k * snd d) (fst d) (snd d)))
      (upto 0 4))
    axes.

Definition grid_cells : list (Z * Z) :=
  nest (upto 0 (Z.to_nat ROWS)) (upto 0 (Z.to_nat COLS)).

(** Every contiguous 4-cell window that fits on the board, along the four
    axes. *)
Definition all_windows : list (list (Z * Z)) :=
  flat_map (fun d : Z * Z =>
    List.filter (List.forallb (fun rc : Z * Z => in_grid (fst rc) (snd rc)))
      (map (fun rc : Z * Z => window_cells (fst rc) (snd rc) (fst d) (snd d))
           grid_cells))
    axes.

(** Four in a row of [p] somewhere on the board. *)
Definition four_anywhere (b : Board) (p : Cell) : bool :=
  List.existsb (List.forallb (holds b p)) all_windows.

(** Number of cells of the board that hold [v]. *)
Definition count_cells (b : Board) (v : Cell) : nat :=
  length (List.filter (holds b v) grid_cells).

(** The table of the evaluator: (player cells, opponent cells, empty cells)
    of a window to its contribution. *)
Definition window_value (np no ne : nat) : Z :=
  match np, no, ne with
  | 4%nat, 0%nat, 0%nat => 100
  | 3%nat, 0%nat, 1%nat => 5
  | 2%nat, 0%nat, 2%nat => 2
  | 0%nat, 4%nat, 0%nat => -100
  | 0%nat, 3%nat, 1%nat => -4
  | _, _, _ => 0
  end.

Definition count_in (b : Board) (v : Cell) (w : list (Z * Z)) : nat :=
  length (List.filter (holds b v) w).

Definition sumZ (l : list Z) : Z := fold_right Z.add 0 l.

(** The contribution of one window to the score of [player]: the table at
    the counts of the window. *)
Definition window_score (b : Board) (player : Cell) (w : list (Z * Z)) : Z :=
  window_value (count_in b player w)
               (count_in b (opponent_of player) w)
               (count_in b cell_empty w).

(** The score of the specification: the table summed over all windows, plus
    3 for each piece of [player] in the centre column. *)
Definition spec_score (b : Board) (player : Cell) : Z :=
  sumZ (map (window_score b player) all_windows)
  + 3 * Z.of_nat (count_in b player (map (fun r => (r, 3)) (upto 0 (Z.to_nat ROWS)))).

(** [r] is the lowest empty row of column [col]. *)
Definition lowest_empty (b : Board) (col r : Z) : Prop :=
  rd b r col = Val cell_empty /\
  forall r', r < r' < ROWS -> rd b r' col <> Val cell_empty.

(** Column [col] has no empty cell. *)
Definition column_full (b : Board) (col : Z) : Prop :=
  forall r, 0 <= r < ROWS -> rd b r col <> Val cell_empty.

(** Dropping a piece of [p] into column [col] lands on row [r] and
    completes four in a row there. *)
Definition winning_drop (b : Board) (p : Cell) (col r : Z) : Prop :=
  lowest_empty b col r /\
  exists b', wr b r col p = Val b' /\ four_through b' p r col = true.

(** Length of the run of cells of [p] that starts next to [(r, c)] in
    direction [(dr, dc)], looking at most [n] cells far. *)
Fixpoint run_len (n : nat) (b : Board) (p : Cell) (r c dr dc : Z) : Z :=
  match n with
  | O => 0
  | S n' =>
      if holds b p (r + dr, c + dc)
      then 1 + run_len n' b p (r + dr) (c + dc) dr dc
      else 0
  end.

(** How many steps in direction [(dr, dc)] a walk can make from [(r, c)]
    at most before it leaves the grid. *)
Definition steps_left (dr dc r c : Z) : Z :=
  (if dr >? 0 then ROWS - 1 - r else if dr <? 0 then r else 0) +
  (if dc >? 0 then COLS - 1 - c else if dc <? 0 then c else 0).

(** The move [find_winning_move] tries in column [col], when it wins: the
    drop of [p] lands on the lowest empty row and completes four there. *)
Definition wins_at (b : Board) (p : Cell) (col : Z) : option GameMove :=
  match scan_column b col with
  | Val (Some r) =>
      match wr b r col p with
      | Val b' => if four_through b' p r col then Some (mkMove r col) else None
      | _ => None
      end
  | _ => None
  end.

(** The first winning drop of [p] over the columns [cols], or the sentinel. *)
Fixpoint first_win (b : Board) (p : Cell) (cols : list Z) : GameMove :=
  match cols with
  | [] => mkMove (-1) (-1)
  | col :: cols' =>
      match wins_at b p col with
      | Some m => m
      | None => first_win b p cols'
      end
  end.

(** A move the game loop can store: a column of the grid with the lowest
    empty row of that column. *)
Definition valid_drop (b : Board) (m : GameMove) : Prop :=
  0 <= column m < COLS /\ lowest_empty b (column m) (row m).

(** The windows a loop nest of [evaluate_position] visits, as cell lists. *)
Definition windows_of (window : Z -> Z -> Z -> Z * Z) (starts : list (Z * Z))
  : list (list (Z * Z)) :=
  map (fun oi : Z * Z => map (window (fst oi) (snd oi)) (upto 0 4)) starts.

(** The windows of the four loop nests, in the order the code visits them. *)
Definition code_windows : list (list (Z * Z)) :=
  windows_of (fun r c i => (r, c + i))
    (nest (upto 0 (Z.to_nat ROWS)) (upto 0 (Z.to_nat (COLS - 4 + 1)))) ++
  windows_of (fun c r i => (r + i, c))
    (nest (upto 0 (Z.to_nat COLS)) (upto 0 (Z.to_nat (ROWS - 4 + 1)))) ++
  windows_of (fun r c i => (r + i, c + i))
    (nest (upto 0 (Z.to_nat (ROWS - 4 + 1))) (upto 0 (Z.to_nat (COLS - 4 + 1)))) ++
  windows_of (fun r c i => (r - i, c + i))
    (nest (upto 3 (Z.to_nat (ROWS - 3))) (upto 0 (Z.to_nat (COLS - 4 + 1)))).

Definition cells_in_grid (w : list (Z * Z)) : bool :=
  List.forallb (fun rc : Z * Z => in_grid (fst rc) (snd rc)) w.

(** A bound on the absolute value of every score: 69 windows of at most 100
    each, and 3 for each of the 6 cells of the centre column. *)
Definition SCORE_BOUND : Z := 6918.

(** The pruned value [v'] of a node searched with the window
    [(alpha, beta)] tells this much about its exact value [v]: at or below
    [alpha] it is an upper bound, at or above [beta] a lower bound, and
    strictly inside the window it is exact. *)
Definition ab_sound (alpha beta v v' : Z) : Prop :=
  (v' <= alpha -> v <= v') /\
  (alpha < v' < beta -> v = v') /\
  (beta <= v' -> v' <= v).

(** ** Replaying a game and example positions *)

(** [is_drop] as a test. *)
Definition is_dropb (b : Board) (move : GameMove) : bool :=
  (0 <=? column move) && (column move <? COLS) &&
  match scan_column b (column move) with
  | Val (Some r) => r =? row move
  | _ => false
  end.

(** The session after one more ply (unchanged if the ply faults). *)
Definition after (s : Session) (move : GameMove) : Session :=
  match ply s move with
  | Val (s', _) => s'
  | _ => s
  end.

(** All the moves of a replay are drops the board allows. *)
Fixpoint legal_replay (s : Session) (moves : list GameMove) : bool :=
  match moves with
  | [] => true
  | m :: moves' => is_dropb (s_board s) m && legal_replay (after s m) moves'
  end.

Definition replay (s : Session) (moves : list GameMove) : Session :=
  fold_left after moves s.

Module Examples.

Local Abbreviation ee := cell_empty.
Local Abbreviation xx := cell_player1.
Local Abbreviation oo := cell_player2.

Definition empty_row : list Cell := [ee; ee; ee; ee; ee; ee; ee].

(** Player1 has just played (5, 2), between its pieces on columns 0, 1
    and 3 of the bottom row. *)
Definition board_split_run : Board :=
  [ empty_row; empty_row; empty_row; empty_row;
    [oo; oo; ee; oo; ee; ee; ee];
    [xx; xx; xx; xx; ee; ee; ee] ].

(** The seven plies that lead to [board_split_run]. *)
Definition split_run_moves : list GameMove :=
  [ mkMove 5 0; mkMove 4 0; mkMove 5 1; mkMove 4 1;
    mkMove 5 3; mkMove 4 3; mkMove 5 2 ].

(** One piece of Player1 on the bottom of the centre column. *)
Definition board_one_piece : Board :=
  [ empty_row; empty_row; empty_row; empty_row; empty_row;
    [ee; ee; ee; xx; ee; ee; ee] ].

(** Player2 completes four in a row by a drop into column 3. *)
Definition board_p2_three : Board :=
  [ empty_row; empty_row; empty_row; empty_row; empty_row;
    [oo; oo; oo; ee; xx; xx; xx] ].

(** Column 0 is full, the other columns are empty. *)
Definition board_col0_full : Board :=
  [ [xx; ee; ee; ee; ee; ee; ee];
    [oo; ee; ee; ee; ee; ee; ee];
    [xx; ee; ee; ee; ee; ee; ee];
    [oo; ee; ee; ee; ee; ee; ee];
    [xx; ee; ee; ee; ee; ee; ee];
    [oo; ee; ee; ee; ee; ee; ee] ].

(** Player1 threatens to complete the bottom row on column 3; Player2 has
    no winning drop. *)
Definition board_p1_three : Board :=
  [ empty_row; empty_row; empty_row; empty_row;
    [oo; ee; ee; ee; oo; ee; ee];
    [xx; xx; xx; ee; oo; ee; ee] ].

End Examples.

(** ** Notions used in the proofs *)

(** One of the windows of axis [d] that contain the cell of [m] is full of
    [p]. *)
Definition on_axis (b : Board) (m : GameMove) (p : Cell) (d : Z * Z) : bool :=
  List.existsb (fun k =>
    List.forallb (holds b p)
      (window_cells (row m - k * fst d) (column m - k * snd d) (fst d) (snd d)))
    (upto 0 4).

(** The state of the strategic search is either still the initial sentinel
    or a drop the board allows. *)
Definition strategic_inv (b : Board) (best : Z * GameMove) : Prop :=
  (fst best = -1 /\ snd best = mkMove (-1) (-1)) \/
  (0 <= fst best /\ valid_drop b (snd best)).

(** A column [get_valid_moves] lists: on the grid, with an empty top cell. *)
Definition valid_col (b : Board) (c : Z) : Prop :=
  0 <= c < COLS /\ rd b 0 c = Val cell_empty.

(** A score within the bound. *)
Definition bounded (v : Z) : Prop := - SCORE_BOUND <= v <= SCORE_BOUND.

(** What holds of every session in play: Player1 moves on even plies, and
    the pieces of each colour are the plies that colour has played. *)
Definition session_inv (s : Session) : Prop :=
  wf_board (s_board s) /\
  (turn s = 0 \/ turn s = 1) /\
  2 * Z.of_nat (count_cells (s_board s) cell_player1) = count_moves s + turn s /\
  2 * Z.of_nat (count_cells (s_board s) cell_player2) = count_moves s - turn s.

(** ** Notions for the further properties *)

(** The cell [rc] is occupied and lies on a run of four of its colour. *)
Definition win_at (b : Board) (rc : Z * Z) : bool :=
  match rd b (fst rc) (snd rc) with
  | Val v => negb (Cell_eqb v cell_empty) && four_through b v (fst rc) (snd rc)
  | _ => false
  end.

(** No cell of the top row is empty. *)
Definition top_row_occupied (b : Board) : bool :=
  List.forallb (fun c => negb (holds b cell_empty (0, c))) cols_left_right.


(** The gravity invariant: every cell above an empty cell is empty. *)
Definition gravity (b : Board) : Prop :=
  forall r col, rd b r col = Val cell_empty ->
                forall r', 0 <= r' < r -> rd b r' col = Val cell_empty.


(** ** Player input and the Player-vs-Player loop (input.c, game.c) *)

(** input.c, [input_player_move].  [inputs] holds the values the successive
    calls of [input_player_int_range(1, 7)] return; the result carries the
    inputs left.  [None]: the inputs ran out while the function was asking
    (it waits in [scanf]). *)
Fixpoint input_player_move (inputs : list Z) (b : Board)
  : res (option (GameMove * list Z)) :=
  match inputs with
  | [] => Val None
  | v :: rest =>
      let column := v - 1 in
      let* found := scan_column b column in
      match found with
      | None => input_player_move rest b     (* column full: ask again *)
      | Some r => Val (Some (mkMove r column, rest))
      end
  end.

(** How a game loop ends: a win (the statistics call tells whose), a draw,
    or the loop waiting for input that has not come. *)
Inductive Outcome : Type :=
| Win (player : Cell) (s : Session)
| Draw (s : Session)
| Awaiting (s : Session).

(** The [while (running)] loop of [game_init_pvp]; [fuel] bounds its
    iterations. *)
Fixpoint pvp_loop (fuel : nat) (inputs : list Z) (s : Session) : res Outcome :=
  match fuel with
  | O => Timeout
  | S fuel' =>
      if count_moves s =? BOARD_FULL then Val (Draw s) else
      let player := if turn s =? 0 then cell_player1 else cell_player2 in
      let* asked := input_player_move inputs (s_board s) in
      match asked with
      | None => Val (Awaiting s)
      | Some (move, rest) =>
          let* after_ply := ply s move in
          match after_ply with
          | (s', Some true) => Val (Win player s')
          | (s', _) => pvp_loop fuel' rest s'
          end
      end
  end.

(** [game_init_pvp] on the global board: [count_moves = 0], [turn = 0]. *)
Definition game_init_pvp (fuel : nat) (inputs : list Z) (b : Board)
  : res Outcome :=
  pvp_loop fuel inputs (mkSession b 0 0).

(** Neither player has four in a row. *)
Definition quiet (b : Board) : Prop :=
  four_anywhere b cell_player1 = false /\ four_anywhere b cell_player2 = false.


(** What each way of leaving the Player-vs-Player loop says about the
    session it leaves. *)
Definition outcome_ok (o : Outcome) : Prop :=
  match o with
  | Win p s =>
      in_play s /\ 7 <= count_moves s <= BOARD_FULL /\
      p = (if turn s =? 0 then cell_player2 else cell_player1) /\
      four_anywhere (s_board s) p = true /\
      four_anywhere (s_board s) (opponent_of p) = false
  | Draw s =>
      in_play s /\ count_moves s = BOARD_FULL /\ quiet (s_board s) /\
      count_cells (s_board s) cell_empty = 0%nat
  | Awaiting s =>
      in_play s /\ count_moves s < BOARD_FULL /\ quiet (s_board s)
  end.


(** ** The games against the computer (game.c, [game_init_easy],
    [game_init_medium], [game_init_hard])

    The three loops are the same text up to the AI they call and the
    messages: Player1 is asked on turn 0, the AI moves as Player2
    otherwise.  [ai k] is the AI with the cursor of [rand()] at [k]. *)
Fixpoint ai_game_loop (ai : nat -> M (GameMove * nat)) (fuel : nat)
         (inputs : list Z) (k : nat) (s : Session) : res Outcome :=
  match fuel with
  | O => Timeout
  | S fuel' =>
      if count_moves s =? BOARD_FULL then Val (Draw s) else
      if turn s =? 0 then
        let* asked := input_player_move inputs (s_board s) in
        match asked with
        | None => Val (Awaiting s)
        | Some (move, rest) =>
            let* after_ply := ply s move in
            match after_ply with
            | (s', Some true) => Val (Win cell_player1 s')
            | (s', _) => ai_game_loop ai fuel' rest k s'
            end
        end
      else
        let* thought := ai k (s_board s) in
        let '((move, k'), b) := thought in
        let* after_ply := ply (mkSession b (count_moves s) (turn s)) move in
        match after_ply with
        | (s', Some true) => Val (Win cell_player2 s')
        | (s', _) => ai_game_loop ai fuel' inputs k' s'
        end
  end.

Definition game_init_easy (ai_fuel fuel : nat) (rnd : nat -> Z)
           (inputs : list Z) (b : Board) : res Outcome :=
  ai_game_loop (ai_easy_move ai_fuel rnd) fuel inputs 0 (mkSession b 0 0).

Definition game_init_medium (ai_fuel fuel : nat) (rnd : nat -> Z)
           (inputs : list Z) (b : Board) : res Outcome :=
  ai_game_loop (ai_medium_move ai_fuel rnd) fuel inputs 0 (mkSession b 0 0).

Definition game_init_hard (ai_fuel fuel : nat) (rnd : nat -> Z)
           (inputs : list Z) (b : Board) : res Outcome :=
  ai_game_loop (ai_hard_move ai_fuel rnd) fuel inputs 0 (mkSession b 0 0).


(** The eight directions the earlier revision of [check_winner] walks from
    the placed piece, in the order of its loops. *)
Definition directions8 : list (Z * Z) :=
  [(1, 0); (-1, 0); (0, 1); (0, -1); (1, 1); (-1, -1); (1, -1); (-1, 1)].

(** The placed piece is an end cell of four consecutive cells of [p]. *)
Definition four_from (b : Board) (p : Cell) (r c : Z) : bool :=
  List.existsb (fun d : Z * Z =>
    List.forallb (holds b p) (window_cells r c (fst d) (snd d)))
    directions8.


(** What [count_threats] counts for a piece of [p] tried on the empty cell
    [(r, col)]: the horizontal and the vertical line through it, each worth
    its length when it has at least two pieces. *)
Definition threat_value (b : Board) (p : Cell) (r col : Z) : Z :=
  match wr b r col p with
  | Val b' =>
      let h := 1 + run_len LOOP_FUEL b' p r col 0 1
                 + run_len LOOP_FUEL b' p r col 0 (-1) in
      let v := 1 + run_len LOOP_FUEL b' p r col 1 0
                 + run_len LOOP_FUEL b' p r col (-1) 0 in
      (if h >=? 2 then h else 0) + (if v >=? 2 then v else 0)
  | _ => 0
  end.

(** The score [find_best_strategic_move] gives a column that has room. *)
Definition strategic_score (b : Board) (p : Cell) (col : Z) : option Z :=
  match scan_column b col with
  | Val (Some r) => Some (threat_value b p r col + center_bonus col)
  | _ => None
  end.

(** The state of the strategic search after the columns below [hi]: the
    sentinel while no column had room, else the best score so far with the
    leftmost column that reaches it. *)
Definition strategic_best (b : Board) (p : Cell) (hi : Z)
           (best : Z * GameMove) : Prop :=
  (fst best = -1 /\ snd best = mkMove (-1) (-1) /\
   forall c, 0 <= c < hi -> strategic_score b p c = None) \/
  (0 <= column (snd best) < hi /\
   scan_column b (column (snd best)) = Val (Some (row (snd best))) /\
   strategic_score b p (column (snd best)) = Some (fst best) /\
   forall c s, 0 <= c < hi -> strategic_score b p c = Some s ->
               s <= fst best /\ (s = fst best -> column (snd best) <= c)).


(** The value the Hard AI's search gives to a drop of Player2 into [col]:
    the exhaustive minimax value, [SEARCH_DEPTH - 1] plies deep with the
    opponent to move, of the board after the drop. *)
Definition drop_value (fuel : nat) (b : Board) (col : Z) : option Z :=
  match make_move col cell_player2 b with
  | Val (_, b') =>
      match minimax_exhaustive fuel (SEARCH_DEPTH - 1) false cell_player2 b' with
      | Val (e, _) => Some e
      | _ => None
      end
  | _ => None
  end.

(** The state [(best_score, best_col)] of [ai_hard_move]'s loop after the
    columns below [hi]: untouched while no column was valid, else the best
    value so far with the leftmost column that reaches it. *)
Definition hard_best (fuel : nat) (b : Board) (hi : Z) (best : Z * Z) : Prop :=
  (fst best = INT_MIN /\ forall c, 0 <= c < hi -> ~ valid_col b c) \/
  (0 <= snd best < hi /\ valid_col b (snd best) /\
   drop_value fuel b (snd best) = Some (fst best) /\
   forall c, 0 <= c < hi -> valid_col b c ->
             exists e, drop_value fuel b c = Some e /\ e <= fst best /\
                       (e = fst best -> snd best <= c)).


(** input.c, [input_player_int_range].  [reads] holds what the successive
    calls of [scanf("%d", &value)] give: [None] when the call does not
    return 1, [Some v] when it stores [v].  The result carries the reads
    left; [None]: the loop is still waiting for a read. *)
Fixpoint input_player_int_range (low high : Z) (reads : list (option Z))
  : option (Z * list (option Z)) :=
  match reads with
  | [] => None
  | None :: rest => input_player_int_range low high rest
  | Some value :: rest =>
      if (value <? low) || (value >? high)
      then input_player_int_range low high rest
      else Some (value, rest)
  end.

(** The values successive calls of [input_player_int_range low high] return
    on [reads], as far as the reads go; [fuel] bounds the number of calls. *)
Fixpoint int_range_calls (fuel : nat) (low high : Z) (reads : list (option Z))
  : list Z :=
  match fuel with
  | O => []
  | S fuel' =>
      match input_player_int_range low high reads with
      | Some (v, rest) => v :: int_range_calls fuel' low high rest
      | None => []
      end
  end.

(** A read the loop of [input_player_int_range] rejects. *)
Definition rejected (low high : Z) (t : option Z) : Prop :=
  match t with
  | None => True
  | Some v => v < low \/ high < v
  end.


(** A position with the computer to move and a win in one: seven plies,
    Player1 on column 0 three times and on column 2, Player2 three times
    on column 1. *)
Definition computer_to_win_moves : list GameMove :=
  [ mkMove 5 0; mkMove 5 1; mkMove 4 0; mkMove 4 1;
    mkMove 3 0; mkMove 3 1; mkMove 5 2 ].

Definition board_computer_to_win : Board :=
  [ Examples.empty_row; Examples.empty_row; Examples.empty_row;
    [cell_player1; cell_player2; cell_empty; cell_empty; cell_empty;
     cell_empty; cell_empty];
    [cell_player1; cell_player2; cell_empty; cell_empty; cell_empty;
     cell_empty; cell_empty];
    [cell_player1; cell_player2; cell_player1; cell_empty; cell_empty;
     cell_empty; cell_empty] ].

(** * Properties *)

(** ** Counting loops *)

Lemma In_upto x lo n : In x (upto lo n) <-> lo <= x < lo + Z.of_nat n.
Proof.
  revert lo. induction n as [|n IH]; intros lo; cbn [upto In].
  - lia.
  - rewrite IH. lia.
Qed.

Lemma upto_range lo n : Forall (fun x => lo <= x < lo + Z.of_nat n) (upto lo n).
Proof. apply Forall_forall. intros x Hx. apply list_elem_of_In, In_upto in Hx. lia. Qed.

(** ** The board as an array *)

Lemma in_grid_spec r c :
  in_grid r c = true <-> 0 <= r < ROWS /\ 0 <= c < COLS.
Proof. unfold in_grid, ROWS, COLS. lia. Qed.

Lemma Cell_eqb_eq a b : Cell_eqb a b = true <-> a = b.
Proof. destruct a, b; simpl; split; congruence. Qed.

Lemma Cell_eqb_refl a : Cell_eqb a a = true.
Proof. now destruct a. Qed.

Lemma Cell_eqb_neq a b : Cell_eqb a b = false <-> a <> b.
Proof. destruct a, b; simpl; split; congruence. Qed.

Lemma wf_board_init : wf_board board_init.
Proof.
  split; [reflexivity|]. unfold board_init. simpl.
  repeat constructor.
Qed.

Lemma wf_row (b : Board) (r : nat) (line : list Cell) :
  wf_board b -> b !! r = Some line -> length line = Z.to_nat COLS.
Proof.
  intros [_ Hall] Hl. rewrite Forall_forall in Hall.
  apply Hall. eapply list_elem_of_lookup_2; eauto.
Qed.

Lemma rd_in_grid (b : Board) r c v : rd b r c = Val v -> in_grid r c = true.
Proof. unfold rd. destruct (in_grid r c); [reflexivity | discriminate]. Qed.

Lemma rd_total (b : Board) r c :
  wf_board b -> in_grid r c = true -> exists v, rd b r c = Val v.
Proof.
  intros Hwf Hg. unfold rd. rewrite Hg.
  apply in_grid_spec in Hg. unfold ROWS, COLS in Hg.
  destruct (b !! Z.to_nat r) as [line|] eqn:Hl.
  - pose proof (wf_row _ _ _ Hwf Hl) as Hlen.
    destruct (line !! Z.to_nat c) as [v|] eqn:Hc; [eauto|].
    apply lookup_ge_None in Hc. unfold COLS in Hlen. lia.
  - apply lookup_ge_None in Hl. destruct Hwf as [Hlen _].
    unfold ROWS in Hlen. lia.
Qed.

Lemma wr_in_grid (b : Board) r c v b' : wr b r c v = Val b' -> in_grid r c = true.
Proof. unfold wr. destruct (in_grid r c); [reflexivity | discriminate]. Qed.

Lemma wr_total (b : Board) r c v :
  wf_board b -> in_grid r c = true -> exists b', wr b r c v = Val b'.
Proof.
  intros Hwf Hg. destruct (rd_total b r c Hwf Hg) as [v0 Hv0].
  unfold rd in Hv0. unfold wr. rewrite Hg in *.
  destruct (b !! Z.to_nat r) as [line|]; [|discriminate].
  destruct (line !! Z.to_nat c) as [x|] eqn:Hc; [|discriminate].
  apply lookup_lt_Some in Hc.
  destruct (Nat.ltb_spec (Z.to_nat c) (length line)); [eauto | lia].
Qed.

Lemma wr_wf (b : Board) r c v b' :
  wf_board b -> wr b r c v = Val b' -> wf_board b'.
Proof.
  intros Hwf Hw. unfold wr in Hw.
  destruct (in_grid r c); [|discriminate].
  destruct (b !! Z.to_nat r) as [line|] eqn:Hl; [|discriminate].
  destruct (Z.to_nat c <? length line)%nat; [|discriminate].
  injection Hw as Hw; subst b'. pose proof (wf_row _ _ _ Hwf Hl) as Hlen.
  destruct Hwf as [Hlb Hall]. split.
  - now rewrite length_insert.
  - rewrite Forall_forall in *. intros x Hx.
    apply list_elem_of_lookup in Hx. destruct Hx as [i Hi].
    destruct (decide (i = Z.to_nat r)) as [->|Hne].
    + rewrite list_lookup_insert_eq in Hi by (eapply lookup_lt_Some; eauto).
      simplify_eq. now rewrite length_insert.
    + rewrite list_lookup_insert_ne in Hi by congruence.
      apply Hall. eapply list_elem_of_lookup_2; eauto.
Qed.

Lemma rd_wr_same (b : Board) r c v b' :
  wr b r c v = Val b' -> rd b' r c = Val v.
Proof.
  intros Hw. unfold wr in Hw. unfold rd.
  destruct (in_grid r c); [|discriminate].
  destruct (b !! Z.to_nat r) as [line|] eqn:Hl; [|discriminate].
  destruct (Nat.ltb_spec (Z.to_nat c) (length line)); [|discriminate].
  injection Hw as Hw; subst b'.
  rewrite list_lookup_insert_eq by (eapply lookup_lt_Some; eauto).
  now rewrite list_lookup_insert_eq.
Qed.

Lemma rd_wr_other (b : Board) r c v b' r' c' :
  wr b r c v = Val b' -> (r', c') <> (r, c) -> rd b' r' c' = rd b r' c'.
Proof.
  intros Hw Hne. unfold wr in Hw. unfold rd.
  destruct (in_grid r c) eqn:Hg; [|discriminate].
  destruct (b !! Z.to_nat r) as [line|] eqn:Hl; [|discriminate].
  destruct (Nat.ltb_spec (Z.to_nat c) (length line)); [|discriminate].
  injection Hw as Hw; subst b'.
  destruct (in_grid r' c') eqn:Hg'; [|reflexivity].
  apply in_grid_spec in Hg, Hg'.
  destruct (decide (Z.to_nat r' = Z.to_nat r)) as [Her|Her].
  - rewrite Her, Hl.
    rewrite list_lookup_insert_eq by (eapply lookup_lt_Some; eauto).
    rewrite list_lookup_insert_ne; [reflexivity|].
    intros Hc. apply Hne. f_equal; lia.
  - rewrite list_lookup_insert_ne by congruence. reflexivity.
Qed.

(** Writing back the value a cell had restores the board. *)
Lemma wr_undo (b : Board) r c v0 v b' :
  rd b r c = Val v0 -> wr b r c v = Val b' -> wr b' r c v0 = Val b.
Proof.
  intros Hr Hw. unfold rd in Hr. unfold wr in *.
  destruct (in_grid r c); [|discriminate].
  destruct (b !! Z.to_nat r) as [line|] eqn:Hl; [|discriminate].
  destruct (line !! Z.to_nat c) as [x|] eqn:Hc; [|discriminate].
  injection Hr as ->.
  destruct (Nat.ltb_spec (Z.to_nat c) (length line)); [|discriminate].
  injection Hw as Hw; subst b'.
  rewrite list_lookup_insert_eq by (eapply lookup_lt_Some; eauto).
  rewrite length_insert.
  destruct (Nat.ltb_spec (Z.to_nat c) (length line)); [|lia].
  rewrite list_insert_insert_eq.
  rewrite list_insert_insert_eq.
  rewrite (list_insert_id line) by assumption.
  now rewrite list_insert_id.
Qed.

(** ** Win detection *)

Section CountRun.
Variables (guard : Z -> Z -> bool) (dr dc : Z) (b : Board) (p : Cell).
Hypothesis Hwf : wf_board b.
Hypothesis Hdir : dr <> 0 \/ dc <> 0.
(** The loop's test is exactly: the next cell is on the grid. *)
Hypothesis Hguard :
  forall r c, in_grid r c = true -> guard r c = in_grid (r + dr) (c + dc).

Lemma count_run_spec fuel r c count :
  in_grid r c = true ->
  steps_left dr dc r c < Z.of_nat fuel ->
  count_run fuel guard dr dc b p r c count
  = Val (count + run_len fuel b p r c dr dc).
Proof.
  revert r c count. induction fuel as [|fuel IH]; intros r c count Hg Hs.
  - apply in_grid_spec in Hg. unfold steps_left, ROWS, COLS in *.
    destruct (dr >? 0), (dr <? 0), (dc >? 0), (dc <? 0); lia.
  - cbn [count_run run_len]. rewrite (Hguard _ _ Hg). unfold holds. cbn [fst snd].
    destruct (in_grid (r + dr) (c + dc)) eqn:Hg'.
    + destruct (rd_total b _ _ Hwf Hg') as [v Hv]. rewrite Hv. cbn [rbind].
      destruct (Cell_eqb v p).
      * rewrite IH; [f_equal; lia | assumption |].
        apply in_grid_spec in Hg, Hg'. unfold steps_left, ROWS, COLS in *.
        destruct (Z.gtb_spec dr 0), (Z.ltb_spec dr 0),
                 (Z.gtb_spec dc 0), (Z.ltb_spec dc 0); lia.
      * f_equal; lia.
    + unfold rd. rewrite Hg'. f_equal; lia.
Qed.

Lemma count_run_loop r c count :
  in_grid r c = true ->
  count_run LOOP_FUEL guard dr dc b p r c count
  = Val (count + run_len LOOP_FUEL b p r c dr dc).
Proof.
  intros Hg. apply count_run_spec; [assumption|].
  apply in_grid_spec in Hg. unfold steps_left, ROWS, COLS, LOOP_FUEL in *.
  destruct (dr >? 0), (dr <? 0), (dc >? 0), (dc <? 0); lia.
Qed.
End CountRun.

Lemma run_len_nonneg n b p r c dr dc : 0 <= run_len n b p r c dr dc.
Proof.
  revert r c. induction n as [|n IH]; intros r c; cbn [run_len]; [lia|].
  destruct (holds b p (r + dr, c + dc)); [|lia].
  specialize (IH (r + dr) (c + dc)). lia.
Qed.

(** Only the first three cells of a run matter for a win. *)
Lemma run_len_min3 n b p r c dr dc :
  Z.min 3 (run_len (S (S (S n))) b p r c dr dc)
  = if holds b p (r + 1 * dr, c + 1 * dc) then
      if holds b p (r + 2 * dr, c + 2 * dc) then
        if holds b p (r + 3 * dr, c + 3 * dc) then 3 else 2
      else 1
    else 0.
Proof.
  cbn [run_len].
  replace (r + dr + dr + dr) with (r + 3 * dr) by lia.
  replace (c + dc + dc + dc) with (c + 3 * dc) by lia.
  replace (r + dr + dr) with (r + 2 * dr) by lia.
  replace (c + dc + dc) with (c + 2 * dc) by lia.
  replace (r + dr) with (r + 1 * dr) by lia.
  replace (c + dc) with (c + 1 * dc) by lia.
  pose proof (run_len_nonneg n b p (r + 3 * dr) (c + 3 * dc) dr dc).
  destruct (holds b p (r + 1 * dr, c + 1 * dc)); [|lia].
  destruct (holds b p (r + 2 * dr, c + 2 * dc)); [|lia].
  destruct (holds b p (r + 3 * dr, c + 3 * dc)); lia.
Qed.

(** The run through [(r, c)] along an axis has length at least four iff one
    of the four windows of the axis that contain [(r, c)] is full. *)
Lemma run_ge4_iff_window n1 n2 b p r c dr dc dr' dc' :
  dr' = - dr -> dc' = - dc ->
  holds b p (r, c) = true ->
  (1 + run_len (S (S (S n1))) b p r c dr dc
     + run_len (S (S (S n2))) b p r c dr' dc' >=? WIN_COUNT)
  = List.existsb (fun k =>
      List.forallb (holds b p)
        (window_cells (r - k * dr) (c - k * dc) dr dc)) (upto 0 4).
Proof.
  intros -> -> H0.
  pose proof (run_len_min3 n1 b p r c dr dc) as E1.
  pose proof (run_len_min3 n2 b p r c (- dr) (- dc)) as E2.
  pose proof (run_len_nonneg (S (S (S n1))) b p r c dr dc) as P1.
  pose proof (run_len_nonneg (S (S (S n2))) b p r c (- dr) (- dc)) as P2.
  set (e1 := run_len (S (S (S n1))) b p r c dr dc) in *.
  set (e2 := run_len (S (S (S n2))) b p r c (- dr) (- dc)) in *.
  change (upto 0 4) with [0; 1; 2; 3].
  unfold window_cells. change (upto 0 4) with [0; 1; 2; 3].
  cbn [List.existsb List.forallb map].
  replace (r - 0 * dr + 0 * dr) with r by lia.
  replace (c - 0 * dc + 0 * dc) with c by lia.
  replace (r - 1 * dr + 1 * dr) with r by lia.
  replace (c - 1 * dc + 1 * dc) with c by lia.
  replace (r - 2 * dr + 2 * dr) with r by lia.
  replace (c - 2 * dc + 2 * dc) with c by lia.
  replace (r - 3 * dr + 3 * dr) with r by lia.
  replace (c - 3 * dc + 3 * dc) with c by lia.
  replace (r - 0 * dr + 1 * dr) with (r + 1 * dr) by lia.
  replace (c - 0 * dc + 1 * dc) with (c + 1 * dc) by lia.
  replace (r - 0 * dr + 2 * dr) with (r + 2 * dr) by lia.
  replace (c - 0 * dc + 2 * dc) with (c + 2 * dc) by lia.
  replace (r - 0 * dr + 3 * dr) with (r + 3 * dr) by lia.
  replace (c - 0 * dc + 3 * dc) with (c + 3 * dc) by lia.
  replace (r - 1 * dr + 2 * dr) with (r + 1 * dr) by lia.
  replace (c - 1 * dc + 2 * dc) with (c + 1 * dc) by lia.
  replace (r - 1 * dr + 3 * dr) with (r + 2 * dr) by lia.
  replace (c - 1 * dc + 3 * dc) with (c + 2 * dc) by lia.
  replace (r - 2 * dr + 3 * dr) with (r + 1 * dr) by lia.
  replace (c - 2 * dc + 3 * dc) with (c + 1 * dc) by lia.
  replace (r - 1 * dr + 0 * dr) with (r + 1 * - dr) by lia.
  replace (c - 1 * dc + 0 * dc) with (c + 1 * - dc) by lia.
  replace (r - 2 * dr + 0 * dr) with (r + 2 * - dr) by lia.
  replace (c - 2 * dc + 0 * dc) with (c + 2 * - dc) by lia.
  replace (r - 3 * dr + 0 * dr) with (r + 3 * - dr) by lia.
  replace (c - 3 * dc + 0 * dc) with (c + 3 * - dc) by lia.
  replace (r - 2 * dr + 1 * dr) with (r + 1 * - dr) by lia.
  replace (c - 2 * dc + 1 * dc) with (c + 1 * - dc) by lia.
  replace (r - 3 * dr + 1 * dr) with (r + 2 * - dr) by lia.
  replace (c - 3 * dc + 1 * dc) with (c + 2 * - dc) by lia.
  replace (r - 3 * dr + 2 * dr) with (r + 1 * - dr) by lia.
  replace (c - 3 * dc + 2 * dc) with (c + 1 * - dc) by lia.
  rewrite H0. unfold WIN_COUNT.
  destruct (holds b p (r + 1 * dr, c + 1 * dc));
  destruct (holds b p (r + 2 * dr, c + 2 * dc));
  destruct (holds b p (r + 3 * dr, c + 3 * dc));
  destruct (holds b p (r + 1 * - dr, c + 1 * - dc));
  destruct (holds b p (r + 2 * - dr, c + 2 * - dc));
  destruct (holds b p (r + 3 * - dr, c + 3 * - dc));
  cbn [andb orb]; lia.
Qed.

Ltac run_loop Hwf Hg :=
  rewrite count_run_loop;
  [ cbn [rbind]
  | exact Hwf
  | lia
  | let r := fresh "r" in let c := fresh "c" in let H := fresh "H" in
    intros r c H; apply in_grid_spec in H; unfold in_grid, ROWS, COLS in *; lia
  | exact Hg ].

Ltac axis_equation b p r c dr dc dr' dc' H0 E :=
  pose proof (run_ge4_iff_window 10 10 b p r c dr dc dr' dc'
                eq_refl eq_refl H0) as E;
  fold LOOP_FUEL in E.

Section CheckWinner.
Variables (b : Board) (m : GameMove) (p : Cell).
Hypothesis Hwf : wf_board b.
Hypothesis Hg : in_grid (row m) (column m) = true.
Hypothesis H0 : holds b p (row m, column m) = true.

Lemma check_vertical_spec : check_vertical b m p = Val (on_axis b m p (1, 0)).
Proof.
  unfold check_vertical, on_axis. cbn [fst snd].
  do 2 run_loop Hwf Hg.
  axis_equation b p (row m) (column m) 1 0 (-1) 0 H0 E.
  now rewrite <- E.
Qed.

Lemma check_horizontal_spec : check_horizontal b m p = Val (on_axis b m p (0, 1)).
Proof.
  unfold check_horizontal, on_axis. cbn [fst snd].
  do 2 run_loop Hwf Hg.
  axis_equation b p (row m) (column m) 0 1 0 (-1) H0 E.
  now rewrite <- E.
Qed.

Lemma check_diagonal_spec :
  check_diagonal b m p = Val (on_axis b m p (-1, 1) || on_axis b m p (1, 1)).
Proof.
  unfold check_diagonal, on_axis. cbn [fst snd].
  do 2 run_loop Hwf Hg.
  axis_equation b p (row m) (column m) (-1) 1 1 (-1) H0 E.
  rewrite <- E.
  destruct (_ >=? WIN_COUNT); [reflexivity|]. cbn [orb].
  do 2 run_loop Hwf Hg.
  axis_equation b p (row m) (column m) 1 1 (-1) (-1) H0 E'.
  rewrite <- E'.
  match goal with
  | |- Val (1 + ?x + ?y >=? _) = _ =>
      replace (1 + x + y) with (1 + y + x) by lia
  end.
  reflexivity.
Qed.

(** With the mover's piece on the last move's cell, [check_winner] returns,
    and returns whether the run through that cell reaches four on some
    axis. *)
Lemma check_winner_spec :
  check_winner b m p = Val (four_through b p (row m) (column m)).
Proof.
  unfold check_winner.
  rewrite check_vertical_spec, check_horizontal_spec, check_diagonal_spec.
  cbn [rbind]. unfold four_through, axes. cbn [List.existsb].
  fold (on_axis b m p (1, 0)) (on_axis b m p (0, 1)) (on_axis b m p (-1, 1)) (on_axis b m p (1, 1)).
  destruct (on_axis b m p (1, 0)); [reflexivity|]. cbn [rbind].
  destruct (on_axis b m p (0, 1)); [reflexivity|]. cbn [rbind].
  destruct (on_axis b m p (-1, 1)), (on_axis b m p (1, 1)); reflexivity.
Qed.
End CheckWinner.

Section CheckWinnerSafe.
Variables (b : Board) (m : GameMove) (p : Cell).
Hypothesis Hwf : wf_board b.
Hypothesis Hg : in_grid (row m) (column m) = true.

Lemma check_vertical_total : exists w, check_vertical b m p = Val w.
Proof. unfold check_vertical. do 2 run_loop Hwf Hg. eauto. Qed.

Lemma check_horizontal_total : exists w, check_horizontal b m p = Val w.
Proof. unfold check_horizontal. do 2 run_loop Hwf Hg. eauto. Qed.

Lemma check_diagonal_total : exists w, check_diagonal b m p = Val w.
Proof.
  unfold check_diagonal. do 2 run_loop Hwf Hg.
  destruct (_ >=? WIN_COUNT); [eauto|].
  do 2 run_loop Hwf Hg. eauto.
Qed.

Lemma check_winner_total : exists w, check_winner b m p = Val w.
Proof.
  unfold check_winner.
  destruct check_vertical_total as [v ->].
  destruct check_horizontal_total as [h ->].
  destruct check_diagonal_total as [d ->].
  cbn [rbind]. destruct v, h, d; cbn [rbind]; eauto.
Qed.
End CheckWinnerSafe.

(** ** Column scans *)

Lemma rd_column (b : Board) col :
  wf_board b -> 0 <= col < COLS ->
  exists v5 v4 v3 v2 v1 v0,
    rd b 5 col = Val v5 /\ rd b 4 col = Val v4 /\ rd b 3 col = Val v3 /\
    rd b 2 col = Val v2 /\ rd b 1 col = Val v1 /\ rd b 0 col = Val v0.
Proof.
  intros Hwf Hc.
  assert (G : forall r, 0 <= r < 6 -> exists v, rd b r col = Val v).
  { intros r Hr. apply rd_total; [assumption|]. apply in_grid_spec.
    unfold ROWS. lia. }
  destruct (G 5) as [v5 ?]; [lia|]. destruct (G 4) as [v4 ?]; [lia|].
  destruct (G 3) as [v3 ?]; [lia|]. destruct (G 2) as [v2 ?]; [lia|].
  destruct (G 1) as [v1 ?]; [lia|]. destruct (G 0) as [v0 ?]; [lia|].
  exists v5, v4, v3, v2, v1, v0. tauto.
Qed.

Ltac column_cases b col Hwf Hc :=
  destruct (rd_column b col Hwf Hc)
    as (v5 & v4 & v3 & v2 & v1 & v0 & R5 & R4 & R3 & R2 & R1 & R0).

Ltac row_cases r :=
  assert (r = 0 \/ r = 1 \/ r = 2 \/ r = 3 \/ r = 4 \/ r = 5) as Hrow_cases
    by (unfold ROWS in *; lia);
  destruct Hrow_cases as [->|[->|[->|[->|[->| ->]]]]].

Lemma scan_column_total (b : Board) col :
  wf_board b -> 0 <= col < COLS -> exists o, scan_column b col = Val o.
Proof.
  intros Hwf Hc. column_cases b col Hwf Hc.
  unfold scan_column. change rows_bottom_up with [5; 4; 3; 2; 1; 0].
  cbn [scan_rows]. rewrite R5, R4, R3, R2, R1, R0. cbn [rbind].
  repeat match goal with
         | |- context [Cell_eqb ?v cell_empty] => destruct (Cell_eqb v cell_empty)
         end; eauto.
Qed.

Lemma scan_column_some (b : Board) col r :
  wf_board b -> 0 <= col < COLS ->
  scan_column b col = Val (Some r) <-> lowest_empty b col r.
Proof.
  intros Hwf Hc. column_cases b col Hwf Hc.
  unfold scan_column, lowest_empty.
  change rows_bottom_up with [5; 4; 3; 2; 1; 0].
  cbn [scan_rows]. rewrite R5, R4, R3, R2, R1, R0. cbn [rbind].
  split.
  - intros H.
    destruct (Cell_eqb v5 _) eqn:E5; [|destruct (Cell_eqb v4 _) eqn:E4;
      [|destruct (Cell_eqb v3 _) eqn:E3; [|destruct (Cell_eqb v2 _) eqn:E2;
      [|destruct (Cell_eqb v1 _) eqn:E1; [|destruct (Cell_eqb v0 _) eqn:E0;
      [|discriminate]]]]]];
    injection H as <-;
    rewrite ?Cell_eqb_eq, ?Cell_eqb_neq in *; subst;
    (split; [assumption|]); intros r' Hr'; row_cases r'; try lia; congruence.
  - intros [He Hab].
    assert (Hr : 0 <= r < ROWS)
      by (apply rd_in_grid, in_grid_spec in He; tauto).
    assert (A : forall r' v, r < r' < ROWS -> rd b r' col = Val v ->
                             Cell_eqb v cell_empty = false).
    { intros r' v Hr' Hv. apply Cell_eqb_neq. intros ->.
      now apply (Hab r' Hr'). }
    row_cases r;
      repeat match goal with
      | R : rd b ?i col = Val ?v |- _ =>
          first [ rewrite (A i v) by (unfold ROWS; first [lia | exact R])
                | rewrite R in He; injection He as ->; cbn [Cell_eqb] ];
          clear R
      end; reflexivity.
Qed.

Lemma scan_column_none (b : Board) col :
  wf_board b -> 0 <= col < COLS ->
  scan_column b col = Val None <-> column_full b col.
Proof.
  intros Hwf Hc. column_cases b col Hwf Hc.
  unfold scan_column, column_full.
  change rows_bottom_up with [5; 4; 3; 2; 1; 0].
  cbn [scan_rows]. rewrite R5, R4, R3, R2, R1, R0. cbn [rbind].
  split.
  - intros H.
    destruct (Cell_eqb v5 _) eqn:E5; [discriminate|].
    destruct (Cell_eqb v4 _) eqn:E4; [discriminate|].
    destruct (Cell_eqb v3 _) eqn:E3; [discriminate|].
    destruct (Cell_eqb v2 _) eqn:E2; [discriminate|].
    destruct (Cell_eqb v1 _) eqn:E1; [discriminate|].
    destruct (Cell_eqb v0 _) eqn:E0; [discriminate|].
    rewrite ?Cell_eqb_neq in *.
    intros r Hr. row_cases r; congruence.
  - intros Hfull.
    assert (A : forall r v, 0 <= r < ROWS -> rd b r col = Val v ->
                            Cell_eqb v cell_empty = false).
    { intros r v Hr Hv. apply Cell_eqb_neq. intros ->.
      now apply (Hfull r Hr). }
    rewrite (A 5 v5), (A 4 v4), (A 3 v3), (A 2 v2), (A 1 v1), (A 0 v0)
      by (unfold ROWS; first [lia | assumption]).
    reflexivity.
Qed.

Lemma exists_lowest_empty (b : Board) col :
  wf_board b -> 0 <= col < COLS ->
  (exists r, rd b r col = Val cell_empty) ->
  exists r, scan_column b col = Val (Some r).
Proof.
  intros Hwf Hc [r Hr].
  destruct (scan_column_total b col Hwf Hc) as [[r'|] Ho]; [eauto|].
  apply scan_column_none in Ho; [|assumption..].
  exfalso. apply (Ho r); [|assumption].
  apply rd_in_grid, in_grid_spec in Hr. tauto.
Qed.

Lemma lowest_empty_in_grid (b : Board) col r :
  lowest_empty b col r -> in_grid r col = true.
Proof. intros [H _]. eapply rd_in_grid; eauto. Qed.

(** ** [make_move] and [undo_move] *)

Lemma make_move_rows_scan col p rows (b : Board) :
  make_move_rows col p rows b
  = match scan_rows b col rows with
    | Val (Some r) =>
        match wr b r col p with
        | Val b' => Val (r, b')
        | Fault => Fault
        | Timeout => Timeout
        end
    | Val None => Val (-1, b)
    | Fault => Fault
    | Timeout => Timeout
    end.
Proof.
  induction rows as [|r rows IH]; [reflexivity|].
  cbn [make_move_rows scan_rows]. unfold bind, load, peek.
  destruct (rd b r col) as [v| |]; cbn [rbind]; try reflexivity.
  destruct (Cell_eqb v cell_empty); [|apply IH].
  unfold store. destruct (wr b r col p); reflexivity.
Qed.

Lemma make_move_lowest (b : Board) col p r :
  wf_board b -> 0 <= col < COLS -> lowest_empty b col r ->
  exists b', make_move col p b = Val (r, b') /\ wr b r col p = Val b'.
Proof.
  intros Hwf Hc Hlow. unfold make_move. rewrite make_move_rows_scan.
  fold (scan_column b col).
  pose proof (lowest_empty_in_grid _ _ _ Hlow) as Hg.
  apply scan_column_some in Hlow; [|assumption..]. rewrite Hlow.
  destruct (wr_total b r col p Hwf Hg) as [b' Hb']. rewrite Hb'. eauto.
Qed.

Lemma make_move_full (b : Board) col p :
  wf_board b -> 0 <= col < COLS -> column_full b col ->
  make_move col p b = Val (-1, b).
Proof.
  intros Hwf Hc Hfull. unfold make_move. rewrite make_move_rows_scan.
  fold (scan_column b col).
  apply scan_column_none in Hfull; [|assumption..]. now rewrite Hfull.
Qed.

(** C4.  A drop into a column that has an empty cell puts the piece on the
    lowest empty row of the column, returns that row and changes no other
    cell; a drop into a full column returns -1 and leaves the board as it
    was. *)
Theorem make_move_gravity (b : Board) (col : Z) (player : Cell) :
  wf_board b -> 0 <= col < COLS ->
  ((exists r, rd b r col = Val cell_empty) ->
   exists r b',
     make_move col player b = Val (r, b') /\
     lowest_empty b col r /\
     rd b' r col = Val player /\
     forall r' c', (r', c') <> (r, col) -> rd b' r' c' = rd b r' c') /\
  (column_full b col -> make_move col player b = Val (-1, b)).
Proof.
  intros Hwf Hc. split.
  - intros Hex.
    destruct (exists_lowest_empty b col Hwf Hc Hex) as [r Hr].
    apply scan_column_some in Hr; [|assumption..].
    destruct (make_move_lowest b col player r Hwf Hc Hr) as (b' & Hm & Hw).
    exists r, b'. repeat split; try assumption; try apply Hr.
    + eapply rd_wr_same; eauto.
    + intros r' c' Hne. eapply rd_wr_other; eauto.
  - now apply make_move_full.
Qed.

Lemma make_move_gravity_witness :
  wf_board board_init /\ 0 <= 3 < COLS /\
  ((exists r, rd board_init r 3 = Val cell_empty) ->
   exists r b',
     make_move 3 cell_player1 board_init = Val (r, b') /\
     lowest_empty board_init 3 r /\
     rd b' r 3 = Val cell_player1 /\
     forall r' c', (r', c') <> (r, 3) -> rd b' r' c' = rd board_init r' c') /\
  (column_full board_init 3 ->
   make_move 3 cell_player1 board_init = Val (-1, board_init)).
Proof.
  split; [exact wf_board_init|]. split; [unfold COLS; lia|].
  apply (make_move_gravity board_init 3 cell_player1).
  - exact wf_board_init.
  - unfold COLS; lia.
Defined.

(** ** [find_winning_move] *)

Lemma holds_wr (b : Board) r c p b' :
  wr b r c p = Val b' -> holds b' p (r, c) = true.
Proof.
  intros Hw. unfold holds. cbn [fst snd].
  rewrite (rd_wr_same _ _ _ _ _ Hw). apply Cell_eqb_refl.
Qed.

Lemma find_winning_move_rows_scan p col rows (b : Board) :
  find_winning_move_rows p col rows b
  = match scan_rows b col rows with
    | Val (Some r) =>
        (do _ <- store r col p in
         do w <- peek (fun b => check_winner b (mkMove r col) p) in
         if w
         then do _ <- store r col cell_empty in ret (Some (mkMove r col))
         else do _ <- store r col cell_empty in ret None) b
    | Val None => Val (None, b)
    | Fault => Fault
    | Timeout => Timeout
    end.
Proof.
  induction rows as [|r rows IH]; [reflexivity|].
  cbn [find_winning_move_rows scan_rows]. unfold bind at 1, load, peek at 1.
  destruct (rd b r col) as [v| |]; cbn [rbind]; try reflexivity.
  destruct (Cell_eqb v cell_empty); [reflexivity|apply IH].
Qed.

Lemma find_winning_move_rows_spec p col (b : Board) :
  wf_board b -> 0 <= col < COLS ->
  find_winning_move_rows p col rows_bottom_up b = Val (wins_at b p col, b).
Proof.
  intros Hwf Hc. rewrite find_winning_move_rows_scan.
  fold (scan_column b col). unfold wins_at.
  destruct (scan_column_total b col Hwf Hc) as [[r|] Ho]; rewrite Ho;
    [|reflexivity].
  apply scan_column_some in Ho; [|assumption..].
  pose proof (lowest_empty_in_grid _ _ _ Ho) as Hg.
  destruct Ho as [He _].
  destruct (wr_total b r col p Hwf Hg) as [b' Hb'].
  pose proof (wr_wf _ _ _ _ _ Hwf Hb') as Hwf'.
  unfold bind, store, peek. rewrite Hb'.
  rewrite (check_winner_spec b' (mkMove r col) p Hwf' Hg (holds_wr _ _ _ _ _ Hb')).
  cbn [row column].
  destruct (four_through b' p r col); cbn beta iota;
    rewrite (wr_undo _ _ _ _ _ _ He Hb'); reflexivity.
Qed.

Lemma find_winning_move_cols_spec p cols (b : Board) :
  wf_board b -> Forall (fun col => 0 <= col < COLS) cols ->
  find_winning_move_cols p cols b = Val (first_win b p cols, b).
Proof.
  intros Hwf Hall. induction Hall as [|col cols Hc Hall IH]; [reflexivity|].
  cbn [find_winning_move_cols first_win]. unfold bind.
  rewrite find_winning_move_rows_spec by assumption.
  destruct (wins_at b p col); [reflexivity|apply IH].
Qed.

Lemma cols_in_range : Forall (fun col => 0 <= col < COLS) cols_left_right.
Proof. unfold cols_left_right, COLS. cbn. repeat constructor; lia. Qed.

(** [find_winning_move] returns the first winning drop and leaves the board
    as it found it. *)
Lemma find_winning_move_spec p (b : Board) :
  wf_board b ->
  find_winning_move p b = Val (first_win b p cols_left_right, b).
Proof.
  intros Hwf. apply find_winning_move_cols_spec; [assumption|].
  apply cols_in_range.
Qed.

Lemma wins_at_iff (b : Board) p col m :
  wf_board b -> 0 <= col < COLS ->
  wins_at b p col = Some m <-> column m = col /\ winning_drop b p col (row m).
Proof.
  intros Hwf Hc. unfold wins_at, winning_drop. split.
  - destruct (scan_column b col) as [[r|]| |] eqn:Hs; try discriminate.
    apply scan_column_some in Hs; [|assumption..].
    destruct (wr b r col p) as [b'| |] eqn:Hw; try discriminate.
    destruct (four_through b' p r col) eqn:Hf; [|discriminate].
    intros [= <-]. cbn [row column]. eauto.
  - intros (Hcol & Hlow & b' & Hw & Hf).
    apply scan_column_some in Hlow; [|assumption..].
    rewrite Hlow, Hw, Hf. destruct m; cbn [row column] in *. now subst.
Qed.

Lemma wins_at_column (b : Board) p col m :
  wins_at b p col = Some m -> column m = col /\ 0 <= row m < ROWS.
Proof.
  unfold wins_at.
  destruct (scan_column b col) as [[r|]| |] eqn:Hs; try discriminate.
  destruct (wr b r col p) as [b'| |] eqn:Hw; try discriminate.
  destruct (four_through b' p r col); [|discriminate].
  intros [= <-]. cbn [row column]. split; [reflexivity|].
  apply wr_in_grid, in_grid_spec in Hw. tauto.
Qed.

Lemma first_win_upto (b : Board) p n lo :
  let m := first_win b p (upto lo n) in
  (m = mkMove (-1) (-1) /\
   forall c, lo <= c < lo + Z.of_nat n -> wins_at b p c = None) \/
  (lo <= column m < lo + Z.of_nat n /\ wins_at b p (column m) = Some m /\
   forall c, lo <= c < column m -> wins_at b p c = None).
Proof.
  revert lo. induction n as [|n IH]; intros lo; cbn zeta.
  - left. split; [reflexivity|]. intros c Hc. lia.
  - cbn [upto first_win]. destruct (wins_at b p lo) as [m|] eqn:Hlo.
    + right. destruct (wins_at_column _ _ _ _ Hlo) as [Hcol _].
      rewrite Hcol. split; [lia|]. split; [assumption|]. intros c Hc. lia.
    + destruct (IH (lo + 1)) as [[Hm Hnone]|(Hr & Hw & Hnone)].
      * left. split; [assumption|]. intros c Hc.
        destruct (Z.eq_dec c lo) as [->|]; [assumption|]. apply Hnone. lia.
      * right. split; [lia|]. split; [assumption|]. intros c Hc.
        destruct (Z.eq_dec c lo) as [->|]; [assumption|]. apply Hnone. lia.
Qed.

(** When [p] has a winning drop, [find_winning_move] finds the one in the
    leftmost such column. *)
Lemma first_win_found (b : Board) p :
  wf_board b ->
  (exists col r, 0 <= col < COLS /\ winning_drop b p col r) ->
  exists col r,
    first_win b p cols_left_right = mkMove r col /\
    0 <= r < ROWS /\ 0 <= col < COLS /\
    winning_drop b p col r /\
    forall col' r', 0 <= col' < COLS -> winning_drop b p col' r' -> col <= col'.
Proof.
  intros Hwf (col0 & r0 & Hc0 & Hw0).
  pose proof (first_win_upto b p (Z.to_nat COLS) 0) as H. cbn zeta in H.
  fold cols_left_right in H. unfold COLS in *.
  assert (W0 : wins_at b p col0 = Some (mkMove r0 col0)).
  { apply wins_at_iff; [assumption|unfold COLS; lia|]. cbn. auto. }
  destruct H as [[_ Hnone]|(Hr & Hw & Hnone)].
  - rewrite Hnone in W0 by lia. discriminate.
  - set (m := first_win b p cols_left_right) in *.
    exists (column m), (row m).
    destruct (wins_at_column _ _ _ _ Hw) as [_ Hrow].
    apply wins_at_iff in Hw; [|assumption|unfold COLS; lia].
    destruct Hw as [_ Hw].
    split; [now destruct m|]. split; [assumption|]. split; [lia|].
    split; [assumption|].
    intros col' r' Hc' Hw'.
    destruct (Z.lt_ge_cases col' (column m)) as [Hlt|]; [|lia].
    assert (W' : wins_at b p col' = Some (mkMove r' col')).
    { apply wins_at_iff; [assumption|unfold COLS; lia|]. cbn. auto. }
    rewrite Hnone in W' by lia. discriminate.
Qed.

(** C6.  On a board where Player2 has a drop that completes four in a row,
    the Medium AI returns the winning drop of the leftmost such column,
    whatever the random draws are, without consuming a draw, and with the
    board restored. *)
Theorem ai_medium_move_takes_win (b : Board) :
  wf_board b ->
  (exists col r, 0 <= col < COLS /\ winning_drop b cell_player2 col r) ->
  exists col r,
    (forall fuel rnd k,
        ai_medium_move fuel rnd k b = Val ((mkMove r col, k), b)) /\
    winning_drop b cell_player2 col r /\
    forall col' r',
      0 <= col' < COLS -> winning_drop b cell_player2 col' r' -> col <= col'.
Proof.
  intros Hwf Hex.
  destruct (first_win_found b cell_player2 Hwf Hex)
    as (col & r & Hfw & Hr & Hc & Hw & Hmin).
  exists col, r. split; [|split; assumption].
  intros fuel rnd k. unfold ai_medium_move. unfold bind at 1.
  rewrite find_winning_move_spec by assumption. rewrite Hfw. cbn [row].
  destruct (Z.eqb_spec r (-1)); [lia|]. reflexivity.
Qed.

(** ** [count_threats] and [find_best_strategic_move] *)

Ltac peek_loop Hwf Hg :=
  unfold bind at 1, peek at 1; cbn beta;
  rewrite count_run_loop;
  [ cbn beta iota
  | exact Hwf
  | lia
  | let r := fresh "r" in let c := fresh "c" in let H := fresh "H" in
    intros r c H; apply in_grid_spec in H; unfold in_grid, ROWS, COLS in *; lia
  | exact Hg ].

(** On an empty cell of the grid [count_threats] returns a score that is not
    negative and puts the board back. *)
Lemma count_threats_spec (b : Board) r col p :
  wf_board b -> rd b r col = Val cell_empty ->
  exists t, count_threats r col p b = Val (t, b) /\ 0 <= t.
Proof.
  intros Hwf He. pose proof (rd_in_grid _ _ _ _ He) as Hg.
  destruct (wr_total b r col p Hwf Hg) as [b' Hb'].
  pose proof (wr_wf _ _ _ _ _ Hwf Hb') as Hwf'.
  unfold count_threats. unfold bind at 1, store at 1. rewrite Hb'.
  do 4 peek_loop Hwf' Hg.
  unfold bind, store, ret. rewrite (wr_undo _ _ _ _ _ _ He Hb').
  eexists. split; [reflexivity|].
  pose proof (run_len_nonneg LOOP_FUEL b' p r col 0 1).
  pose proof (run_len_nonneg LOOP_FUEL b' p r col 0 (-1)).
  pose proof (run_len_nonneg LOOP_FUEL b' p r col 1 0).
  pose proof (run_len_nonneg LOOP_FUEL b' p r col (-1) 0).
  repeat match goal with |- context [if ?c then _ else _] => destruct c end; lia.
Qed.

Lemma valid_drop_row (b : Board) m : valid_drop b m -> 0 <= row m < ROWS.
Proof.
  intros [_ Hl]. apply lowest_empty_in_grid, in_grid_spec in Hl. tauto.
Qed.

Lemma strategic_rows_scan p col rows best (b : Board) :
  strategic_rows p col rows best b
  = match scan_rows b col rows with
    | Val (Some r) =>
        (do score <- count_threats r col p in
         let score := score + center_bonus col in
         if score >? fst best then ret (score, mkMove r col) else ret best) b
    | Val None => Val (best, b)
    | Fault => Fault
    | Timeout => Timeout
    end.
Proof.
  induction rows as [|r rows IH]; [reflexivity|].
  cbn [strategic_rows scan_rows]. unfold bind at 1, load, peek at 1.
  destruct (rd b r col) as [v| |]; cbn [rbind]; try reflexivity.
  destruct (Cell_eqb v cell_empty); [reflexivity|apply IH].
Qed.

Lemma center_bonus_nonneg col : 0 <= center_bonus col.
Proof.
  unfold center_bonus.
  repeat match goal with |- context [if ?c then _ else _] => destruct c end; lia.
Qed.

Lemma strategic_rows_spec p col best (b : Board) :
  wf_board b -> 0 <= col < COLS -> strategic_inv b best ->
  exists best',
    strategic_rows p col rows_bottom_up best b = Val (best', b) /\
    strategic_inv b best' /\
    (0 <= fst best -> 0 <= fst best') /\
    ((exists r, rd b r col = Val cell_empty) -> 0 <= fst best').
Proof.
  intros Hwf Hc Hinv. rewrite strategic_rows_scan. fold (scan_column b col).
  destruct (scan_column_total b col Hwf Hc) as [[r|] Ho]; rewrite Ho.
  - apply scan_column_some in Ho; [|assumption..].
    destruct (count_threats_spec b r col p Hwf (proj1 Ho)) as (t & Ht & Hpos).
    unfold bind. rewrite Ht. cbn zeta.
    pose proof (center_bonus_nonneg col).
    destruct (Z.gtb_spec (t + center_bonus col) (fst best)).
    + eexists. split; [reflexivity|]. cbn [fst snd].
      split; [|split; intros; lia].
      right. cbn [fst snd]. split; [lia|]. split; assumption.
    + exists best. split; [reflexivity|].
      split; [|split; intros; lia].
      destruct Hinv as [[H1 _]|H2]; [lia|now right].
  - exists best. split; [reflexivity|]. split; [assumption|].
    split; [tauto|]. intros [r Hr].
    apply scan_column_none in Ho; [|assumption..].
    exfalso. apply (Ho r); [|assumption].
    apply rd_in_grid, in_grid_spec in Hr. tauto.
Qed.

Lemma strategic_cols_spec p cols best (b : Board) :
  wf_board b -> Forall (fun col => 0 <= col < COLS) cols ->
  strategic_inv b best ->
  exists best',
    strategic_cols p cols best b = Val (best', b) /\
    strategic_inv b best' /\
    (0 <= fst best -> 0 <= fst best') /\
    ((exists col r, In col cols /\ rd b r col = Val cell_empty) ->
     0 <= fst best').
Proof.
  intros Hwf Hall. revert best.
  induction Hall as [|col cols Hc Hall IH]; intros best Hinv.
  - exists best. split; [reflexivity|]. split; [assumption|].
    split; [tauto|]. intros (col & r & [] & _).
  - destruct (strategic_rows_spec p col best b Hwf Hc Hinv)
      as (best1 & E1 & I1 & M1 & N1).
    destruct (IH best1 I1) as (best2 & E2 & I2 & M2 & N2).
    exists best2. cbn [strategic_cols]. unfold bind. rewrite E1.
    split; [exact E2|]. split; [assumption|]. split; [tauto|].
    intros (c & r & [<-|Hin] & Hr).
    + apply M2, N1. eauto.
    + apply N2. eauto.
Qed.

(** [find_best_strategic_move] restores the board; its move is the sentinel
    or a valid drop, and a valid drop as soon as one column has room. *)
Lemma find_best_strategic_move_spec p (b : Board) :
  wf_board b ->
  exists m,
    find_best_strategic_move p b = Val (m, b) /\
    (row m = -1 \/ valid_drop b m) /\
    ((exists col r, 0 <= col < COLS /\ rd b r col = Val cell_empty) ->
     valid_drop b m).
Proof.
  intros Hwf.
  destruct (strategic_cols_spec p cols_left_right (-1, mkMove (-1) (-1)) b
              Hwf cols_in_range) as (best & E & I & _ & N).
  { left. split; reflexivity. }
  exists (snd best). unfold find_best_strategic_move, bind. rewrite E.
  split; [reflexivity|]. split.
  - destruct I as [[_ ->]|[_ H]]; [now left|now right].
  - intros (col & r & Hc & Hr).
    assert (Hpos : 0 <= fst best).
    { apply N. exists col, r. split; [|assumption].
      apply In_upto. unfold COLS in *. lia. }
    destruct I as [[H _]|[_ H]]; [lia|assumption].
Qed.

(** ** The shuffled preference list of the Medium AI *)

Lemma swap_elem (a : list Z) (i j : nat) ai aj :
  a !! i = Some ai -> a !! j = Some aj ->
  forall x, x ∈ <[j := ai]> (<[i := aj]> a) <-> x ∈ a.
Proof.
  intros Hi Hj x.
  pose proof (lookup_lt_Some _ _ _ Hi) as Li.
  pose proof (lookup_lt_Some _ _ _ Hj) as Lj.
  split; intros Hx; apply list_elem_of_lookup in Hx as [n Hn];
    apply list_elem_of_lookup.
  - destruct (decide (n = j)) as [->|Nj].
    + rewrite list_lookup_insert_eq in Hn by (rewrite length_insert; lia).
      exists i. congruence.
    + rewrite list_lookup_insert_ne in Hn by congruence.
      destruct (decide (n = i)) as [->|Ni].
      * rewrite list_lookup_insert_eq in Hn by lia. exists j. congruence.
      * rewrite list_lookup_insert_ne in Hn by congruence. eauto.
  - destruct (decide (n = i)) as [->|Ni].
    + exists j. rewrite list_lookup_insert_eq by (rewrite length_insert; lia).
      congruence.
    + destruct (decide (n = j)) as [->|Nj].
      * exists i. rewrite list_lookup_insert_ne by congruence.
        rewrite list_lookup_insert_eq by lia. congruence.
      * exists n. rewrite !list_lookup_insert_ne by congruence. assumption.
Qed.

Lemma arr_get_ok (a : list Z) i :
  length a = 7%nat -> 0 <= i < 7 ->
  exists v, arr_get a i = Val v /\ a !! Z.to_nat i = Some v.
Proof.
  intros Hlen Hi. unfold arr_get.
  destruct (Z.leb_spec 0 i); [|lia]. destruct (Z.ltb_spec i 7); [|lia].
  cbn [andb].
  destruct (a !! Z.to_nat i) as [v|] eqn:E; [eauto|].
  apply lookup_ge_None in E. lia.
Qed.

Lemma arr_set_ok (a : list Z) i v :
  length a = 7%nat -> 0 <= i < 7 ->
  arr_set a i v = Val (<[Z.to_nat i := v]> a).
Proof.
  intros Hlen Hi. unfold arr_set.
  destruct (Z.leb_spec 0 i); [|lia]. destruct (Z.ltb_spec i 7); [|lia].
  destruct (Nat.ltb_spec (Z.to_nat i) (length a)); [reflexivity|lia].
Qed.

Lemma shuffle_spec rnd :
  (forall n, 0 <= rnd n) ->
  forall idxs k (a : list Z),
    Forall (fun i => 0 <= i < 7) idxs -> length a = 7%nat ->
    exists a' k',
      shuffle rnd k idxs a = Val (a', k') /\
      length a' = 7%nat /\ forall x, x ∈ a' <-> x ∈ a.
Proof.
  intros Hrnd idxs. induction idxs as [|i idxs IH]; intros k a Hall Hlen.
  - exists a, k. auto.
  - inversion Hall as [|? ? Hi Hall']; subst.
    assert (Hj : 0 <= Z.rem (rnd k) 7 < 7)
      by (apply Z.rem_bound_pos; [apply Hrnd | lia]).
    cbn [shuffle].
    destruct (arr_get_ok a i Hlen Hi) as (ai & -> & Li).
    destruct (arr_get_ok a _ Hlen Hj) as (aj & -> & Lj).
    cbn [rbind]. rewrite arr_set_ok by assumption. cbn [rbind].
    rewrite arr_set_ok by (rewrite ?length_insert; assumption). cbn [rbind].
    destruct (IH (S k) (<[Z.to_nat (Z.rem (rnd k) 7) := ai]>
                          (<[Z.to_nat i := aj]> a)) Hall')
      as (a' & k' & E & L & Hmem).
    { now rewrite !length_insert. }
    exists a', k'. split; [assumption|]. split; [assumption|].
    intros x. rewrite Hmem. now apply swap_elem.
Qed.

Lemma first_open_spec (b : Board) (a : list Z) idxs :
  wf_board b -> length a = 7%nat ->
  (forall x, x ∈ a -> 0 <= x < COLS) ->
  Forall (fun i => 0 <= i < 7) idxs ->
  exists o,
    first_open b a idxs = Val o /\
    match o with
    | Some m => valid_drop b m
    | None => forall i col, In i idxs -> a !! Z.to_nat i = Some col ->
                            column_full b col
    end.
Proof.
  intros Hwf Hlen Hrange Hall.
  induction Hall as [|i idxs Hi Hall IH].
  - exists None. split; [reflexivity|]. intros i col [].
  - cbn [first_open].
    destruct (arr_get_ok a i Hlen Hi) as (col & -> & Lc). cbn [rbind].
    assert (Hc : 0 <= col < COLS)
      by (apply Hrange; eapply list_elem_of_lookup_2; eauto).
    destruct (scan_column_total b col Hwf Hc) as [[r|] Ho]; rewrite Ho;
      cbn [rbind].
    + exists (Some (mkMove r col)). split; [reflexivity|].
      apply scan_column_some in Ho; [|assumption..]. split; assumption.
    + destruct IH as (o & E & Ho'). exists o. split; [assumption|].
      destruct o; [assumption|].
      intros i' col' [<-|Hin] Hl.
      * rewrite Lc in Hl. injection Hl as <-.
        now apply scan_column_none in Ho.
      * eauto.
Qed.

(** ** The Medium AI returns a storable move *)

Lemma first_win_cases (b : Board) p :
  wf_board b ->
  first_win b p cols_left_right = mkMove (-1) (-1) \/
  valid_drop b (first_win b p cols_left_right).
Proof.
  intros Hwf.
  pose proof (first_win_upto b p (Z.to_nat COLS) 0) as H. cbn zeta in H.
  fold cols_left_right in H.
  destruct H as [[H _]|(Hr & Hw & _)]; [now left|right].
  change (0 + Z.of_nat (Z.to_nat COLS)) with COLS in Hr.
  apply wins_at_iff in Hw; [|assumption..].
  destruct Hw as [_ [Hl _]]. split; assumption.
Qed.

Lemma ai_medium_move_drop (b : Board) (fuel : nat) (rnd : nat -> Z) (k : nat) :
  wf_board b ->
  (forall n, 0 <= rnd n) ->
  (exists col r, 0 <= col < COLS /\ rd b r col = Val cell_empty) ->
  exists m k',
    ai_medium_move fuel rnd k b = Val ((m, k'), b) /\ valid_drop b m.
Proof.
  intros Hwf Hrnd Hroom.
  remember (ai_medium_move fuel rnd k b) as result eqn:E.
  unfold ai_medium_move in E. unfold bind at 1 in E.
  rewrite find_winning_move_spec in E by assumption.
  destruct (first_win_cases b cell_player2 Hwf) as [E2|V2].
  2:{ pose proof (valid_drop_row _ _ V2) as Hr2.
      destruct (Z.eqb_spec (row (first_win b cell_player2 cols_left_right)) (-1));
        [lia|]. cbn [negb] in E. subst result. eauto. }
  rewrite E2 in E. cbn [row negb Z.eqb Pos.eqb] in E.
  unfold bind at 1 in E.
  rewrite find_winning_move_spec in E by assumption.
  destruct (first_win_cases b cell_player1 Hwf) as [E1|V1].
  2:{ pose proof (valid_drop_row _ _ V1) as Hr1.
      destruct (Z.eqb_spec (row (first_win b cell_player1 cols_left_right)) (-1));
        [lia|]. cbn [negb] in E. subst result. eauto. }
  rewrite E1 in E. cbn [row negb Z.eqb Pos.eqb] in E.
  destruct (find_best_strategic_move_spec cell_player2 b Hwf)
    as (sm & Es & _ & Vs).
  specialize (Vs Hroom). pose proof (valid_drop_row _ _ Vs) as Hrs.
  unfold bind at 1 in E. rewrite Es in E.
  destruct (Z.eqb_spec (row sm) (-1)); [lia|]. cbn [negb andb] in E.
  destruct (Z.rem (rnd k) 100 <? 70).
  { subst result. eauto. }
  destruct (shuffle_spec rnd Hrnd (upto 0 7) (S k) [3; 2; 4; 1; 5; 0; 6])
    as (a' & k' & Esh & Lsh & Msh); [apply (upto_range 0 7)|reflexivity|].
  unfold bind at 1, peek at 1 in E. rewrite Esh in E. cbn beta iota in E.
  destruct (first_open_spec b a' (upto 0 7) Hwf Lsh) as (o & Eo & Ho).
  { intros x Hx. apply Msh in Hx. unfold COLS.
    repeat (apply elem_of_cons in Hx as [->|Hx]; [lia|]).
    now apply elem_of_nil in Hx. }
  { apply (upto_range 0 7). }
  unfold bind at 1, peek at 1 in E. rewrite Eo in E.
  destruct o as [m|].
  { subst result. eauto. }
  exfalso. destruct Hroom as (col & r & Hc & Hr).
  assert (Hin : col ∈ a').
  { apply Msh. unfold COLS in Hc.
    assert (col = 0 \/ col = 1 \/ col = 2 \/ col = 3 \/ col = 4 \/
            col = 5 \/ col = 6) as Hcases by lia.
    destruct Hcases as [->|[->|[->|[->|[->|[->| ->]]]]]];
      repeat first [apply list_elem_of_here | apply list_elem_of_further]. }
  apply list_elem_of_lookup in Hin as [idx Hidx].
  pose proof (lookup_lt_Some _ _ _ Hidx) as Ln.
  apply (Ho (Z.of_nat idx) col) with (r := r).
  - apply In_upto. lia.
  - now rewrite Nat2Z.id.
  - apply rd_in_grid, in_grid_spec in Hr. tauto.
  - assumption.
Qed.

(** C10.  On a board with room in some column the Medium AI returns, with
    the board restored, a move inside the grid whose cell is empty and is
    the lowest empty cell of its column: never the sentinel, so the store
    the game loop makes with it stays inside the array. *)
Theorem ai_medium_move_valid (b : Board) (fuel : nat) (rnd : nat -> Z)
        (k : nat) :
  wf_board b ->
  (forall n, 0 <= rnd n) ->
  (exists col r, 0 <= col < COLS /\ rd b r col = Val cell_empty) ->
  exists m k',
    ai_medium_move fuel rnd k b = Val ((m, k'), b) /\
    0 <= row m < ROWS /\ 0 <= column m < COLS /\
    rd b (row m) (column m) = Val cell_empty /\
    lowest_empty b (column m) (row m) /\
    exists b', wr b (row m) (column m) cell_player2 = Val b'.
Proof.
  intros Hwf Hrnd Hroom.
  destruct (ai_medium_move_drop b fuel rnd k Hwf Hrnd Hroom)
    as (m & k' & E & Hv).
  exists m, k'. split; [assumption|].
  pose proof (valid_drop_row _ _ Hv) as Hr. destruct Hv as [Hc Hl].
  split; [assumption|]. split; [assumption|]. split; [apply Hl|].
  split; [assumption|].
  apply wr_total; [assumption|]. now apply lowest_empty_in_grid in Hl.
Qed.

(** ** Counting the cells of a colour *)

Lemma NoDup_grid_cells : NoDup grid_cells.
Proof. apply (bool_decide_unpack _). vm_compute. exact I. Qed.

Lemma In_grid_cells r c : In (r, c) grid_cells <-> in_grid r c = true.
Proof.
  unfold grid_cells, nest. rewrite in_flat_map. split.
  - intros (o & Ho & Hi). apply in_map_iff in Hi as (i & [= <- <-] & Hi).
    apply In_upto in Ho, Hi. apply in_grid_spec. unfold ROWS, COLS in *. lia.
  - intros Hg. apply in_grid_spec in Hg. exists r. split.
    + apply In_upto. unfold ROWS in *. lia.
    + apply in_map_iff. exists c. split; [reflexivity|].
      apply In_upto. unfold COLS in *. lia.
Qed.

Lemma filter_length_change {A : Type} (f g : A -> bool) (l : list A) (x : A) :
  NoDup l -> In x l -> (forall y, y <> x -> g y = f y) ->
  (length (List.filter g l) + (if f x then 1 else 0)
   = length (List.filter f l) + (if g x then 1 else 0))%nat.
Proof.
  intros Hnd Hin Hext. induction Hnd as [|a l Hnotin Hnd IH]; [destruct Hin|].
  cbn [List.filter].
  destruct Hin as [->|Hin].
  - assert (E : List.filter g l = List.filter f l).
    { apply List.filter_ext_in. intros y Hy. apply Hext. intros ->.
      apply Hnotin. now apply list_elem_of_In. }
    rewrite E. destruct (f x), (g x); cbn [length]; lia.
  - assert (a <> x).
    { intros ->. apply Hnotin. now apply list_elem_of_In. }
    rewrite (Hext a) by assumption. specialize (IH Hin).
    destruct (f a); cbn [length]; lia.
Qed.

Lemma holds_wr_other (b : Board) r c v b' q rc :
  wr b r c v = Val b' -> rc <> (r, c) -> holds b' q rc = holds b q rc.
Proof.
  intros Hw Hne. unfold holds. destruct rc as [r' c']. cbn [fst snd].
  now rewrite (rd_wr_other _ _ _ _ _ _ _ Hw Hne).
Qed.

(** A store changes the count of a colour by what it removes and adds. *)
Lemma count_cells_wr (b : Board) r c v0 v b' q :
  rd b r c = Val v0 -> wr b r c v = Val b' ->
  (count_cells b' q + (if Cell_eqb v0 q then 1 else 0)
   = count_cells b q + (if Cell_eqb v q then 1 else 0))%nat.
Proof.
  intros Hr Hw. unfold count_cells.
  pose proof (filter_length_change (holds b q) (holds b' q) grid_cells (r, c)
                NoDup_grid_cells) as H.
  assert (E0 : holds b q (r, c) = Cell_eqb v0 q)
    by (unfold holds; cbn [fst snd]; now rewrite Hr).
  assert (E1 : holds b' q (r, c) = Cell_eqb v q).
  { unfold holds. cbn [fst snd]. now rewrite (rd_wr_same _ _ _ _ _ Hw). }
  rewrite E0, E1 in H. apply H.
  - apply In_grid_cells. eapply rd_in_grid; eauto.
  - intros y Hy. eapply holds_wr_other; eauto.
Qed.

(** ** Position evaluation *)

Lemma holds_rd (b : Board) q r c v :
  rd b r c = Val v -> holds b q (r, c) = Cell_eqb v q.
Proof. intros H. unfold holds. cbn [fst snd]. now rewrite H. Qed.

Lemma count_in_cons (b : Board) q rc w :
  count_in b q (rc :: w)
  = ((if holds b q rc then 1 else 0) + count_in b q w)%nat.
Proof.
  unfold count_in. cbn [List.filter]. destruct (holds b q rc); reflexivity.
Qed.

Lemma opponent_of_cases player :
  player <> cell_empty ->
  (player = cell_player1 /\ opponent_of player = cell_player2) \/
  (player = cell_player2 /\ opponent_of player = cell_player1).
Proof. destruct player; intros H; [congruence|left|right]; auto. Qed.

Lemma count_window_spec (b : Board) player cell_at idxs pc oc ec :
  wf_board b -> player <> cell_empty ->
  cells_in_grid (map cell_at idxs) = true ->
  count_window b player (opponent_of player) cell_at idxs (pc, oc, ec)
  = Val (pc + Z.of_nat (count_in b player (map cell_at idxs)),
         oc + Z.of_nat (count_in b (opponent_of player) (map cell_at idxs)),
         ec + Z.of_nat (count_in b cell_empty (map cell_at idxs))).
Proof.
  intros Hwf Hp. revert pc oc ec.
  induction idxs as [|i idxs IH]; intros pc oc ec Hg.
  - cbn. f_equal. apply pair_equal_spec; split;
      [apply pair_equal_spec; split|]; lia.
  - cbn [map cells_in_grid List.forallb] in Hg. apply andb_prop in Hg as [Hi Hg].
    cbn [count_window map].
    destruct (rd_total b _ _ Hwf Hi) as [v Hv]. rewrite Hv. cbn [rbind].
    rewrite !count_in_cons.
    destruct (cell_at i) as [r c] eqn:Ecell. cbn [fst snd] in Hv.
    rewrite !(holds_rd _ _ _ _ _ Hv).
    destruct (opponent_of_cases player Hp) as [[-> ->]|[-> ->]];
      destruct v; cbn [Cell_eqb]; rewrite IH by exact Hg;
      unfold opponent_of; cbn [Cell_eqb];
      (f_equal; apply pair_equal_spec; split;
        [apply pair_equal_spec; split|]; lia).
Qed.

Lemma count_in_total (b : Board) w :
  wf_board b -> cells_in_grid w = true ->
  (count_in b cell_player1 w + count_in b cell_player2 w
   + count_in b cell_empty w = length w)%nat.
Proof.
  intros Hwf. induction w as [|[r c] w IH]; intros Hg; [reflexivity|].
  cbn [cells_in_grid List.forallb] in Hg. apply andb_prop in Hg as [Hi Hg].
  cbn [fst snd] in Hi. destruct (rd_total b _ _ Hwf Hi) as [v Hv].
  rewrite !count_in_cons, !(holds_rd _ _ _ _ _ Hv). specialize (IH Hg).
  destruct v; cbn [Cell_eqb length]; lia.
Qed.

Lemma score_window_spec (np no ne : nat) score :
  (np + no + ne = 4)%nat ->
  score_window (Z.of_nat np, Z.of_nat no, Z.of_nat ne) score
  = score + window_value np no ne.
Proof.
  intros H.
  destruct np as [|[|[|[|[|np]]]]]; try lia;
    destruct no as [|[|[|[|[|no]]]]]; try lia;
    destruct ne as [|[|[|[|[|ne]]]]]; try lia;
    cbv -[Z.add Z.sub]; lia.
Qed.

Lemma window_score_bound (b : Board) player w :
  - 100 <= window_score b player w <= 100.
Proof.
  unfold window_score, window_value.
  repeat match goal with
         | |- context [match ?n with O => _ | S _ => _ end] => destruct n
         end; lia.
Qed.

Lemma sumZ_app l1 l2 : sumZ (l1 ++ l2) = sumZ l1 + sumZ l2.
Proof. induction l1 as [|x l1 IH]; cbn; [reflexivity|]. unfold sumZ in *. cbn. lia. Qed.

Lemma sumZ_map_perm {A : Type} (f : A -> Z) (l1 l2 : list A) :
  Permutation l1 l2 -> sumZ (map f l1) = sumZ (map f l2).
Proof.
  induction 1; unfold sumZ in *; cbn in *; lia.
Qed.

Lemma eval_windows_spec (b : Board) player window starts score :
  wf_board b -> player <> cell_empty ->
  List.forallb cells_in_grid (windows_of window starts) = true ->
  eval_windows b player (opponent_of player) window starts score
  = Val (score + sumZ (map (window_score b player) (windows_of window starts))).
Proof.
  intros Hwf Hp. revert score.
  induction starts as [|[o i] starts IH]; intros score Hg.
  - cbn. f_equal. lia.
  - cbn [windows_of map List.forallb fst snd] in Hg.
    apply andb_prop in Hg as [Hw Hg].
    cbn [eval_windows windows_of map fst snd].
    rewrite (count_window_spec b player (window o i) (upto 0 4) 0 0 0 Hwf Hp Hw).
    cbn [rbind]. fold (windows_of window starts). rewrite IH by exact Hg.
    f_equal. rewrite !Z.add_0_l.
    rewrite score_window_spec.
    + unfold sumZ. cbn [fold_right]. unfold window_score. lia.
    + pose proof (count_in_total b _ Hwf Hw) as T.
      rewrite length_map in T. change (length (upto 0 4)) with 4%nat in T.
      destruct (opponent_of_cases player Hp) as [[-> ->]|[-> ->]]; lia.
Qed.

Lemma eval_center_spec (b : Board) player rows score :
  wf_board b ->
  cells_in_grid (map (fun r => (r, 3)) rows) = true ->
  eval_center b player rows score
  = Val (score + 3 * Z.of_nat (count_in b player (map (fun r => (r, 3)) rows))).
Proof.
  intros Hwf. revert score.
  induction rows as [|r rows IH]; intros score Hg.
  - cbn. f_equal. lia.
  - cbn [map cells_in_grid List.forallb fst snd] in Hg.
    apply andb_prop in Hg as [Hi Hg].
    cbn [eval_center map]. destruct (rd_total b _ _ Hwf Hi) as [v Hv].
    rewrite Hv. cbn [rbind]. rewrite IH by exact Hg.
    rewrite count_in_cons, (holds_rd _ _ _ _ _ Hv).
    destruct (Cell_eqb v player); f_equal; lia.
Qed.

(** The loop nests visit exactly the windows that fit on the board. *)
Lemma code_windows_perm : Permutation code_windows all_windows.
Proof. apply (bool_decide_unpack _). vm_compute. exact I. Qed.

Lemma code_windows_in_grid : List.forallb cells_in_grid code_windows = true.
Proof. vm_compute. reflexivity. Qed.

Lemma forallb_app_inv {A : Type} (f : A -> bool) l1 l2 :
  List.forallb f (l1 ++ l2) = true ->
  List.forallb f l1 = true /\ List.forallb f l2 = true.
Proof. rewrite List.forallb_app. apply andb_prop. Qed.

(** What the loops of [evaluate_position] add up, in the order they run. *)
Lemma evaluate_position_windows (b : Board) player :
  wf_board b -> player <> cell_empty ->
  evaluate_position b player
  = Val (sumZ (map (window_score b player) code_windows)
         + 3 * Z.of_nat (count_in b player
                           (map (fun r => (r, 3)) (upto 0 (Z.to_nat ROWS))))).
Proof.
  intros Hwf Hp. unfold evaluate_position.
  pose proof code_windows_in_grid as G. unfold code_windows in G.
  apply forallb_app_inv in G as [G1 G].
  apply forallb_app_inv in G as [G2 G].
  apply forallb_app_inv in G as [G3 G4].
  rewrite (eval_windows_spec b player _ _ _ Hwf Hp G1). cbn [rbind].
  rewrite (eval_windows_spec b player _ _ _ Hwf Hp G2). cbn [rbind].
  rewrite (eval_windows_spec b player _ _ _ Hwf Hp G3). cbn [rbind].
  rewrite (eval_windows_spec b player _ _ _ Hwf Hp G4). cbn [rbind].
  rewrite eval_center_spec by (assumption || reflexivity).
  unfold code_windows. rewrite !map_app, !sumZ_app.
  apply f_equal. lia.
Qed.

(** C3.  For a player's colour, [evaluate_position] is the table of window
    contributions summed over all the windows that fit on the board, plus 3
    for each of the player's pieces in column 3. *)
Theorem evaluate_position_table_sum (b : Board) (player : Cell) :
  wf_board b -> player <> cell_empty ->
  evaluate_position b player = Val (spec_score b player).
Proof.
  intros Hwf Hp. rewrite evaluate_position_windows by assumption.
  unfold spec_score.
  (* the loop nests run through a rearrangement of the windows of the board *)
  now rewrite (sumZ_map_perm (window_score b player) _ _ code_windows_perm).
Qed.

Lemma sumZ_map_bound {A : Type} (f : A -> Z) (l : list A) (k : Z) :
  (forall x, - k <= f x <= k) ->
  - k * Z.of_nat (length l) <= sumZ (map f l) <= k * Z.of_nat (length l).
Proof.
  intros Hf. induction l as [|x l IH]; unfold sumZ in *; cbn [map fold_right length].
  - lia.
  - specialize (Hf x). lia.
Qed.

Lemma count_in_le (b : Board) q w : (count_in b q w <= length w)%nat.
Proof. unfold count_in. apply List.filter_length_le. Qed.

Lemma evaluate_position_bounded (b : Board) player :
  wf_board b -> player <> cell_empty ->
  exists e, evaluate_position b player = Val e /\ bounded e.
Proof.
  intros Hwf Hp. eexists. split; [now apply evaluate_position_windows|].
  unfold bounded, SCORE_BOUND.
  pose proof (sumZ_map_bound (window_score b player) code_windows 100
                (window_score_bound b player)) as H.
  replace (length code_windows) with 69%nat in H by (vm_compute; reflexivity).
  pose proof (count_in_le b player
                (map (fun r => (r, 3)) (upto 0 (Z.to_nat ROWS)))) as C.
  rewrite length_map in C.
  change (length (upto 0 (Z.to_nat ROWS))) with 6%nat in C.
  lia.
Qed.

(** ** The Hard AI: helpers *)

Lemma get_valid_moves_from_spec (b : Board) cols :
  wf_board b -> Forall (fun c => 0 <= c < COLS) cols ->
  exists valid,
    get_valid_moves_from b cols = Val valid /\
    Forall (fun c => 0 <= c < COLS /\ rd b 0 c = Val cell_empty) valid /\
    forall c, In c cols -> rd b 0 c = Val cell_empty -> In c valid.
Proof.
  intros Hwf Hall. induction Hall as [|c cols Hc Hall IH].
  - exists []. split; [reflexivity|]. split; [constructor|]. intros c [].
  - destruct IH as (valid & E & Hv & Hin). cbn [get_valid_moves_from].
    destruct (rd_total b 0 c Hwf) as [v Hr].
    { apply in_grid_spec. unfold ROWS. lia. }
    rewrite Hr, E. cbn [rbind].
    destruct (Cell_eqb v cell_empty) eqn:Ev.
    + apply Cell_eqb_eq in Ev. subst v.
      exists (c :: valid). split; [reflexivity|]. split.
      * constructor; [split; assumption|assumption].
      * intros c' [<-|Hc'] Hr'; [now left|right; auto].
    + exists valid. split; [reflexivity|]. split; [assumption|].
      intros c' [<-|Hc'] Hr'; [|auto].
      rewrite Hr in Hr'. injection Hr' as ->. discriminate.
Qed.

Lemma get_valid_moves_spec (b : Board) :
  wf_board b ->
  exists valid,
    get_valid_moves b = Val valid /\
    Forall (fun c => 0 <= c < COLS /\ rd b 0 c = Val cell_empty) valid /\
    forall c, 0 <= c < COLS -> rd b 0 c = Val cell_empty -> In c valid.
Proof.
  intros Hwf.
  destruct (get_valid_moves_from_spec b cols_left_right Hwf cols_in_range)
    as (valid & E & Hv & Hin).
  exists valid. split; [exact E|]. split; [assumption|].
  intros c Hc. apply Hin. apply In_upto. unfold COLS in *. lia.
Qed.

Lemma any_winner_total (b : Board) cells :
  wf_board b -> cells_in_grid cells = true ->
  exists o, any_winner b cells = Val o.
Proof.
  intros Hwf. induction cells as [|[r c] cells IH]; intros Hg.
  - eexists; reflexivity.
  - cbn [cells_in_grid List.forallb fst snd] in Hg.
    apply andb_prop in Hg as [Hi Hg]. cbn [any_winner].
    destruct (rd_total b r c Hwf Hi) as [v ->]. cbn [rbind].
    destruct (negb (Cell_eqb v cell_empty)); [|auto].
    destruct (check_winner_total b (mkMove r c) v Hwf Hi) as [w ->].
    cbn [rbind]. destruct w; [eexists; reflexivity|auto].
Qed.

Lemma top_row_full_total (b : Board) cols :
  wf_board b -> Forall (fun c => 0 <= c < COLS) cols ->
  exists o, top_row_full b cols = Val o.
Proof.
  intros Hwf Hall. induction Hall as [|c cols Hc Hall IH].
  - eexists; reflexivity.
  - cbn [top_row_full]. destruct (rd_total b 0 c Hwf) as [v ->].
    { apply in_grid_spec. unfold ROWS. lia. }
    cbn [rbind]. destruct (Cell_eqb v cell_empty); [eexists; reflexivity|auto].
Qed.

Lemma is_game_over_total (b : Board) :
  wf_board b -> exists o, is_game_over b = Val o.
Proof.
  intros Hwf. unfold is_game_over.
  destruct (any_winner_total b grid_cells Hwf) as [w Hw].
  { vm_compute. reflexivity. }
  fold grid_cells. rewrite Hw. cbn [rbind].
  destruct w; [eexists; reflexivity|].
  apply top_row_full_total; [assumption|apply cols_in_range].
Qed.

(** A simulated move in a column whose top cell is empty: the piece lands,
    one empty cell less is left, and [undo_move] puts the board back. *)
Lemma make_move_valid (b : Board) col q :
  wf_board b -> 0 <= col < COLS -> rd b 0 col = Val cell_empty ->
  q <> cell_empty ->
  exists r b',
    make_move col q b = Val (r, b') /\ wf_board b' /\
    (count_cells b' cell_empty + 1 = count_cells b cell_empty)%nat /\
    undo_move r col b' = Val (tt, b).
Proof.
  intros Hwf Hc Htop Hq.
  destruct (exists_lowest_empty b col Hwf Hc) as [r Hr]; [eauto|].
  apply scan_column_some in Hr; [|assumption..].
  destruct (make_move_lowest b col q r Hwf Hc Hr) as (b' & Hm & Hw).
  exists r, b'. split; [assumption|]. split; [eapply wr_wf; eauto|].
  destruct Hr as [He _]. split.
  - pose proof (count_cells_wr b r col cell_empty q b' cell_empty He Hw) as C.
    cbn [Cell_eqb] in C. apply Cell_eqb_neq in Hq. rewrite Hq in C. lia.
  - unfold undo_move, store. now rewrite (wr_undo _ _ _ _ _ _ He Hw).
Qed.

Lemma opponent_of_not_empty player : opponent_of player <> cell_empty.
Proof. destruct player; discriminate. Qed.

(** ** Exhaustive minimax *)

Lemma gtb_max a b : (if a >? b then a else b) = Z.max a b.
Proof. destruct (Z.gtb_spec a b); lia. Qed.

Lemma gtb_max' a b : (if a >? b then a else b) = Z.max b a.
Proof. destruct (Z.gtb_spec a b); lia. Qed.

Lemma ltb_min a b : (if a <? b then a else b) = Z.min a b.
Proof. destruct (Z.ltb_spec a b); lia. Qed.

Lemma ltb_min' a b : (if a <? b then a else b) = Z.min b a.
Proof. destruct (Z.ltb_spec a b); lia. Qed.

Section ExhaustiveLoops.
Variables (search : M Z) (q : Cell) (f : nat) (b : Board).
Hypothesis Hwf : wf_board b.
Hypothesis Hq : q <> cell_empty.
Hypothesis Hcount : (count_cells b cell_empty <= f)%nat.
Hypothesis Hsearch :
  forall b', wf_board b' -> (count_cells b' cell_empty < f)%nat ->
             exists e, search b' = Val (e, b') /\ bounded e.

(** One iteration: move, search, undo. *)
Lemma search_step col :
  valid_col b col ->
  exists r b' e,
    make_move col q b = Val (r, b') /\ search b' = Val (e, b') /\
    undo_move r col b' = Val (tt, b) /\ bounded e.
Proof.
  intros [Hc Htop].
  destruct (make_move_valid b col q Hwf Hc Htop Hq)
    as (r & b' & Hm & Hwf' & Hcnt & Hu).
  destruct (Hsearch b' Hwf') as (e & He & Hb); [lia|].
  exists r, b', e. auto.
Qed.

Lemma max_all_spec cols m :
  Forall (valid_col b) cols ->
  exists v,
    max_all search q cols m b = Val (v, b) /\ m <= v /\
    (bounded m \/ (m = INT_MIN /\ cols <> []) -> bounded v).
Proof.
  intros Hall. revert m. induction Hall as [|col cols Hc Hall IH]; intros m.
  - exists m. split; [reflexivity|]. split; [lia|]. intros [H|[_ H]]; tauto.
  - destruct (search_step col Hc) as (r & b' & e & Hm & Hs & Hu & Hb).
    destruct (IH (Z.max m e)) as (v & Hv & Hle & Hbd).
    exists v. cbn [max_all]. unfold bind. rewrite Hm, Hs, Hu.
    rewrite gtb_max'. split; [exact Hv|]. split; [lia|].
    intros Hm'. apply Hbd. left. unfold bounded, SCORE_BOUND, INT_MIN in *. lia.
Qed.

Lemma min_all_spec cols m :
  Forall (valid_col b) cols ->
  exists v,
    min_all search q cols m b = Val (v, b) /\ v <= m /\
    (bounded m \/ (m = INT_MAX /\ cols <> []) -> bounded v).
Proof.
  intros Hall. revert m. induction Hall as [|col cols Hc Hall IH]; intros m.
  - exists m. split; [reflexivity|]. split; [lia|]. intros [H|[_ H]]; tauto.
  - destruct (search_step col Hc) as (r & b' & e & Hm & Hs & Hu & Hb).
    destruct (IH (Z.min m e)) as (v & Hv & Hle & Hbd).
    exists v. cbn [min_all]. unfold bind. rewrite Hm, Hs, Hu.
    rewrite ltb_min'. split; [exact Hv|]. split; [lia|].
    intros Hm'. apply Hbd. left. unfold bounded, SCORE_BOUND, INT_MAX in *. lia.
Qed.
End ExhaustiveLoops.

Lemma bounded_0 : bounded 0.
Proof. unfold bounded, SCORE_BOUND. lia. Qed.

(** The exhaustive search returns, with the board restored and a score
    inside the bound, as soon as the fuel exceeds the number of empty
    cells. *)
Lemma minimax_exhaustive_spec fuel :
  forall depth maximizing player (b : Board),
    wf_board b -> player <> cell_empty ->
    (count_cells b cell_empty < fuel)%nat ->
    exists e,
      minimax_exhaustive fuel depth maximizing player b = Val (e, b) /\
      bounded e.
Proof.
  induction fuel as [|fuel IH]; intros depth maximizing player b Hwf Hp Hc;
    [lia|].
  cbn [minimax_exhaustive].
  destruct (evaluate_position_bounded b player Hwf Hp) as (e0 & He0 & Hb0).
  assert (Leaf : exists e,
             peek (fun b => evaluate_position b player) b = Val (e, b) /\
             bounded e).
  { exists e0. unfold peek. rewrite He0. auto. }
  unfold bind at 1.
  assert (Inner : exists e,
    (do valid_cols <- peek get_valid_moves in
     if Z.of_nat (length valid_cols) =? 0 then ret 0 else
     if maximizing then
       max_all (minimax_exhaustive fuel (depth - 1) false player)
               player valid_cols INT_MIN
     else
       min_all (minimax_exhaustive fuel (depth - 1) true player)
               (opponent_of player) valid_cols INT_MAX) b = Val (e, b) /\
    bounded e).
  { destruct (get_valid_moves_spec b Hwf) as (valid & Hv & Hall & _).
    unfold bind, peek. rewrite Hv.
    destruct (Z.eqb_spec (Z.of_nat (length valid)) 0) as [|Hne].
    { exists 0. split; [reflexivity|apply bounded_0]. }
    assert (valid <> []) by (intros ->; apply Hne; reflexivity).
    destruct maximizing.
    - destruct (max_all_spec (minimax_exhaustive fuel (depth - 1) false player)
                  player fuel b Hwf Hp) with (cols := valid) (m := INT_MIN)
        as (v & Ev & _ & Hbd); [lia| |assumption|].
      { intros b' Hwf' Hc'. now apply IH. }
      exists v. split; [assumption|]. apply Hbd. right. auto.
    - destruct (min_all_spec (minimax_exhaustive fuel (depth - 1) true player)
                  (opponent_of player) fuel b Hwf (opponent_of_not_empty player))
        with (cols := valid) (m := INT_MAX)
        as (v & Ev & _ & Hbd); [lia| |assumption|].
      { intros b' Hwf' Hc'. now apply IH. }
      exists v. split; [assumption|]. apply Hbd. right. auto. }
  destruct (depth =? 0).
  - unfold ret. exact Leaf.
  - destruct (is_game_over_total b Hwf) as [o Ho]. unfold peek at 1.
    rewrite Ho. destruct o; [exact Leaf|exact Inner].
Qed.

(** ** Alpha-beta pruning against the exhaustive search *)

Section PrunedLoops.
Variables (search : Z -> Z -> M Z) (search_ex : M Z) (q : Cell) (f : nat)
          (b : Board).
Hypothesis Hwf : wf_board b.
Hypothesis Hq : q <> cell_empty.
Hypothesis Hcount : (count_cells b cell_empty <= f)%nat.
Hypothesis Hex :
  forall b', wf_board b' -> (count_cells b' cell_empty < f)%nat ->
             exists e, search_ex b' = Val (e, b') /\ bounded e.
Hypothesis Hab :
  forall b' alpha beta,
    wf_board b' -> (count_cells b' cell_empty < f)%nat ->
    INT_MIN <= alpha -> alpha < beta -> beta <= INT_MAX ->
    exists e v',
      search_ex b' = Val (e, b') /\ search alpha beta b' = Val (v', b') /\
      ab_sound alpha beta e v'.

Lemma pruned_step col alpha beta :
  valid_col b col -> INT_MIN <= alpha -> alpha < beta -> beta <= INT_MAX ->
  exists r b' e v',
    make_move col q b = Val (r, b') /\
    search_ex b' = Val (e, b') /\ search alpha beta b' = Val (v', b') /\
    undo_move r col b' = Val (tt, b) /\ ab_sound alpha beta e v'.
Proof.
  intros [Hc Htop] Ha Hlt Hb.
  destruct (make_move_valid b col q Hwf Hc Htop Hq)
    as (r & b' & Hm & Hwf' & Hcnt & Hu).
  destruct (Hab b' alpha beta Hwf') as (e & v' & He & Hv & Hs);
    [lia|assumption..|].
  exists r, b', e, v'. auto.
Qed.

Lemma max_loop_spec alpha0 beta cols :
  INT_MIN <= alpha0 -> beta <= INT_MAX ->
  Forall (valid_col b) cols ->
  forall m m' alpha,
    alpha = Z.max alpha0 m' -> alpha < beta -> ab_sound alpha0 beta m m' ->
    exists v v',
      max_all search_ex q cols m b = Val (v, b) /\
      max_loop search q cols m' alpha beta b = Val (v', b) /\
      ab_sound alpha0 beta v v'.
Proof.
  intros Ha0 Hb Hall. induction Hall as [|col cols Hc Hall IH];
    intros m m' alpha Ealpha Hlt Hs.
  - exists m, m'. auto.
  - destruct (pruned_step col alpha beta Hc) as
      (r & b' & e & v' & Hm & He & Hv & Hu & Hsound); [lia..|].
    cbn [max_all max_loop]. unfold bind. rewrite Hm, He, Hv, Hu.
    rewrite !gtb_max.
    destruct (Z.leb_spec beta (Z.max alpha v')) as [Hcut|Hgo].
    + destruct (max_all_spec search_ex q f b Hwf Hq Hcount Hex cols
                  (Z.max e m) Hall) as (v & Ev & Hle & _).
      exists v, (Z.max v' m'). split; [exact Ev|]. split; [reflexivity|].
      unfold ab_sound in *. lia.
    + apply IH; [lia|lia|]. unfold ab_sound in *. lia.
Qed.

Lemma min_loop_spec alpha beta0 cols :
  INT_MIN <= alpha -> beta0 <= INT_MAX ->
  Forall (valid_col b) cols ->
  forall m m' beta,
    beta = Z.min beta0 m' -> alpha < beta -> ab_sound alpha beta0 m m' ->
    exists v v',
      min_all search_ex q cols m b = Val (v, b) /\
      min_loop search q cols m' alpha beta b = Val (v', b) /\
      ab_sound alpha beta0 v v'.
Proof.
  intros Ha Hb0 Hall. induction Hall as [|col cols Hc Hall IH];
    intros m m' beta Ebeta Hlt Hs.
  - exists m, m'. auto.
  - destruct (pruned_step col alpha beta Hc) as
      (r & b' & e & v' & Hm & He & Hv & Hu & Hsound); [lia..|].
    cbn [min_all min_loop]. unfold bind. rewrite Hm, He, Hv, Hu.
    rewrite !ltb_min.
    destruct (Z.leb_spec (Z.min beta v') alpha) as [Hcut|Hgo].
    + destruct (min_all_spec search_ex q f b Hwf Hq Hcount Hex cols
                  (Z.min e m) Hall) as (v & Ev & Hle & _).
      exists v, (Z.min v' m'). split; [exact Ev|]. split; [reflexivity|].
      unfold ab_sound in *. lia.
    + apply IH; [lia|lia|]. unfold ab_sound in *. lia.
Qed.
End PrunedLoops.

Lemma ab_sound_refl alpha beta e : ab_sound alpha beta e e.
Proof. unfold ab_sound. lia. Qed.

(** Pruned and exhaustive search side by side: both return with the board
    restored, and the pruned value is sound for its window. *)
Lemma minimax_spec fuel :
  forall depth alpha beta maximizing player (b : Board),
    wf_board b -> player <> cell_empty ->
    (count_cells b cell_empty < fuel)%nat ->
    INT_MIN <= alpha -> alpha < beta -> beta <= INT_MAX ->
    exists e v',
      minimax_exhaustive fuel depth maximizing player b = Val (e, b) /\
      minimax fuel depth alpha beta maximizing player b = Val (v', b) /\
      ab_sound alpha beta e v'.
Proof.
  induction fuel as [|fuel IH];
    intros depth alpha beta maximizing player b Hwf Hp Hc Ha Hlt Hb; [lia|].
  cbn [minimax_exhaustive minimax].
  destruct (evaluate_position_bounded b player Hwf Hp) as (e0 & He0 & Hb0).
  assert (Leaf : exists e v',
             peek (fun b => evaluate_position b player) b = Val (e, b) /\
             peek (fun b => evaluate_position b player) b = Val (v', b) /\
             ab_sound alpha beta e v').
  { exists e0, e0. unfold peek. rewrite He0. split; [reflexivity|].
    split; [reflexivity|apply ab_sound_refl]. }
  unfold bind at 1. unfold bind at 2.
  assert (Inner : exists e v',
    (do valid_cols <- peek get_valid_moves in
     if Z.of_nat (length valid_cols) =? 0 then ret 0 else
     if maximizing then
       max_all (minimax_exhaustive fuel (depth - 1) false player)
               player valid_cols INT_MIN
     else
       min_all (minimax_exhaustive fuel (depth - 1) true player)
               (opponent_of player) valid_cols INT_MAX) b = Val (e, b) /\
    (do valid_cols <- peek get_valid_moves in
     if Z.of_nat (length valid_cols) =? 0 then ret 0 else
     if maximizing then
       max_loop (fun a b => minimax fuel (depth - 1) a b false player)
                player valid_cols INT_MIN alpha beta
     else
       min_loop (fun a b => minimax fuel (depth - 1) a b true player)
                (opponent_of player) valid_cols INT_MAX alpha beta) b
    = Val (v', b) /\
    ab_sound alpha beta e v').
  { destruct (get_valid_moves_spec b Hwf) as (valid & Hv & Hall & _).
    unfold bind, peek. rewrite Hv.
    destruct (Z.of_nat (length valid) =? 0).
    { exists 0, 0. split; [reflexivity|].
      split; [reflexivity|apply ab_sound_refl]. }
    destruct maximizing.
    - apply (max_loop_spec
               (fun a b => minimax fuel (depth - 1) a b false player)
               (minimax_exhaustive fuel (depth - 1) false player)
               player fuel b Hwf Hp); try assumption; try lia.
      + intros b' Hwf' Hc'. now apply minimax_exhaustive_spec.
      + intros b' a' b'' Hwf' Hc' Ha' Hlt' Hb'. now apply IH.
      + apply ab_sound_refl.
    - apply (min_loop_spec
               (fun a b => minimax fuel (depth - 1) a b true player)
               (minimax_exhaustive fuel (depth - 1) true player)
               (opponent_of player) fuel b Hwf (opponent_of_not_empty player));
        try assumption; try lia.
      + intros b' Hwf' Hc'. now apply minimax_exhaustive_spec.
      + intros b' a' b'' Hwf' Hc' Ha' Hlt' Hb'. now apply IH.
      + apply ab_sound_refl. }
  destruct (depth =? 0).
  - unfold ret. exact Leaf.
  - destruct (is_game_over_total b Hwf) as [o Ho]. unfold peek at 1.
    unfold peek at 3. rewrite Ho. destruct o; [exact Leaf|exact Inner].
Qed.

(** With the full window the pruned search returns the exhaustive value. *)
Lemma minimax_full_window fuel depth maximizing player (b : Board) :
  wf_board b -> player <> cell_empty ->
  (count_cells b cell_empty < fuel)%nat ->
  exists e,
    minimax_exhaustive fuel depth maximizing player b = Val (e, b) /\
    minimax fuel depth INT_MIN INT_MAX maximizing player b = Val (e, b) /\
    bounded e.
Proof.
  intros Hwf Hp Hc.
  destruct (minimax_spec fuel depth INT_MIN INT_MAX maximizing player b
              Hwf Hp Hc) as (e & v' & He & Hv & Hs);
    [unfold INT_MIN, INT_MAX; lia..|].
  destruct (minimax_exhaustive_spec fuel depth maximizing player b Hwf Hp Hc)
    as (e' & He' & Hb).
  rewrite He in He'. injection He' as <-.
  exists e. split; [assumption|]. split; [|assumption].
  assert (v' = e); [|now subst].
  unfold ab_sound, bounded, SCORE_BOUND, INT_MIN, INT_MAX in *. lia.
Qed.

(** ** The searches restore the board *)

Section RestoringLoops.
Variables (search : Z -> Z -> M Z) (q : Cell) (f : nat) (b : Board).
Hypothesis Hwf : wf_board b.
Hypothesis Hq : q <> cell_empty.
Hypothesis Hcount : (count_cells b cell_empty <= f)%nat.
Hypothesis Hsearch :
  forall b' alpha beta,
    wf_board b' -> (count_cells b' cell_empty < f)%nat ->
    exists v, search alpha beta b' = Val (v, b').

Lemma restoring_step col alpha beta :
  valid_col b col ->
  exists r b' v,
    make_move col q b = Val (r, b') /\ search alpha beta b' = Val (v, b') /\
    undo_move r col b' = Val (tt, b).
Proof.
  intros [Hc Htop].
  destruct (make_move_valid b col q Hwf Hc Htop Hq)
    as (r & b' & Hm & Hwf' & Hcnt & Hu).
  destruct (Hsearch b' alpha beta Hwf') as (v & Hv); [lia|].
  exists r, b', v. auto.
Qed.

Lemma max_loop_restores cols :
  Forall (valid_col b) cols ->
  forall m alpha beta,
    exists v, max_loop search q cols m alpha beta b = Val (v, b).
Proof.
  intros Hall. induction Hall as [|col cols Hc Hall IH]; intros m alpha beta.
  - exists m. reflexivity.
  - destruct (restoring_step col alpha beta Hc) as (r & b' & v & Hm & Hv & Hu).
    cbn [max_loop]. unfold bind. rewrite Hm, Hv, Hu.
    destruct (beta <=? _); [eexists; reflexivity|apply IH].
Qed.

Lemma min_loop_restores cols :
  Forall (valid_col b) cols ->
  forall m alpha beta,
    exists v, min_loop search q cols m alpha beta b = Val (v, b).
Proof.
  intros Hall. induction Hall as [|col cols Hc Hall IH]; intros m alpha beta.
  - exists m. reflexivity.
  - destruct (restoring_step col alpha beta Hc) as (r & b' & v & Hm & Hv & Hu).
    cbn [min_loop]. unfold bind. rewrite Hm, Hv, Hu.
    destruct (_ <=? alpha); [eexists; reflexivity|apply IH].
Qed.
End RestoringLoops.

(** [minimax] returns, at any depth and with any window, and leaves the
    board as it found it. *)
Lemma minimax_restores fuel :
  forall depth alpha beta maximizing player (b : Board),
    wf_board b -> player <> cell_empty ->
    (count_cells b cell_empty < fuel)%nat ->
    exists v, minimax fuel depth alpha beta maximizing player b = Val (v, b).
Proof.
  induction fuel as [|fuel IH];
    intros depth alpha beta maximizing player b Hwf Hp Hc; [lia|].
  cbn [minimax].
  destruct (evaluate_position_bounded b player Hwf Hp) as (e0 & He0 & _).
  assert (Leaf : exists v,
             peek (fun b => evaluate_position b player) b = Val (v, b)).
  { exists e0. unfold peek. now rewrite He0. }
  unfold bind at 1.
  assert (Inner : exists v,
    (do valid_cols <- peek get_valid_moves in
     if Z.of_nat (length valid_cols) =? 0 then ret 0 else
     if maximizing then
       max_loop (fun a b => minimax fuel (depth - 1) a b false player)
                player valid_cols INT_MIN alpha beta
     else
       min_loop (fun a b => minimax fuel (depth - 1) a b true player)
                (opponent_of player) valid_cols INT_MAX alpha beta) b
    = Val (v, b)).
  { destruct (get_valid_moves_spec b Hwf) as (valid & Hv & Hall & _).
    unfold bind, peek. rewrite Hv.
    destruct (Z.of_nat (length valid) =? 0); [eexists; reflexivity|].
    destruct maximizing.
    - apply (max_loop_restores _ player fuel b Hwf Hp); [lia| |assumption].
      intros b' a' b'' Hwf' Hc'. now apply IH.
    - apply (min_loop_restores _ (opponent_of player) fuel b Hwf
               (opponent_of_not_empty player)); [lia| |assumption].
      intros b' a' b'' Hwf' Hc'. now apply IH. }
  destruct (depth =? 0).
  - unfold ret. exact Leaf.
  - destruct (is_game_over_total b Hwf) as [o Ho]. unfold peek at 1.
    rewrite Ho. destruct o; [exact Leaf|exact Inner].
Qed.

(** ** The Hard AI's choice *)

Section HardLoop.
Variables (search search_ex : M Z) (f : nat) (b : Board).
Hypothesis Hwf : wf_board b.
Hypothesis Hcount : (count_cells b cell_empty <= f)%nat.
Hypothesis Hsame :
  forall b', wf_board b' -> (count_cells b' cell_empty < f)%nat ->
             exists e, search_ex b' = Val (e, b') /\
                       search b' = Val (e, b') /\ bounded e.

Lemma hard_loop_spec cols :
  Forall (valid_col b) cols ->
  forall best,
    exists best',
      hard_loop search cols best b = Val (best', b) /\
      hard_loop search_ex cols best b = Val (best', b) /\
      ((- SCORE_BOUND <= fst best /\ valid_col b (snd best)) \/
       (fst best = INT_MIN /\ cols <> []) ->
       - SCORE_BOUND <= fst best' /\ valid_col b (snd best')).
Proof.
  intros Hall. induction Hall as [|col cols Hc Hall IH]; intros best.
  - exists best. split; [reflexivity|]. split; [reflexivity|].
    intros [H|[_ H]]; tauto.
  - destruct Hc as [Hc Htop].
    destruct (make_move_valid b col cell_player2 Hwf Hc Htop)
      as (r & b' & Hm & Hwf' & Hcnt & Hu); [discriminate|].
    destruct (Hsame b' Hwf') as (e & He & Hv & Hb); [lia|].
    destruct (IH (if e >? fst best then (e, col) else best))
      as (best' & E1 & E2 & Hgood).
    exists best'. cbn [hard_loop]. unfold bind. rewrite Hm, He, Hv, Hu.
    split; [exact E1|]. split; [exact E2|].
    intros Hpre. apply Hgood. left.
    unfold bounded, SCORE_BOUND, INT_MIN in *.
    destruct (Z.gtb_spec e (fst best)); cbn [fst snd].
    + split; [lia|split; assumption].
    + destruct Hpre as [Hp1|[Hp2 _]]; [assumption|lia].
Qed.
End HardLoop.

Lemma bind_eq {A B : Type} (m : M A) (k : A -> M B) (b : Board) :
  bind m k b
  = match m b with
    | Val (a, b') => k a b'
    | Fault => Fault
    | Timeout => Timeout
    end.
Proof. reflexivity. Qed.

Lemma peek_eq {A : Type} (f : Board -> res A) (b : Board) :
  peek f b
  = match f b with
    | Val a => Val (a, b)
    | Fault => Fault
    | Timeout => Timeout
    end.
Proof. reflexivity. Qed.

(** C2.  Called on the full window [INT_MIN, INT_MAX], the pruned [minimax]
    returns the value of the exhaustive search of the same depth; hence the
    Hard AI returns what the same AI returns with the exhaustive search in
    its place: the same column, chosen by the same first-best scan; and on
    a board with a free top cell both return a valid drop with the board
    restored. *)
Theorem ai_hard_move_pruning_exact (b : Board) (fuel : nat) (rnd : nat -> Z)
        (k : nat) :
  wf_board b ->
  (count_cells b cell_empty <= fuel)%nat ->
  ((count_cells b cell_empty < fuel)%nat ->
   forall depth maximizing player,
     player <> cell_empty ->
     minimax fuel depth INT_MIN INT_MAX maximizing player b
     = minimax_exhaustive fuel depth maximizing player b) /\
  ai_hard_move fuel rnd k b = ai_hard_move_exhaustive fuel rnd k b /\
  ((exists col, valid_col b col) ->
   exists m, ai_hard_move fuel rnd k b = Val ((m, k), b) /\ valid_drop b m).
Proof.
  intros Hwf Hc. split.
  { intros Hlt depth maximizing player Hp.
    destruct (minimax_full_window fuel depth maximizing player b Hwf Hp Hlt)
      as (e & He & Hv & _).
    now rewrite He, Hv. }
  unfold ai_hard_move, ai_hard_move_exhaustive.
  rewrite !bind_eq. rewrite find_winning_move_spec by assumption.
  destruct (first_win_cases b cell_player2 Hwf) as [E2|V2].
  2:{ pose proof (valid_drop_row _ _ V2) as Hr2.
      destruct (Z.eqb_spec (row (first_win b cell_player2 cols_left_right)) (-1));
        [lia|]. cbn [negb]. split; [reflexivity|]. intros _. eauto. }
  rewrite E2. cbn [row negb Z.eqb Pos.eqb].
  rewrite !bind_eq. rewrite find_winning_move_spec by assumption.
  destruct (first_win_cases b cell_player1 Hwf) as [E1|V1].
  2:{ pose proof (valid_drop_row _ _ V1) as Hr1.
      destruct (Z.eqb_spec (row (first_win b cell_player1 cols_left_right)) (-1));
        [lia|]. cbn [negb]. split; [reflexivity|]. intros _. eauto. }
  rewrite E1. cbn [row negb Z.eqb Pos.eqb].
  destruct (get_valid_moves_spec b Hwf) as (valid & Hv & Hall & Hin).
  rewrite !bind_eq, !peek_eq, Hv.
  destruct (hard_loop_spec
              (minimax fuel (SEARCH_DEPTH - 1) INT_MIN INT_MAX false cell_player2)
              (minimax_exhaustive fuel (SEARCH_DEPTH - 1) false cell_player2)
              fuel b Hwf Hc) with (cols := valid) (best := (INT_MIN, 3))
    as (best & L1 & L2 & Hgood); [|assumption|].
  { intros b' Hwf' Hc'.
    destruct (minimax_full_window fuel (SEARCH_DEPTH - 1) false cell_player2 b'
                Hwf') as (e & He & Hp & Hb); [discriminate|assumption|].
    exists e. auto. }
  rewrite !bind_eq, L1, L2.
  split; [reflexivity|].
  intros (col & Hcol).
  destruct Hgood as [_ Hbest].
  { right. split; [reflexivity|]. intros ->.
    destruct Hcol as [Hc0 Ht0]. exact (Hin col Hc0 Ht0). }
  destruct Hbest as [Hbc Hbt].
  destruct (exists_lowest_empty b (snd best) Hwf Hbc) as [r Hr]; [eauto|].
  rewrite bind_eq, peek_eq, Hr. exists (mkMove r (snd best)).
  split; [reflexivity|]. split; [exact Hbc|].
  now apply scan_column_some in Hr.
Qed.

(** ** The searches restore the board, whatever the player argument *)

Lemma count_window_total (b : Board) player opponent cell_at idxs :
  wf_board b -> cells_in_grid (map cell_at idxs) = true ->
  forall cnt,
    exists cnt', count_window b player opponent cell_at idxs cnt = Val cnt'.
Proof.
  intros Hwf. induction idxs as [|i idxs IH]; intros Hg cnt.
  - eexists. reflexivity.
  - cbn [map cells_in_grid List.forallb] in Hg.
    apply andb_prop in Hg as [Hi Hg].
    cbn [count_window]. destruct cnt as [[pc oc] ec].
    destruct (rd_total b _ _ Hwf Hi) as [v Hv]. rewrite Hv. cbn [rbind].
    apply IH. exact Hg.
Qed.

Lemma eval_windows_total (b : Board) player opponent window starts :
  wf_board b ->
  List.forallb cells_in_grid (windows_of window starts) = true ->
  forall score,
    exists s, eval_windows b player opponent window starts score = Val s.
Proof.
  intros Hwf. induction starts as [|[o i] starts IH]; intros Hg score.
  - eexists. reflexivity.
  - cbn [windows_of map List.forallb fst snd] in Hg.
    apply andb_prop in Hg as [Hw Hg].
    cbn [eval_windows].
    destruct (count_window_total b player opponent (window o i) (upto 0 4)
                Hwf Hw (0, 0, 0)) as [cnt Hcnt].
    rewrite Hcnt. cbn [rbind]. apply IH. exact Hg.
Qed.

(** [evaluate_position] reads inside the board for any value of its
    argument. *)
Lemma evaluate_position_total (b : Board) player :
  wf_board b -> exists e, evaluate_position b player = Val e.
Proof.
  intros Hwf. unfold evaluate_position.
  pose proof code_windows_in_grid as G. unfold code_windows in G.
  apply forallb_app_inv in G as [G1 G].
  apply forallb_app_inv in G as [G2 G].
  apply forallb_app_inv in G as [G3 G4].
  destruct (eval_windows_total b player (opponent_of player) _ _ Hwf G1 0)
    as [s1 E1]. rewrite E1. cbn [rbind].
  destruct (eval_windows_total b player (opponent_of player) _ _ Hwf G2 s1)
    as [s2 E2]. rewrite E2. cbn [rbind].
  destruct (eval_windows_total b player (opponent_of player) _ _ Hwf G3 s2)
    as [s3 E3]. rewrite E3. cbn [rbind].
  destruct (eval_windows_total b player (opponent_of player) _ _ Hwf G4 s3)
    as [s4 E4]. rewrite E4. cbn [rbind].
  rewrite eval_center_spec by (assumption || reflexivity).
  eexists. reflexivity.
Qed.

(** A simulated move into a column with a free top cell, whatever is
    stored: it lands, [undo_move] on the returned row puts the board back,
    and the empty cells are one fewer unless [cell_empty] itself was
    stored. *)
Lemma make_move_any (b : Board) col q :
  wf_board b -> 0 <= col < COLS -> rd b 0 col = Val cell_empty ->
  exists r b',
    make_move col q b = Val (r, b') /\ wf_board b' /\
    (count_cells b' cell_empty <= count_cells b cell_empty)%nat /\
    (q <> cell_empty ->
     (count_cells b' cell_empty + 1 = count_cells b cell_empty)%nat) /\
    undo_move r col b' = Val (tt, b).
Proof.
  intros Hwf Hc Htop.
  destruct (exists_lowest_empty b col Hwf Hc) as [r Hr]; [eauto|].
  apply scan_column_some in Hr; [|assumption..].
  destruct (make_move_lowest b col q r Hwf Hc Hr) as (b' & Hm & Hw).
  destruct Hr as [He _].
  pose proof (count_cells_wr b r col cell_empty q b' cell_empty He Hw) as C.
  cbn [Cell_eqb] in C.
  exists r, b'. split; [assumption|]. split; [eapply wr_wf; eauto|].
  split; [destruct (Cell_eqb q cell_empty); lia|]. split.
  - intros Hq. destruct (Cell_eqb q cell_empty) eqn:E; [|lia].
    apply Cell_eqb_eq in E. contradiction.
  - unfold undo_move, store. now rewrite (wr_undo _ _ _ _ _ _ He Hw).
Qed.

Section RestoringSteps.
Variables (search : Z -> Z -> M Z) (q : Cell) (b : Board).
Hypothesis Hstep :
  forall col alpha beta,
    valid_col b col ->
    exists r b' v,
      make_move col q b = Val (r, b') /\ search alpha beta b' = Val (v, b') /\
      undo_move r col b' = Val (tt, b).

Lemma max_loop_restores_steps cols :
  Forall (valid_col b) cols ->
  forall m alpha beta,
    exists v, max_loop search q cols m alpha beta b = Val (v, b).
Proof.
  intros Hall. induction Hall as [|col cols Hc Hall IH]; intros m alpha beta.
  - exists m. reflexivity.
  - destruct (Hstep col alpha beta Hc) as (r & b' & v & Hm & Hv & Hu).
    cbn [max_loop]. unfold bind. rewrite Hm, Hv, Hu.
    destruct (beta <=? _); [eexists; reflexivity|apply IH].
Qed.

Lemma min_loop_restores_steps cols :
  Forall (valid_col b) cols ->
  forall m alpha beta,
    exists v, min_loop search q cols m alpha beta b = Val (v, b).
Proof.
  intros Hall. induction Hall as [|col cols Hc Hall IH]; intros m alpha beta.
  - exists m. reflexivity.
  - destruct (Hstep col alpha beta Hc) as (r & b' & v & Hm & Hv & Hu).
    cbn [min_loop]. unfold bind. rewrite Hm, Hv, Hu.
    destruct (_ <=? alpha); [eexists; reflexivity|apply IH].
Qed.
End RestoringSteps.

(** [minimax] returns and leaves the board as it found it, at any depth,
    with any window and flag, and for any value of its [player] argument:
    a minimizing level always stores a piece of a player, so two levels
    fill at least one cell. *)
Lemma minimax_restores_any fuel :
  forall depth alpha beta (maximizing : bool) player (b : Board),
    wf_board b ->
    (2 * count_cells b cell_empty + (if maximizing then 1 else 0) < fuel)%nat ->
    exists v, minimax fuel depth alpha beta maximizing player b = Val (v, b).
Proof.
  induction fuel as [|fuel IH];
    intros depth alpha beta maximizing player b Hwf Hc; [lia|].
  cbn [minimax].
  destruct (evaluate_position_total b player Hwf) as (e0 & He0).
  assert (Leaf : exists v,
             peek (fun b => evaluate_position b player) b = Val (v, b)).
  { exists e0. unfold peek. now rewrite He0. }
  unfold bind at 1.
  assert (Inner : exists v,
    (do valid_cols <- peek get_valid_moves in
     if Z.of_nat (length valid_cols) =? 0 then ret 0 else
     if maximizing then
       max_loop (fun a b => minimax fuel (depth - 1) a b false player)
                player valid_cols INT_MIN alpha beta
     else
       min_loop (fun a b => minimax fuel (depth - 1) a b true player)
                (opponent_of player) valid_cols INT_MAX alpha beta) b
    = Val (v, b)).
  { destruct (get_valid_moves_spec b Hwf) as (valid & Hv & Hall & _).
    unfold bind, peek. rewrite Hv.
    destruct (Z.of_nat (length valid) =? 0); [eexists; reflexivity|].
    destruct maximizing.
    - apply max_loop_restores_steps; [|assumption].
      intros col a' b'' [Hcol Htop].
      destruct (make_move_any b col player Hwf Hcol Htop)
        as (r & b' & Hm & Hwf' & Hle & _ & Hu).
      destruct (IH (depth - 1) a' b'' false player b' Hwf') as [v Ev]; [lia|].
      exists r, b', v. auto.
    - apply min_loop_restores_steps; [|assumption].
      intros col a' b'' [Hcol Htop].
      destruct (make_move_any b col (opponent_of player) Hwf Hcol Htop)
        as (r & b' & Hm & Hwf' & _ & Hdec & Hu).
      specialize (Hdec (opponent_of_not_empty player)).
      destruct (IH (depth - 1) a' b'' true player b' Hwf') as [v Ev]; [lia|].
      exists r, b', v. auto. }
  destruct (depth =? 0).
  - unfold ret. exact Leaf.
  - destruct (is_game_over_total b Hwf) as [o Ho]. unfold peek at 1.
    rewrite Ho. destruct o; [exact Leaf|exact Inner].
Qed.

(** C5.  Every search and heuristic routine of the AI returns with every
    cell of the board as it was before the call: [find_winning_move] for
    any player; [count_threats] on the empty cell its caller passes (the
    call stands under the test [board[row][col] == cell_empty]), and so
    [find_best_strategic_move], its only caller, on every board; and
    [minimax] at any depth, window and flag, whatever its [player]
    argument. *)
Theorem search_routines_restore_board (b : Board) :
  wf_board b ->
  (forall player, exists m, find_winning_move player b = Val (m, b)) /\
  (forall r col player,
      rd b r col = Val cell_empty ->
      exists t, count_threats r col player b = Val (t, b)) /\
  (forall player, exists m, find_best_strategic_move player b = Val (m, b)) /\
  (forall fuel depth alpha beta maximizing player,
      (2 * count_cells b cell_empty + 1 < fuel)%nat ->
      exists v,
        minimax fuel depth alpha beta maximizing player b = Val (v, b)).
Proof.
  intros Hwf. split; [|split; [|split]].
  - intros player. eexists. now apply find_winning_move_spec.
  - intros r col player He.
    destruct (count_threats_spec b r col player Hwf He) as (t & Ht & _).
    eauto.
  - intros player.
    destruct (find_best_strategic_move_spec player b Hwf) as (m & Hm & _).
    eauto.
  - intros fuel depth alpha beta maximizing player Hc.
    apply minimax_restores_any; [assumption|].
    destruct maximizing; lia.
Qed.

(** ** The Easy AI *)

Lemma rem7_range x : 0 <= x -> 0 <= Z.rem x 7 < COLS.
Proof. intros H. unfold COLS. apply Z.rem_bound_pos; lia. Qed.

(** The draws before the [n]-th hit full columns and the [n]-th does not:
    the Easy AI returns the [n]-th drawn column. *)
Lemma ai_easy_move_after_retries (b : Board) rnd n :
  wf_board b -> (forall i, 0 <= rnd i) ->
  forall k r fuel,
    (forall i, (i < n)%nat -> column_full b (Z.rem (rnd (k + i)%nat) 7)) ->
    lowest_empty b (Z.rem (rnd (k + n)%nat) 7) r ->
    (n < fuel)%nat ->
    ai_easy_move fuel rnd k b
    = Val ((mkMove r (Z.rem (rnd (k + n)%nat) 7), S (k + n)), b).
Proof.
  intros Hwf Hrnd. induction n as [|n IH]; intros k r fuel Hfull Hlow Hfuel.
  - destruct fuel as [|fuel]; [lia|]. cbn [ai_easy_move].
    rewrite Nat.add_0_r in *.
    apply scan_column_some in Hlow; [|assumption|apply rem7_range, Hrnd].
    rewrite bind_eq, peek_eq, Hlow. reflexivity.
  - destruct fuel as [|fuel]; [lia|]. cbn [ai_easy_move].
    pose proof (Hfull 0%nat ltac:(lia)) as H0. rewrite Nat.add_0_r in H0.
    apply scan_column_none in H0; [|assumption|apply rem7_range, Hrnd].
    rewrite bind_eq, peek_eq, H0.
    replace (k + S n)%nat with (S k + n)%nat in * by lia.
    apply IH; [|assumption|lia].
    intros i Hi. replace (S k + i)%nat with (k + S i)%nat by lia.
    apply Hfull. lia.
Qed.

(** Whatever the Easy AI returns is a valid drop, and it leaves the board
    alone. *)
Lemma ai_easy_move_returns_drop (b : Board) rnd fuel :
  wf_board b -> (forall i, 0 <= rnd i) ->
  forall k m k' b',
    ai_easy_move fuel rnd k b = Val ((m, k'), b') ->
    b' = b /\ valid_drop b m.
Proof.
  intros Hwf Hrnd. induction fuel as [|fuel IH]; intros k m k' b' E;
    [discriminate|].
  cbn [ai_easy_move] in E. rewrite bind_eq, peek_eq in E.
  pose proof (rem7_range (rnd k) (Hrnd k)) as Hc.
  destruct (scan_column_total b _ Hwf Hc) as [[r|] Ho]; rewrite Ho in E.
  - injection E as <- <- <-. split; [reflexivity|].
    split; [exact Hc|]. now apply scan_column_some in Ho.
  - eapply IH; eauto.
Qed.

(** C7, as amended.  The Easy AI draws columns [rand() % 7] and retries, by
    a recursive call, as long as the drawn column is full: it returns the
    first drawn column that has room, at its lowest empty row, having
    consumed the draws up to that one; and whatever it returns is a drop
    into a column with room, with the board untouched. *)
Theorem ai_easy_move_rejection_sampling (b : Board) (rnd : nat -> Z) :
  wf_board b -> (forall i, 0 <= rnd i) ->
  (forall n k r fuel,
      (forall i, (i < n)%nat -> column_full b (Z.rem (rnd (k + i)%nat) 7)) ->
      lowest_empty b (Z.rem (rnd (k + n)%nat) 7) r ->
      (n < fuel)%nat ->
      ai_easy_move fuel rnd k b
      = Val ((mkMove r (Z.rem (rnd (k + n)%nat) 7), S (k + n)), b)) /\
  (forall fuel k m k' b',
      ai_easy_move fuel rnd k b = Val ((m, k'), b') ->
      b' = b /\ valid_drop b m).
Proof.
  intros Hwf Hrnd. split.
  - intros n. now apply ai_easy_move_after_retries.
  - intros fuel. now apply ai_easy_move_returns_drop.
Qed.

(** ** Four in a row needs four pieces *)

Lemma all_windows_shape :
  Forall (fun w : list (Z * Z) => NoDup w /\ length w = 4%nat) all_windows.
Proof. apply (bool_decide_unpack _). vm_compute. exact I. Qed.

Lemma holds_in_grid_cells (b : Board) p rc :
  holds b p rc = true -> In rc (List.filter (holds b p) grid_cells).
Proof.
  intros H. apply List.filter_In. split; [|assumption].
  destruct rc as [r c]. apply In_grid_cells.
  unfold holds in H. cbn [fst snd] in H.
  destruct (rd b r c) eqn:E; try discriminate. eapply rd_in_grid; eauto.
Qed.

Lemma four_anywhere_count (b : Board) p :
  four_anywhere b p = true -> (4 <= count_cells b p)%nat.
Proof.
  unfold four_anywhere. intros H. apply List.existsb_exists in H as (w & Hw & Hall).
  pose proof all_windows_shape as S. rewrite Forall_forall in S.
  destruct (S w) as [Hnd Hlen]; [now apply list_elem_of_In|].
  rewrite <- Hlen. unfold count_cells. apply submseteq_length.
  apply NoDup_submseteq; [assumption|].
  intros x Hx. apply list_elem_of_In. apply holds_in_grid_cells.
  rewrite List.forallb_forall in Hall. apply Hall. now apply list_elem_of_In.
Qed.

Lemma holds_cells_in_grid (b : Board) p w :
  List.forallb (holds b p) w = true -> cells_in_grid w = true.
Proof.
  unfold cells_in_grid. rewrite !List.forallb_forall. intros H [r c] Hin.
  specialize (H _ Hin). unfold holds in H. cbn [fst snd] in *.
  destruct (rd b r c) eqn:E; try discriminate. eapply rd_in_grid; eauto.
Qed.

Lemma window_in_all_windows r c d :
  In d axes -> cells_in_grid (window_cells r c (fst d) (snd d)) = true ->
  In (window_cells r c (fst d) (snd d)) all_windows.
Proof.
  intros Hd Hg. unfold all_windows. apply in_flat_map. exists d.
  split; [assumption|]. apply List.filter_In. split; [|exact Hg].
  apply in_map_iff. exists (r, c). split; [reflexivity|].
  apply In_grid_cells.
  unfold cells_in_grid, window_cells in Hg. cbn [upto map List.forallb] in Hg.
  apply andb_prop in Hg as [Hg _]. cbn [fst snd] in Hg.
  now rewrite !Z.mul_0_l, !Z.add_0_r in Hg.
Qed.

(** A run of four through a cell is a run of four on the board. *)
Lemma four_through_anywhere (b : Board) p r c :
  four_through b p r c = true -> four_anywhere b p = true.
Proof.
  unfold four_through, four_anywhere. intros H.
  apply List.existsb_exists in H as (d & Hd & H).
  apply List.existsb_exists in H as (k & Hk & H).
  apply List.existsb_exists. eexists. split; [|exact H].
  apply window_in_all_windows; [assumption|].
  eapply holds_cells_in_grid; eauto.
Qed.

(** ** The game session *)

Lemma is_drop_empty (b : Board) move :
  wf_board b -> is_drop b move ->
  rd b (row move) (column move) = Val cell_empty.
Proof.
  intros Hwf [Hc Hs]. apply scan_column_some in Hs; [|assumption..].
  apply Hs.
Qed.

Lemma ply_board (s : Session) move s' w :
  ply s move = Val (s', w) ->
  wr (s_board s) (row move) (column move)
     (if turn s =? 0 then cell_player1 else cell_player2) = Val (s_board s') /\
  count_moves s' = count_moves s + 1 /\
  turn s' = (if turn s =? 0 then 1 else 0).
Proof.
  unfold ply. intros H.
  destruct (wr _ _ _ _) as [b'| |]; cbn [rbind] in H; try discriminate.
  destruct (count_moves s + 1 >? 6).
  - destruct (check_winner _ _ _); cbn [rbind] in H; try discriminate.
    injection H as <- _. auto.
  - injection H as <- _. auto.
Qed.

Lemma in_play_inv (s : Session) : in_play s -> session_inv s.
Proof.
  induction 1 as [|s move s' w Hplay IH Hdrop Hply].
  - split; [exact wf_board_init|]. split; [now left|].
    split; vm_compute; reflexivity.
  - destruct IH as (Hwf & Hturn & H1 & H2).
    pose proof (is_drop_empty _ _ Hwf Hdrop) as He.
    destruct (ply_board _ _ _ _ Hply) as (Hw & Hn & Ht).
    pose proof (count_cells_wr _ _ _ _ _ _ cell_player1 He Hw) as C1.
    pose proof (count_cells_wr _ _ _ _ _ _ cell_player2 He Hw) as C2.
    split; [eapply wr_wf; eauto|].
    rewrite Hn, Ht.
    destruct Hturn as [E|E]; rewrite E in *; cbn [Z.eqb Cell_eqb] in *;
      (split; [auto|]); lia.
Qed.

Lemma ply_total (s : Session) move :
  in_play s -> is_drop (s_board s) move ->
  exists s' w, ply s move = Val (s', w).
Proof.
  intros Hplay Hdrop. destruct (in_play_inv s Hplay) as (Hwf & _).
  pose proof (is_drop_empty _ _ Hwf Hdrop) as He.
  pose proof (rd_in_grid _ _ _ _ He) as Hg.
  unfold ply.
  destruct (wr_total (s_board s) (row move) (column move)
              (if turn s =? 0 then cell_player1 else cell_player2) Hwf Hg)
    as [b' Hb'].
  rewrite Hb'. cbn [rbind].
  destruct (count_moves s + 1 >? 6); [|eauto].
  destruct (check_winner_total b' move
              (if turn s =? 0 then cell_player1 else cell_player2)
              (wr_wf _ _ _ _ _ Hwf Hb') Hg) as [x ->].
  cbn [rbind]. eauto.
Qed.

Lemma no_four_before_seven (s : Session) :
  in_play s -> count_moves s < 7 ->
  four_anywhere (s_board s) cell_player1 = false /\
  four_anywhere (s_board s) cell_player2 = false.
Proof.
  intros Hplay Hn. destruct (in_play_inv s Hplay) as (_ & Hturn & H1 & H2).
  split.
  - destruct (four_anywhere (s_board s) cell_player1) eqn:F; [|reflexivity].
    apply four_anywhere_count in F. lia.
  - destruct (four_anywhere (s_board s) cell_player2) eqn:F; [|reflexivity].
    apply four_anywhere_count in F. lia.
Qed.

(** C8.  In a session the win check runs on a ply exactly when at least 7
    plies have been played; the pieces on the board are as many as the
    plies; with fewer than 7 no four in a row exists for either player; and
    on a ply where the check is skipped it would have returned 0. *)
Theorem win_check_gate_loses_no_win (s : Session) :
  in_play s ->
  Z.of_nat (count_cells (s_board s) cell_player1
            + count_cells (s_board s) cell_player2) = count_moves s /\
  (count_moves s < 7 ->
   four_anywhere (s_board s) cell_player1 = false /\
   four_anywhere (s_board s) cell_player2 = false) /\
  (forall move,
      is_drop (s_board s) move ->
      exists s' w,
        ply s move = Val (s', w) /\
        (w = None <-> count_moves s' < 7) /\
        (w = None ->
         check_winner (s_board s') move
           (if turn s =? 0 then cell_player1 else cell_player2) = Val false)).
Proof.
  intros Hplay. destruct (in_play_inv s Hplay) as (Hwf & Hturn & H1 & H2).
  split; [lia|]. split; [now apply no_four_before_seven|].
  intros move Hdrop.
  destruct (ply_total s move Hplay Hdrop) as (s' & w & Hply).
  exists s', w. split; [exact Hply|].
  destruct (ply_board _ _ _ _ Hply) as (Hw & Hn & Ht).
  assert (Hgate : w = None <-> count_moves s' < 7).
  { unfold ply in Hply. rewrite Hw in Hply. cbn [rbind] in Hply.
    destruct (Z.gtb_spec (count_moves s + 1) 6).
    - destruct (check_winner _ _ _); cbn [rbind] in Hply; try discriminate.
      injection Hply as _ <-. split; [discriminate|lia].
    - injection Hply as _ <-. split; [lia|reflexivity]. }
  split; [exact Hgate|]. intros Hnone. apply Hgate in Hnone.
  assert (Hplay' : in_play s') by (eapply in_play_ply; eauto).
  destruct (no_four_before_seven s' Hplay' Hnone) as [F1 F2].
  pose proof (wr_in_grid _ _ _ _ _ Hw) as Hg.
  rewrite check_winner_spec;
    [|eapply wr_wf; eauto|assumption|eapply holds_wr; eauto].
  f_equal.
  destruct (four_through _ _ _ _) eqn:F; [|reflexivity].
  apply four_through_anywhere in F.
  destruct (turn s =? 0); congruence.
Qed.

(** ** Replays *)

Lemma is_dropb_spec (b : Board) move : is_dropb b move = true -> is_drop b move.
Proof.
  unfold is_dropb, is_drop. intros H.
  apply andb_prop in H as [H1 H2]. apply andb_prop in H1 as [H0 H1].
  split; [lia|].
  destruct (scan_column b (column move)) as [[r|]| |]; try discriminate.
  apply Z.eqb_eq in H2. now subst.
Qed.

Lemma in_play_after (s : Session) move :
  in_play s -> is_drop (s_board s) move -> in_play (after s move).
Proof.
  intros Hplay Hdrop. destruct (ply_total s move Hplay Hdrop) as (s' & w & E).
  unfold after. rewrite E. eapply in_play_ply; eauto.
Qed.

Lemma in_play_replay moves :
  forall s, in_play s -> legal_replay s moves = true -> in_play (replay s moves).
Proof.
  induction moves as [|m moves IH]; intros s Hplay Hlegal; [exact Hplay|].
  cbn [legal_replay] in Hlegal. apply andb_prop in Hlegal as [Hm Hrest].
  cbn [replay fold_left]. apply IH; [|exact Hrest].
  apply in_play_after; [assumption|now apply is_dropb_spec].
Qed.

Lemma wf_board_rows (b : Board) :
  length b = 6%nat -> List.forallb (fun r => (length r =? 7)%nat) b = true ->
  wf_board b.
Proof.
  intros Hl Hr. split; [exact Hl|]. apply Forall_forall. intros r Hin.
  rewrite List.forallb_forall in Hr. apply Nat.eqb_eq, Hr.
  now apply list_elem_of_In.
Qed.

Lemma wf_board_split_run : wf_board Examples.board_split_run.
Proof. now apply wf_board_rows. Qed.

Lemma wf_board_one_piece : wf_board Examples.board_one_piece.
Proof. now apply wf_board_rows. Qed.

Lemma wf_board_p2_three : wf_board Examples.board_p2_three.
Proof. now apply wf_board_rows. Qed.

Lemma wf_board_col0_full : wf_board Examples.board_col0_full.
Proof. now apply wf_board_rows. Qed.

Lemma in_play_split_run :
  in_play (mkSession Examples.board_split_run 7 1).
Proof.
  change (mkSession Examples.board_split_run 7 1)
    with (replay session_start Examples.split_run_moves).
  apply in_play_replay; [constructor|]. vm_compute. reflexivity.
Qed.

(** ** Win detection: the contract, and the earlier revision *)

(** The contract of the current revision: for the piece just placed,
    [check_winner] returns 1 exactly when some axis through it carries four
    consecutive cells of the mover, the placed piece and the runs on both
    of its sides counted together. *)
Theorem check_winner_iff_four (b : Board) (m : GameMove) (p : Cell) :
  wf_board b -> rd b (row m) (column m) = Val p ->
  check_winner b m p = Val (four_through b p (row m) (column m)).
Proof.
  intros Hwf Hr. apply check_winner_spec; [assumption| |].
  - eapply rd_in_grid; eauto.
  - rewrite (holds_rd _ _ _ _ _ Hr). apply Cell_eqb_refl.
Qed.

Lemma check_winner_iff_four_witness :
  wf_board Examples.board_split_run /\
  rd Examples.board_split_run 5 2 = Val cell_player1 /\
  check_winner Examples.board_split_run (mkMove 5 2) cell_player1
  = Val (four_through Examples.board_split_run cell_player1 5 2).
Proof.
  split; [exact wf_board_split_run|]. split; [reflexivity|].
  apply (check_winner_iff_four Examples.board_split_run (mkMove 5 2)
           cell_player1 wf_board_split_run).
  reflexivity.
Defined.

(** C1.  The earlier revision of [check_winner] at a position reached in
    play: Player1 drops the seventh piece of the game on (5, 2), between its
    pieces on columns 0, 1 and 3, so that the bottom row carries four in a
    row through the placed piece (1 to the right, the piece, 2 to the
    left).  The current revision returns 1; the earlier revision, which
    restarts its count for the second direction, returns 0. *)
Theorem legacy_check_winner_misses_split_run :
  in_play (mkSession Examples.board_split_run 7 1) /\
  rd Examples.board_split_run 5 2 = Val cell_player1 /\
  four_through Examples.board_split_run cell_player1 5 2 = true /\
  check_winner Examples.board_split_run (mkMove 5 2) cell_player1 = Val true /\
  Legacy.check_winner Examples.board_split_run (mkMove 5 2) cell_player1
  = Val false.
Proof.
  split; [exact in_play_split_run|]. repeat split; vm_compute; reflexivity.
Qed.

(** C9.  For a last move on the grid, the three checks and [check_winner]
    return a value: none of their reads of [board] falls outside the 6x7
    array (a read outside is the result [Fault]), and none of their loops
    runs out of fuel. *)
Theorem check_winner_reads_in_bounds (b : Board) (last_move : GameMove)
        (player : Cell) :
  wf_board b ->
  0 <= row last_move <= 5 -> 0 <= column last_move <= 6 ->
  (exists w, check_vertical b last_move player = Val w) /\
  (exists w, check_horizontal b last_move player = Val w) /\
  (exists w, check_diagonal b last_move player = Val w) /\
  (exists w, check_winner b last_move player = Val w).
Proof.
  intros Hwf Hr Hc.
  assert (Hg : in_grid (row last_move) (column last_move) = true)
    by (apply in_grid_spec; unfold ROWS, COLS; lia).
  split; [now apply check_vertical_total|].
  split; [now apply check_horizontal_total|].
  split; [now apply check_diagonal_total|].
  now apply check_winner_total.
Qed.

Lemma check_winner_reads_in_bounds_witness :
  wf_board Examples.board_split_run /\ 0 <= 0 <= 5 /\ 0 <= 6 <= 6 /\
  (exists w, check_vertical Examples.board_split_run (mkMove 0 6) cell_player2
             = Val w) /\
  (exists w, check_horizontal Examples.board_split_run (mkMove 0 6) cell_player2
             = Val w) /\
  (exists w, check_diagonal Examples.board_split_run (mkMove 0 6) cell_player2
             = Val w) /\
  (exists w, check_winner Examples.board_split_run (mkMove 0 6) cell_player2
             = Val w).
Proof.
  split; [exact wf_board_split_run|]. split; [lia|]. split; [lia|].
  apply (check_winner_reads_in_bounds Examples.board_split_run (mkMove 0 6)
           cell_player2 wf_board_split_run); cbn [row column]; lia.
Defined.

(** ** Instances and counterexamples *)

Lemma ai_hard_move_pruning_exact_witness :
  wf_board Examples.board_one_piece /\
  (count_cells Examples.board_one_piece cell_empty <= 43)%nat /\
  ((count_cells Examples.board_one_piece cell_empty < 43)%nat ->
   forall depth maximizing player,
     player <> cell_empty ->
     minimax 43 depth INT_MIN INT_MAX maximizing player Examples.board_one_piece
     = minimax_exhaustive 43 depth maximizing player Examples.board_one_piece) /\
  ai_hard_move 43 (fun _ => 0) 0 Examples.board_one_piece
  = ai_hard_move_exhaustive 43 (fun _ => 0) 0 Examples.board_one_piece /\
  ((exists col, valid_col Examples.board_one_piece col) ->
   exists m,
     ai_hard_move 43 (fun _ => 0) 0 Examples.board_one_piece
     = Val ((m, 0%nat), Examples.board_one_piece) /\
     valid_drop Examples.board_one_piece m).
Proof.
  split; [exact wf_board_one_piece|].
  split; [vm_compute; lia|].
  apply (ai_hard_move_pruning_exact Examples.board_one_piece 43 (fun _ => 0) 0
           wf_board_one_piece).
  vm_compute. lia.
Defined.

(** On [board_one_piece] the Hard AI answers on top of the centre piece. *)
Example ai_hard_move_one_piece :
  ai_hard_move 43 (fun _ => 0) 0 Examples.board_one_piece
  = Val ((mkMove 4 3, 0%nat), Examples.board_one_piece).
Proof. vm_compute. reflexivity. Qed.

Lemma evaluate_position_table_sum_witness :
  wf_board Examples.board_split_run /\ cell_player1 <> cell_empty /\
  evaluate_position Examples.board_split_run cell_player1
  = Val (spec_score Examples.board_split_run cell_player1).
Proof.
  split; [exact wf_board_split_run|]. split; [discriminate|].
  apply (evaluate_position_table_sum Examples.board_split_run cell_player1
           wf_board_split_run).
  discriminate.
Defined.

(** 100 + 5 + 2 for the bottom row, -4 for the row above, 3 for the piece
    in the centre column. *)
Example evaluate_position_split_run :
  evaluate_position Examples.board_split_run cell_player1 = Val 106.
Proof. vm_compute. reflexivity. Qed.

(** [count_threats] does not save the cell it overwrites, which is why its
    caller tests [board[row][col] == cell_empty] first: on an occupied cell
    it would store the piece and then clear the cell. *)
Lemma count_threats_clears_occupied_cell :
  rd Examples.board_one_piece 5 3 = Val cell_player1 /\
  count_threats 5 3 cell_player2 Examples.board_one_piece = Val (0, board_init) /\
  rd board_init 5 3 = Val cell_empty /\
  board_init <> Examples.board_one_piece.
Proof.
  split; [reflexivity|]. split; [vm_compute; reflexivity|].
  split; [reflexivity|]. discriminate.
Qed.

Lemma search_routines_restore_board_witness :
  wf_board Examples.board_one_piece /\
  (forall player,
      exists m, find_winning_move player Examples.board_one_piece
                = Val (m, Examples.board_one_piece)) /\
  (forall r col player,
      rd Examples.board_one_piece r col = Val cell_empty ->
      exists t, count_threats r col player Examples.board_one_piece
                = Val (t, Examples.board_one_piece)) /\
  (forall player,
      exists m, find_best_strategic_move player Examples.board_one_piece
                = Val (m, Examples.board_one_piece)) /\
  (forall fuel depth alpha beta maximizing player,
      (2 * count_cells Examples.board_one_piece cell_empty + 1 < fuel)%nat ->
      exists v,
        minimax fuel depth alpha beta maximizing player Examples.board_one_piece
        = Val (v, Examples.board_one_piece)).
Proof.
  split; [exact wf_board_one_piece|].
  apply (search_routines_restore_board Examples.board_one_piece).
  exact wf_board_one_piece.
Defined.

Lemma winning_drop_p2_three :
  winning_drop Examples.board_p2_three cell_player2 3 5.
Proof.
  split.
  - apply scan_column_some; [exact wf_board_p2_three|unfold COLS; lia|].
    reflexivity.
  - eexists. split; vm_compute; reflexivity.
Qed.

Lemma ai_medium_move_takes_win_witness :
  wf_board Examples.board_p2_three /\
  (exists col r,
      0 <= col < COLS /\ winning_drop Examples.board_p2_three cell_player2 col r) /\
  exists col r,
    (forall fuel rnd k,
        ai_medium_move fuel rnd k Examples.board_p2_three
        = Val ((mkMove r col, k), Examples.board_p2_three)) /\
    winning_drop Examples.board_p2_three cell_player2 col r /\
    forall col' r',
      0 <= col' < COLS ->
      winning_drop Examples.board_p2_three cell_player2 col' r' -> col <= col'.
Proof.
  assert (H : exists col r,
             0 <= col < COLS /\
             winning_drop Examples.board_p2_three cell_player2 col r).
  { exists 3, 5. split; [unfold COLS; lia|exact winning_drop_p2_three]. }
  split; [exact wf_board_p2_three|]. split; [exact H|].
  apply (ai_medium_move_takes_win Examples.board_p2_three wf_board_p2_three H).
Defined.

Example ai_medium_move_p2_three :
  ai_medium_move 0 (fun _ => 0) 0 Examples.board_p2_three
  = Val ((mkMove 5 3, 0%nat), Examples.board_p2_three).
Proof. vm_compute. reflexivity. Qed.

(** C7 as the specification words it fails: with column 0 full and a
    random source that keeps drawing column 0, the Easy AI selects the full
    column and retries without end, although six columns have room. *)
Lemma ai_easy_move_can_retry_forever :
  (exists col r,
      0 <= col < COLS /\ rd Examples.board_col0_full r col = Val cell_empty) /\
  scan_column Examples.board_col0_full (Z.rem 0 7) = Val None /\
  forall fuel k,
    ai_easy_move fuel (fun _ => 0) k Examples.board_col0_full = Timeout.
Proof.
  split; [exists 1, 5; split; [unfold COLS; lia|reflexivity]|].
  split; [reflexivity|].
  induction fuel as [|fuel IH]; intros k; [reflexivity|].
  cbn [ai_easy_move]. rewrite bind_eq, peek_eq.
  change (scan_column Examples.board_col0_full (Z.rem 0 7)) with (@Val (option Z) None).
  apply IH.
Qed.

Lemma ai_easy_move_rejection_sampling_witness :
  wf_board Examples.board_col0_full /\ (forall i, 0 <= Z.of_nat i) /\
  (forall n k r fuel,
      (forall i, (i < n)%nat ->
                 column_full Examples.board_col0_full
                   (Z.rem (Z.of_nat (k + i)%nat) 7)) ->
      lowest_empty Examples.board_col0_full (Z.rem (Z.of_nat (k + n)%nat) 7) r ->
      (n < fuel)%nat ->
      ai_easy_move fuel Z.of_nat k Examples.board_col0_full
      = Val ((mkMove r (Z.rem (Z.of_nat (k + n)%nat) 7), S (k + n)),
             Examples.board_col0_full)) /\
  (forall fuel k m k' b',
      ai_easy_move fuel Z.of_nat k Examples.board_col0_full = Val ((m, k'), b') ->
      b' = Examples.board_col0_full /\ valid_drop Examples.board_col0_full m).
Proof.
  split; [exact wf_board_col0_full|]. split; [lia|].
  apply (ai_easy_move_rejection_sampling Examples.board_col0_full Z.of_nat
           wf_board_col0_full).
  lia.
Defined.

(** The draws 0, 1, ...: column 0 is full, column 1 is taken. *)
Example ai_easy_move_col0_full :
  ai_easy_move 2 Z.of_nat 0 Examples.board_col0_full
  = Val ((mkMove 5 1, 2%nat), Examples.board_col0_full).
Proof. vm_compute. reflexivity. Qed.

Lemma win_check_gate_loses_no_win_witness :
  in_play session_start /\
  Z.of_nat (count_cells (s_board session_start) cell_player1
            + count_cells (s_board session_start) cell_player2)
  = count_moves session_start /\
  (count_moves session_start < 7 ->
   four_anywhere (s_board session_start) cell_player1 = false /\
   four_anywhere (s_board session_start) cell_player2 = false) /\
  (forall move,
      is_drop (s_board session_start) move ->
      exists s' w,
        ply session_start move = Val (s', w) /\
        (w = None <-> count_moves s' < 7) /\
        (w = None ->
         check_winner (s_board s') move
           (if turn session_start =? 0 then cell_player1 else cell_player2)
         = Val false)).
Proof.
  split; [exact in_play_start|].
  apply (win_check_gate_loses_no_win session_start). exact in_play_start.
Defined.

Lemma ai_medium_move_valid_witness :
  wf_board Examples.board_col0_full /\ (forall n : nat, 0 <= 99) /\
  (exists col r,
      0 <= col < COLS /\ rd Examples.board_col0_full r col = Val cell_empty) /\
  exists m k',
    ai_medium_move 0 (fun _ => 99) 0 Examples.board_col0_full
    = Val ((m, k'), Examples.board_col0_full) /\
    0 <= row m < ROWS /\ 0 <= column m < COLS /\
    rd Examples.board_col0_full (row m) (column m) = Val cell_empty /\
    lowest_empty Examples.board_col0_full (column m) (row m) /\
    exists b', wr Examples.board_col0_full (row m) (column m) cell_player2
               = Val b'.
Proof.
  assert (H : exists col r,
             0 <= col < COLS /\
             rd Examples.board_col0_full r col = Val cell_empty).
  { exists 1, 5. split; [unfold COLS; lia|reflexivity]. }
  split; [exact wf_board_col0_full|]. split; [lia|]. split; [exact H|].
  apply (ai_medium_move_valid Examples.board_col0_full 0 (fun _ => 99) 0
           wf_board_col0_full); [lia|exact H].
Defined.

(** * Further properties of the code *)

(** ** [make_move] followed by [undo_move] *)

(** X1.  A simulated move that lands is undone exactly by [undo_move] on the
    row it returned; after a move into a full column ([make_move] returns
    -1 and changes nothing) the same [undo_move] would write
    [board[-1][col]], outside the array. *)
Theorem make_move_undo_move (b : Board) (col : Z) (player : Cell) :
  wf_board b -> 0 <= col < COLS ->
  (forall r b',
      make_move col player b = Val (r, b') -> r <> -1 ->
      undo_move r col b' = Val (tt, b)) /\
  (column_full b col ->
   make_move col player b = Val (-1, b) /\ undo_move (-1) col b = Fault).
Proof.
  intros Hwf Hc. split.
  - intros r b' Hm Hr. unfold make_move in Hm. rewrite make_move_rows_scan in Hm.
    fold (scan_column b col) in Hm.
    destruct (scan_column_total b col Hwf Hc) as [[r0|] Ho]; rewrite Ho in Hm.
    + destruct (wr b r0 col player) as [b0| |] eqn:Hw; try discriminate.
      injection Hm as <- <-.
      apply scan_column_some in Ho; [|assumption..]. destruct Ho as [He _].
      unfold undo_move, store. now rewrite (wr_undo _ _ _ _ _ _ He Hw).
    + injection Hm as <- _. contradiction.
  - intros Hfull. split; [now apply make_move_full|]. reflexivity.
Qed.

Lemma make_move_undo_move_witness :
  wf_board Examples.board_col0_full /\ 0 <= 0 < COLS /\
  (forall r b',
      make_move 0 cell_player2 Examples.board_col0_full = Val (r, b') ->
      r <> -1 -> undo_move r 0 b' = Val (tt, Examples.board_col0_full)) /\
  (column_full Examples.board_col0_full 0 ->
   make_move 0 cell_player2 Examples.board_col0_full
   = Val (-1, Examples.board_col0_full) /\
   undo_move (-1) 0 Examples.board_col0_full = Fault).
Proof.
  split; [exact wf_board_col0_full|]. split; [unfold COLS; lia|].
  apply (make_move_undo_move Examples.board_col0_full 0 cell_player2
           wf_board_col0_full).
  unfold COLS; lia.
Defined.

(** ** The forced moves of the Medium and the Hard AI *)

Lemma first_win_none (b : Board) p :
  wf_board b ->
  (forall col r, 0 <= col < COLS -> ~ winning_drop b p col r) ->
  first_win b p cols_left_right = mkMove (-1) (-1).
Proof.
  intros Hwf Hno.
  pose proof (first_win_upto b p (Z.to_nat COLS) 0) as H. cbn zeta in H.
  fold cols_left_right in H.
  destruct H as [[H _]|(Hr & Hw & _)]; [assumption|].
  change (0 + Z.of_nat (Z.to_nat COLS)) with COLS in Hr.
  apply wins_at_iff in Hw; [|assumption..].
  destruct Hw as [_ Hw]. exfalso. eapply Hno; eauto.
Qed.

(** X2.  When Player2 has no winning drop and Player1 has one, the Medium
    AI plays the cell of Player1's leftmost winning drop: whatever the
    random draws, without consuming one, and with the board restored. *)
Theorem ai_medium_move_blocks (b : Board) :
  wf_board b ->
  (forall col r, 0 <= col < COLS -> ~ winning_drop b cell_player2 col r) ->
  (exists col r, 0 <= col < COLS /\ winning_drop b cell_player1 col r) ->
  exists col r,
    (forall fuel rnd k,
        ai_medium_move fuel rnd k b = Val ((mkMove r col, k), b)) /\
    winning_drop b cell_player1 col r /\
    forall col' r',
      0 <= col' < COLS -> winning_drop b cell_player1 col' r' -> col <= col'.
Proof.
  intros Hwf Hno Hex.
  destruct (first_win_found b cell_player1 Hwf Hex)
    as (col & r & Hfw & Hr & Hc & Hw & Hmin).
  exists col, r. split; [|split; assumption].
  intros fuel rnd k. unfold ai_medium_move.
  rewrite bind_eq, find_winning_move_spec by assumption.
  rewrite (first_win_none b cell_player2 Hwf Hno).
  cbn [row negb Z.eqb Pos.eqb].
  rewrite bind_eq, find_winning_move_spec by assumption.
  rewrite Hfw. cbn [row].
  destruct (Z.eqb_spec r (-1)); [unfold ROWS in Hr; lia|]. reflexivity.
Qed.

(** Player1 threatens the bottom row; Player2 has nothing. *)
Lemma board_one_threat_wf :
  wf_board Examples.board_p1_three.
Proof. now apply wf_board_rows. Qed.

Lemma no_winning_drop_by_wins_at (b : Board) p :
  wf_board b ->
  List.forallb (fun col => match wins_at b p col with
                           | None => true
                           | Some _ => false
                           end) cols_left_right = true ->
  forall col r, 0 <= col < COLS -> ~ winning_drop b p col r.
Proof.
  intros Hwf Hall col r Hc Hw.
  rewrite List.forallb_forall in Hall.
  assert (Hin : In col cols_left_right)
    by (apply In_upto; unfold COLS in *; lia).
  specialize (Hall col Hin).
  assert (W : wins_at b p col = Some (mkMove r col))
    by (apply wins_at_iff; [assumption..|cbn; auto]).
  now rewrite W in Hall.
Qed.

Lemma ai_medium_move_blocks_witness :
  wf_board Examples.board_p1_three /\
  (forall col r, 0 <= col < COLS ->
                 ~ winning_drop Examples.board_p1_three cell_player2 col r) /\
  (exists col r, 0 <= col < COLS /\
                 winning_drop Examples.board_p1_three cell_player1 col r) /\
  exists col r,
    (forall fuel rnd k,
        ai_medium_move fuel rnd k Examples.board_p1_three
        = Val ((mkMove r col, k), Examples.board_p1_three)) /\
    winning_drop Examples.board_p1_three cell_player1 col r /\
    forall col' r',
      0 <= col' < COLS ->
      winning_drop Examples.board_p1_three cell_player1 col' r' -> col <= col'.
Proof.
  assert (Hno : forall col r, 0 <= col < COLS ->
                  ~ winning_drop Examples.board_p1_three cell_player2 col r).
  { apply no_winning_drop_by_wins_at; [exact board_one_threat_wf|].
    vm_compute. reflexivity. }
  assert (Hex : exists col r, 0 <= col < COLS /\
                  winning_drop Examples.board_p1_three cell_player1 col r).
  { exists 3, 5. split; [unfold COLS; lia|]. split.
    - apply scan_column_some; [exact board_one_threat_wf|unfold COLS; lia|].
      reflexivity.
    - eexists. split; vm_compute; reflexivity. }
  split; [exact board_one_threat_wf|]. split; [exact Hno|]. split; [exact Hex|].
  apply (ai_medium_move_blocks Examples.board_p1_three board_one_threat_wf
           Hno Hex).
Defined.

(** X3.  The Hard AI makes the same two forced moves before any search: its
    own leftmost winning drop when it has one, and otherwise the cell of
    Player1's leftmost winning drop; no fuel is needed for them. *)
Theorem ai_hard_move_forced (b : Board) :
  wf_board b ->
  ((exists col r, 0 <= col < COLS /\ winning_drop b cell_player2 col r) ->
   exists col r,
     (forall fuel rnd k,
         ai_hard_move fuel rnd k b = Val ((mkMove r col, k), b)) /\
     winning_drop b cell_player2 col r /\
     forall col' r',
       0 <= col' < COLS -> winning_drop b cell_player2 col' r' -> col <= col') /\
  ((forall col r, 0 <= col < COLS -> ~ winning_drop b cell_player2 col r) ->
   (exists col r, 0 <= col < COLS /\ winning_drop b cell_player1 col r) ->
   exists col r,
     (forall fuel rnd k,
         ai_hard_move fuel rnd k b = Val ((mkMove r col, k), b)) /\
     winning_drop b cell_player1 col r /\
     forall col' r',
       0 <= col' < COLS -> winning_drop b cell_player1 col' r' -> col <= col').
Proof.
  intros Hwf. split.
  - intros Hex.
    destruct (first_win_found b cell_player2 Hwf Hex)
      as (col & r & Hfw & Hr & Hc & Hw & Hmin).
    exists col, r. split; [|split; assumption].
    intros fuel rnd k. unfold ai_hard_move.
    rewrite bind_eq, find_winning_move_spec by assumption.
    rewrite Hfw. cbn [row].
    destruct (Z.eqb_spec r (-1)); [unfold ROWS in Hr; lia|]. reflexivity.
  - intros Hno Hex.
    destruct (first_win_found b cell_player1 Hwf Hex)
      as (col & r & Hfw & Hr & Hc & Hw & Hmin).
    exists col, r. split; [|split; assumption].
    intros fuel rnd k. unfold ai_hard_move.
    rewrite bind_eq, find_winning_move_spec by assumption.
    rewrite (first_win_none b cell_player2 Hwf Hno).
    cbn [row negb Z.eqb Pos.eqb].
    rewrite bind_eq, find_winning_move_spec by assumption.
    rewrite Hfw. cbn [row].
    destruct (Z.eqb_spec r (-1)); [unfold ROWS in Hr; lia|]. reflexivity.
Qed.

Lemma ai_hard_move_forced_witness :
  wf_board Examples.board_p1_three /\
  ((exists col r, 0 <= col < COLS /\
                  winning_drop Examples.board_p1_three cell_player2 col r) ->
   exists col r,
     (forall fuel rnd k,
         ai_hard_move fuel rnd k Examples.board_p1_three
         = Val ((mkMove r col, k), Examples.board_p1_three)) /\
     winning_drop Examples.board_p1_three cell_player2 col r /\
     forall col' r',
       0 <= col' < COLS ->
       winning_drop Examples.board_p1_three cell_player2 col' r' -> col <= col') /\
  ((forall col r, 0 <= col < COLS ->
                  ~ winning_drop Examples.board_p1_three cell_player2 col r) ->
   (exists col r, 0 <= col < COLS /\
                  winning_drop Examples.board_p1_three cell_player1 col r) ->
   exists col r,
     (forall fuel rnd k,
         ai_hard_move fuel rnd k Examples.board_p1_three
         = Val ((mkMove r col, k), Examples.board_p1_three)) /\
     winning_drop Examples.board_p1_three cell_player1 col r /\
     forall col' r',
       0 <= col' < COLS ->
       winning_drop Examples.board_p1_three cell_player1 col' r' -> col <= col').
Proof.
  split; [exact board_one_threat_wf|].
  apply (ai_hard_move_forced Examples.board_p1_three board_one_threat_wf).
Defined.

Example ai_hard_move_blocks_p1_three :
  ai_hard_move 0 (fun _ => 0) 0 Examples.board_p1_three
  = Val ((mkMove 5 3, 0%nat), Examples.board_p1_three).
Proof. vm_compute. reflexivity. Qed.

(** ** [is_game_over] *)

Lemma any_winner_spec (b : Board) cells :
  wf_board b -> cells_in_grid cells = true ->
  any_winner b cells = Val (List.existsb (win_at b) cells).
Proof.
  intros Hwf. induction cells as [|[r c] cells IH]; intros Hg; [reflexivity|].
  cbn [cells_in_grid List.forallb fst snd] in Hg.
  apply andb_prop in Hg as [Hi Hg]. cbn [any_winner List.existsb].
  unfold win_at at 1. cbn [fst snd].
  destruct (rd_total b r c Hwf Hi) as [v Hv]. rewrite Hv. cbn [rbind].
  destruct (Cell_eqb v cell_empty) eqn:Ev; cbn [negb andb orb]; [now apply IH|].
  rewrite (check_winner_iff_four b (mkMove r c) v Hwf Hv). cbn [rbind row column].
  destruct (four_through b v r c); [reflexivity|now apply IH].
Qed.

Lemma top_row_full_spec (b : Board) cols :
  wf_board b -> Forall (fun c => 0 <= c < COLS) cols ->
  top_row_full b cols
  = Val (List.forallb (fun c => negb (holds b cell_empty (0, c))) cols).
Proof.
  intros Hwf Hall. induction Hall as [|c cols Hc Hall IH]; [reflexivity|].
  cbn [top_row_full List.forallb].
  destruct (rd_total b 0 c Hwf) as [v Hv].
  { apply in_grid_spec. unfold ROWS. lia. }
  rewrite Hv, (holds_rd _ _ _ _ _ Hv). cbn [rbind].
  destruct (Cell_eqb v cell_empty); [reflexivity|exact IH].
Qed.

Lemma window_cells_head r c dr dc :
  exists rest, window_cells r c dr dc = (r, c) :: rest.
Proof.
  unfold window_cells. cbn [upto map]. eexists.
  f_equal. f_equal; lia.
Qed.

Lemma all_windows_inv w :
  In w all_windows ->
  exists r c d, In d axes /\ in_grid r c = true /\
                w = window_cells r c (fst d) (snd d).
Proof.
  unfold all_windows. intros H. apply in_flat_map in H as (d & Hd & H).
  apply List.filter_In in H as [H _].
  apply in_map_iff in H as ([r c] & <- & Hin).
  exists r, c, d. split; [assumption|]. split; [|reflexivity].
  now apply In_grid_cells.
Qed.

(** Four in a row somewhere is four in a row through one of its cells. *)
Lemma four_anywhere_win_at (b : Board) p :
  p <> cell_empty -> four_anywhere b p = true ->
  exists rc, In rc grid_cells /\ win_at b rc = true.
Proof.
  intros Hp H. unfold four_anywhere in H.
  apply List.existsb_exists in H as (w & Hw & Hall).
  destruct (all_windows_inv w Hw) as (r & c & d & Hd & Hg & ->).
  exists (r, c). split; [now apply In_grid_cells|].
  destruct (window_cells_head r c (fst d) (snd d)) as [rest Hrest].
  assert (H0 : holds b p (r, c) = true).
  { rewrite Hrest in Hall. cbn [List.forallb] in Hall.
    now apply andb_prop in Hall as [H0 _]. }
  unfold win_at. cbn [fst snd]. unfold holds in H0. cbn [fst snd] in H0.
  destruct (rd b r c) as [v| |]; try discriminate.
  apply Cell_eqb_eq in H0. subst v.
  apply Cell_eqb_neq in Hp. rewrite Hp. cbn [negb andb].
  unfold four_through. apply List.existsb_exists. exists d. split; [assumption|].
  apply List.existsb_exists. exists 0. split; [apply In_upto; lia|].
  now rewrite !Z.mul_0_l, !Z.sub_0_r.
Qed.

Lemma win_at_four_anywhere (b : Board) rc :
  win_at b rc = true ->
  four_anywhere b cell_player1 || four_anywhere b cell_player2 = true.
Proof.
  unfold win_at. destruct (rd b (fst rc) (snd rc)) as [v| |]; try discriminate.
  intros H. apply andb_prop in H as [Hv Hf].
  apply four_through_anywhere in Hf.
  destruct v; [discriminate| |]; rewrite Hf; [reflexivity|apply orb_true_r].
Qed.

Lemma any_win_at_iff (b : Board) :
  List.existsb (win_at b) grid_cells
  = four_anywhere b cell_player1 || four_anywhere b cell_player2.
Proof.
  apply Bool.eq_iff_eq_true. split.
  - intros H. apply List.existsb_exists in H as (rc & _ & H).
    now apply win_at_four_anywhere in H.
  - intros H. apply List.existsb_exists.
    apply orb_prop in H as [H|H];
      eapply four_anywhere_win_at in H; try discriminate;
      destruct H as (rc & Hin & Hw); eauto.
Qed.

(** X4.  [is_game_over] returns 1 exactly when a player has four in a row
    somewhere on the board or no cell of the top row is empty. *)
Theorem is_game_over_spec (b : Board) :
  wf_board b ->
  is_game_over b
  = Val (four_anywhere b cell_player1 || four_anywhere b cell_player2
         || top_row_occupied b).
Proof.
  intros Hwf. unfold is_game_over. fold grid_cells.
  rewrite any_winner_spec; [|assumption|vm_compute; reflexivity].
  cbn [rbind]. rewrite any_win_at_iff.
  destruct (four_anywhere b cell_player1 || four_anywhere b cell_player2);
    [reflexivity|].
  cbn [orb]. apply top_row_full_spec; [assumption|apply cols_in_range].
Qed.

Lemma is_game_over_spec_witness :
  wf_board Examples.board_split_run /\
  is_game_over Examples.board_split_run
  = Val (four_anywhere Examples.board_split_run cell_player1
         || four_anywhere Examples.board_split_run cell_player2
         || top_row_occupied Examples.board_split_run).
Proof.
  split; [exact wf_board_split_run|].
  apply (is_game_over_spec Examples.board_split_run wf_board_split_run).
Defined.

(** X5.  When [is_game_over] returns 0, [get_valid_moves] finds a column:
    the branch [move_count == 0] of [minimax], which comes after the test
    of [is_game_over], is never taken. *)
Theorem game_not_over_has_valid_move (b : Board) :
  wf_board b -> is_game_over b = Val false ->
  exists col rest, get_valid_moves b = Val (col :: rest) /\ valid_col b col.
Proof.
  intros Hwf Hover. unfold is_game_over in Hover. fold grid_cells in Hover.
  rewrite any_winner_spec in Hover; [|assumption|vm_compute; reflexivity].
  cbn [rbind] in Hover.
  destruct (List.existsb (win_at b) grid_cells); [discriminate|].
  rewrite top_row_full_spec in Hover; [|assumption|apply cols_in_range].
  assert (Htop : List.forallb (fun c => negb (holds b cell_empty (0, c)))
                              cols_left_right = false)
    by (injection Hover; intros H; exact H).
  clear Hover.
  assert (Hex : exists c, In c cols_left_right /\
                          holds b cell_empty (0, c) = true).
  { destruct (List.forallb _ cols_left_right) eqn:E in Htop; [discriminate|].
    clear Htop. revert E. induction cols_left_right as [|c cols IH];
      cbn [List.forallb]; [discriminate|].
    destruct (holds b cell_empty (0, c)) eqn:Hc; cbn [negb andb].
    - intros _. exists c. split; [now left|assumption].
    - intros E. destruct (IH E) as (c' & Hin & Hc'). exists c'.
      split; [now right|assumption]. }
  destruct Hex as (c & Hin & Hc).
  assert (Hr : rd b 0 c = Val cell_empty).
  { unfold holds in Hc. cbn [fst snd] in Hc.
    destruct (rd b 0 c) as [v| |]; try discriminate.
    apply Cell_eqb_eq in Hc. now subst. }
  assert (Hrange : 0 <= c < COLS)
    by (apply In_upto in Hin; unfold COLS in *; lia).
  destruct (get_valid_moves_spec b Hwf) as (valid & Hv & Hall & Hmem).
  specialize (Hmem c Hrange Hr).
  destruct valid as [|col rest]; [destruct Hmem|].
  exists col, rest. split; [assumption|].
  inversion Hall; subst. assumption.
Qed.

Lemma game_not_over_has_valid_move_witness :
  wf_board Examples.board_one_piece /\
  is_game_over Examples.board_one_piece = Val false /\
  exists col rest,
    get_valid_moves Examples.board_one_piece = Val (col :: rest) /\
    valid_col Examples.board_one_piece col.
Proof.
  split; [exact wf_board_one_piece|]. split; [vm_compute; reflexivity|].
  apply (game_not_over_has_valid_move Examples.board_one_piece
           wf_board_one_piece).
  vm_compute. reflexivity.
Defined.

(** ** Boards in play: gravity and piece counts *)

Lemma rd_board_init r c :
  in_grid r c = true -> rd board_init r c = Val cell_empty.
Proof.
  intros Hg. apply in_grid_spec in Hg. unfold ROWS, COLS in Hg.
  assert (Hr : r = 0 \/ r = 1 \/ r = 2 \/ r = 3 \/ r = 4 \/ r = 5) by lia.
  assert (Hc : c = 0 \/ c = 1 \/ c = 2 \/ c = 3 \/ c = 4 \/ c = 5 \/ c = 6)
    by lia.
  destruct Hr as [->|[->|[->|[->|[->| ->]]]]];
    destruct Hc as [->|[->|[->|[->|[->|[->| ->]]]]]]; reflexivity.
Qed.

Lemma gravity_board_init : gravity board_init.
Proof.
  intros r col He r' Hr'. apply rd_board_init.
  apply rd_in_grid, in_grid_spec in He. apply in_grid_spec. lia.
Qed.

(** A drop of a piece on the lowest empty cell of a column keeps gravity. *)
Lemma gravity_drop (b : Board) r col p b' :
  gravity b -> lowest_empty b col r -> p <> cell_empty ->
  wr b r col p = Val b' -> gravity b'.
Proof.
  intros Hgr [He Hlow] Hp Hw r1 c1 He1 r2 Hr2.
  assert (Hne : (r1, c1) <> (r, col)).
  { intros [= -> ->]. rewrite (rd_wr_same _ _ _ _ _ Hw) in He1. congruence. }
  rewrite (rd_wr_other _ _ _ _ _ _ _ Hw Hne) in He1.
  destruct (decide ((r2, c1) = (r, col))) as [[= -> ->]|Hne2].
  - exfalso. apply (Hlow r1); [|assumption].
    apply rd_in_grid, in_grid_spec in He1. lia.
  - rewrite (rd_wr_other _ _ _ _ _ _ _ Hw Hne2). eapply Hgr; eauto.
Qed.

Lemma in_play_gravity (s : Session) : in_play s -> gravity (s_board s).
Proof.
  induction 1 as [|s move s' w Hplay IH Hdrop Hply].
  - exact gravity_board_init.
  - destruct (in_play_inv s Hplay) as (Hwf & _).
    destruct (ply_board _ _ _ _ Hply) as (Hw & _).
    destruct Hdrop as [Hc Hs]. apply scan_column_some in Hs; [|assumption..].
    eapply gravity_drop; eauto. destruct (turn s =? 0); discriminate.
Qed.

(** Under gravity a column is full as soon as its top cell is occupied. *)
Lemma gravity_column_full (b : Board) col :
  gravity b -> rd b 0 col <> Val cell_empty -> column_full b col.
Proof.
  intros Hgr Htop r Hr He.
  destruct (Z.eq_dec r 0) as [->|Hne]; [contradiction|].
  apply Htop. apply (Hgr r col He). lia.
Qed.

Lemma count_cells_total (b : Board) :
  wf_board b ->
  (count_cells b cell_player1 + count_cells b cell_player2
   + count_cells b cell_empty = 42)%nat.
Proof.
  intros Hwf.
  assert (G : cells_in_grid grid_cells = true) by (vm_compute; reflexivity).
  pose proof (count_in_total b grid_cells Hwf G) as T.
  replace (length grid_cells) with 42%nat in T by (vm_compute; reflexivity).
  unfold count_in in T. unfold count_cells. exact T.
Qed.

(** X6.  In every session in play: the moves counted are at most 42, the
    turn is their parity, Player1 has played the odd plies and Player2 the
    even ones, and the empty cells are what remains of the 42. *)
Theorem in_play_piece_counts (s : Session) :
  in_play s ->
  0 <= count_moves s <= BOARD_FULL /\
  turn s = count_moves s mod 2 /\
  Z.of_nat (count_cells (s_board s) cell_player1) = (count_moves s + 1) / 2 /\
  Z.of_nat (count_cells (s_board s) cell_player2) = count_moves s / 2 /\
  Z.of_nat (count_cells (s_board s) cell_empty) = BOARD_FULL - count_moves s.
Proof.
  intros Hplay. destruct (in_play_inv s Hplay) as (Hwf & Hturn & H1 & H2).
  pose proof (count_cells_total (s_board s) Hwf) as T.
  unfold BOARD_FULL. destruct Hturn as [E|E]; rewrite E in *;
    Z.div_mod_to_equations; lia.
Qed.

Lemma in_play_piece_counts_witness :
  in_play (mkSession Examples.board_split_run 7 1) /\
  0 <= 7 <= BOARD_FULL /\
  1 = 7 mod 2 /\
  Z.of_nat (count_cells Examples.board_split_run cell_player1) = (7 + 1) / 2 /\
  Z.of_nat (count_cells Examples.board_split_run cell_player2) = 7 / 2 /\
  Z.of_nat (count_cells Examples.board_split_run cell_empty) = BOARD_FULL - 7.
Proof.
  split; [exact in_play_split_run|].
  apply (in_play_piece_counts (mkSession Examples.board_split_run 7 1)).
  exact in_play_split_run.
Defined.

Lemma count_cells_zero (b : Board) v :
  count_cells b v = 0%nat <->
  forall r c, in_grid r c = true -> rd b r c <> Val v.
Proof.
  unfold count_cells. split.
  - intros H r c Hg Hr.
    assert (Hin : In (r, c) (List.filter (holds b v) grid_cells)).
    { apply holds_in_grid_cells. rewrite (holds_rd _ _ _ _ _ Hr).
      apply Cell_eqb_refl. }
    destruct (List.filter (holds b v) grid_cells); [destruct Hin|discriminate].
  - intros H. destruct (List.filter (holds b v) grid_cells) as [|[r c] l] eqn:E;
      [reflexivity|].
    assert (Hin : In (r, c) (List.filter (holds b v) grid_cells))
      by (rewrite E; now left).
    apply List.filter_In in Hin as [Hin Hh].
    apply In_grid_cells in Hin. exfalso. apply (H r c Hin).
    unfold holds in Hh. cbn [fst snd] in Hh.
    destruct (rd b r c) as [x| |]; try discriminate.
    apply Cell_eqb_eq in Hh. now subst.
Qed.

Lemma top_row_occupied_spec (b : Board) :
  top_row_occupied b = true <->
  forall c, 0 <= c < COLS -> rd b 0 c <> Val cell_empty.
Proof.
  unfold top_row_occupied. rewrite List.forallb_forall. split.
  - intros H c Hc Hr.
    assert (Hin : In c cols_left_right)
      by (apply In_upto; unfold COLS in *; lia).
    specialize (H c Hin). rewrite (holds_rd _ _ _ _ _ Hr) in H. discriminate.
  - intros H c Hin. apply In_upto in Hin.
    destruct (holds b cell_empty (0, c)) eqn:Hh; [|reflexivity].
    exfalso. apply (H c); [unfold COLS in *; lia|].
    unfold holds in Hh. cbn [fst snd] in Hh.
    destruct (rd b 0 c) as [x| |]; try discriminate.
    apply Cell_eqb_eq in Hh. now subst.
Qed.

(** X7.  Boards in play keep the gravity invariant, so the three tests of a
    full board agree on them: the game loop's [count_moves == BOARD_FULL],
    the top row without an empty cell (the draw test of [is_game_over] and
    of [get_valid_moves]), and no empty cell at all. *)
Theorem in_play_full_board_tests (s : Session) :
  in_play s ->
  gravity (s_board s) /\
  (count_moves s = BOARD_FULL <-> top_row_occupied (s_board s) = true) /\
  (count_moves s = BOARD_FULL <->
   forall r c, in_grid r c = true -> rd (s_board s) r c <> Val cell_empty) /\
  (forall col, 0 <= col < COLS ->
               (column_full (s_board s) col <->
                rd (s_board s) 0 col <> Val cell_empty)).
Proof.
  intros Hplay. pose proof (in_play_gravity s Hplay) as Hgr.
  destruct (in_play_inv s Hplay) as (Hwf & _ & H1 & H2).
  pose proof (count_cells_total (s_board s) Hwf) as T.
  assert (He : Z.of_nat (count_cells (s_board s) cell_empty)
               = BOARD_FULL - count_moves s) by (unfold BOARD_FULL; lia).
  clear Hwf H1 H2 T.
  assert (Hfull : count_moves s = BOARD_FULL <->
                  forall r c, in_grid r c = true ->
                              rd (s_board s) r c <> Val cell_empty).
  { rewrite <- count_cells_zero. lia. }
  split; [assumption|]. split; [|split; [assumption|]].
  - rewrite Hfull, top_row_occupied_spec. split.
    + intros H c Hc. apply H. apply in_grid_spec. unfold ROWS. lia.
    + intros H r c Hg Hr. apply in_grid_spec in Hg.
      apply (gravity_column_full (s_board s) c Hgr (H c ltac:(lia)) r);
        [lia|assumption].
  - intros col Hc. split.
    + intros Hcf. apply Hcf. unfold ROWS. lia.
    + now apply gravity_column_full.
Qed.

Lemma in_play_full_board_tests_witness :
  in_play session_start /\
  gravity (s_board session_start) /\
  (count_moves session_start = BOARD_FULL <->
   top_row_occupied (s_board session_start) = true) /\
  (count_moves session_start = BOARD_FULL <->
   forall r c, in_grid r c = true ->
               rd (s_board session_start) r c <> Val cell_empty) /\
  (forall col, 0 <= col < COLS ->
               (column_full (s_board session_start) col <->
                rd (s_board session_start) 0 col <> Val cell_empty)).
Proof.
  split; [exact in_play_start|].
  apply (in_play_full_board_tests session_start). exact in_play_start.
Defined.

(** ** The last-move check is enough *)

Lemma window_cells_through r c r0 c0 dr dc :
  In (r, c) (window_cells r0 c0 dr dc) ->
  exists k, In k (upto 0 4) /\
            window_cells r0 c0 dr dc
            = window_cells (r - k * dr) (c - k * dc) dr dc.
Proof.
  unfold window_cells at 1. intros H. apply in_map_iff in H as (k & E & Hk).
  injection E as Er Ec. exists k. split; [assumption|].
  f_equal; lia.
Qed.

Lemma forallb_holds_ext (b b' : Board) q w :
  (forall rc, In rc w -> holds b' q rc = holds b q rc) ->
  List.forallb (holds b' q) w = List.forallb (holds b q) w.
Proof.
  induction w as [|rc w IH]; intros H; [reflexivity|].
  cbn [List.forallb]. rewrite H by now left.
  rewrite IH; [reflexivity|]. intros x Hx. apply H. now right.
Qed.

(** A piece placed on a board without four in a row can only make four in
    a row of its own colour, and only through its own cell. *)
Lemma new_four_through_last (b : Board) r c p b' q :
  wr b r c p = Val b' -> four_anywhere b q = false ->
  four_anywhere b' q = true ->
  q = p /\ four_through b' p r c = true.
Proof.
  intros Hw Hquiet H. unfold four_anywhere in H.
  apply List.existsb_exists in H as (w & Hin & Hall).
  destruct (in_dec (fun x y : Z * Z => decide (x = y)) (r, c) w) as [Hrc|Hrc].
  - rewrite List.forallb_forall in Hall. pose proof (Hall _ Hrc) as Hh.
    rewrite (holds_rd _ _ _ _ _ (rd_wr_same _ _ _ _ _ Hw)) in Hh.
    apply Cell_eqb_eq in Hh. subst q. split; [reflexivity|].
    destruct (all_windows_inv w Hin) as (r0 & c0 & d & Hd & _ & ->).
    destruct (window_cells_through _ _ _ _ _ _ Hrc) as (k & Hk & E).
    unfold four_through. apply List.existsb_exists. exists d.
    split; [assumption|]. apply List.existsb_exists. exists k.
    split; [assumption|]. rewrite <- E. now apply List.forallb_forall.
  - exfalso. assert (F : four_anywhere b q = true); [|congruence].
    unfold four_anywhere. apply List.existsb_exists. exists w.
    split; [assumption|]. rewrite <- Hall. symmetry.
    apply forallb_holds_ext. intros rc Hx.
    eapply holds_wr_other; eauto. intros ->. contradiction.
Qed.

(** X8.  On a board without four in a row, after one more piece is stored
    the last-move check of [check_winner] decides the whole board: it
    returns 1 exactly when the mover now has four in a row somewhere, and
    the other player has none either way. *)
Theorem last_move_check_decides_board (b : Board) (move : GameMove)
        (player : Cell) (b' : Board) :
  wf_board b -> quiet b -> player <> cell_empty ->
  wr b (row move) (column move) player = Val b' ->
  check_winner b' move player = Val (four_anywhere b' player) /\
  four_anywhere b' (opponent_of player) = false.
Proof.
  intros Hwf [Q1 Q2] Hp Hw.
  pose proof (wr_wf _ _ _ _ _ Hwf Hw) as Hwf'.
  assert (Hq : forall q, q <> cell_empty -> four_anywhere b q = false)
    by (intros [] Hq; congruence).
  split.
  - rewrite (check_winner_iff_four b' move player Hwf'
               (rd_wr_same _ _ _ _ _ Hw)).
    f_equal. destruct (four_anywhere b' player) eqn:F.
    + now destruct (new_four_through_last _ _ _ _ _ _ Hw (Hq _ Hp) F).
    + destruct (four_through b' player _ _) eqn:T; [|reflexivity].
      apply four_through_anywhere in T. congruence.
  - destruct (four_anywhere b' (opponent_of player)) eqn:F; [|reflexivity].
    destruct (new_four_through_last _ _ _ _ _ _ Hw
                (Hq _ (opponent_of_not_empty player)) F) as [E _].
    destruct player; discriminate.
Qed.

Lemma quiet_board_init : quiet board_init.
Proof. split; vm_compute; reflexivity. Qed.

Lemma last_move_check_decides_board_witness :
  wf_board board_init /\ quiet board_init /\ cell_player1 <> cell_empty /\
  wr board_init 5 3 cell_player1 = Val Examples.board_one_piece /\
  check_winner Examples.board_one_piece (mkMove 5 3) cell_player1
  = Val (four_anywhere Examples.board_one_piece cell_player1) /\
  four_anywhere Examples.board_one_piece (opponent_of cell_player1) = false.
Proof.
  split; [exact wf_board_init|]. split; [exact quiet_board_init|].
  split; [discriminate|]. split; [reflexivity|].
  apply (last_move_check_decides_board board_init (mkMove 5 3) cell_player1
           Examples.board_one_piece wf_board_init quiet_board_init).
  - discriminate.
  - reflexivity.
Defined.

(** ** [input_player_move] *)

(** X9.  [input_player_move] skips the requests for full columns and
    returns the first requested column that has room, with the lowest empty
    row of that column and the inputs that follow; when every request is
    for a full column it keeps asking. *)
Theorem input_player_move_first_open (b : Board) (inputs : list Z) :
  wf_board b -> Forall (fun v => 1 <= v <= 7) inputs ->
  (forall skipped v rest r,
      inputs = skipped ++ v :: rest ->
      Forall (fun u => column_full b (u - 1)) skipped ->
      lowest_empty b (v - 1) r ->
      input_player_move inputs b = Val (Some (mkMove r (v - 1), rest))) /\
  (Forall (fun u => column_full b (u - 1)) inputs ->
   input_player_move inputs b = Val None) /\
  (forall move rest,
      input_player_move inputs b = Val (Some (move, rest)) ->
      is_drop b move /\ Forall (fun v => 1 <= v <= 7) rest /\
      (length rest < length inputs)%nat).
Proof.
  intros Hwf Hall. split; [|split].
  - intros skipped. revert inputs Hall.
    induction skipped as [|u skipped IH]; intros inputs Hall v rest r -> Hsk Hlow.
    + cbn [app input_player_move]. inversion Hall as [|? ? Hv _]; subst.
      apply scan_column_some in Hlow; [|assumption|unfold COLS; lia].
      now rewrite Hlow.
    + cbn [app input_player_move]. inversion Hall as [|? ? Hu Hall']; subst.
      inversion Hsk as [|? ? Hfull Hsk']; subst.
      apply scan_column_none in Hfull; [|assumption|unfold COLS; lia].
      rewrite Hfull. cbn [rbind]. eapply IH; eauto.
  - intros Hfull. induction Hall as [|v inputs Hv Hall IH]; [reflexivity|].
    inversion Hfull as [|? ? Hf Hfull']; subst. cbn [input_player_move].
    apply scan_column_none in Hf; [|assumption|unfold COLS; lia].
    rewrite Hf. cbn [rbind]. now apply IH.
  - induction Hall as [|v inputs Hv Hall IH]; intros move rest E;
      [discriminate|].
    cbn [input_player_move] in E.
    assert (Hc : 0 <= v - 1 < COLS) by (unfold COLS; lia).
    destruct (scan_column_total b (v - 1) Hwf Hc) as [[r|] Ho];
      rewrite Ho in E; cbn [rbind] in E.
    + injection E as <- <-. split; [split; assumption|].
      split; [assumption|]. cbn [length]. lia.
    + destruct (IH move rest E) as (Hd & Hr & Hl).
      split; [assumption|]. split; [assumption|]. cbn [length]. lia.
Qed.

Lemma input_player_move_first_open_witness :
  wf_board Examples.board_col0_full /\
  Forall (fun v => 1 <= v <= 7) [1; 1; 4; 2] /\
  (forall skipped v rest r,
      [1; 1; 4; 2] = skipped ++ v :: rest ->
      Forall (fun u => column_full Examples.board_col0_full (u - 1)) skipped ->
      lowest_empty Examples.board_col0_full (v - 1) r ->
      input_player_move [1; 1; 4; 2] Examples.board_col0_full
      = Val (Some (mkMove r (v - 1), rest))) /\
  (Forall (fun u => column_full Examples.board_col0_full (u - 1)) [1; 1; 4; 2] ->
   input_player_move [1; 1; 4; 2] Examples.board_col0_full = Val None) /\
  (forall move rest,
      input_player_move [1; 1; 4; 2] Examples.board_col0_full
      = Val (Some (move, rest)) ->
      is_drop Examples.board_col0_full move /\
      Forall (fun v => 1 <= v <= 7) rest /\
      (length rest < length [1; 1; 4; 2])%nat).
Proof.
  assert (H : Forall (fun v => 1 <= v <= 7) [1; 1; 4; 2])
    by (repeat constructor; lia).
  split; [exact wf_board_col0_full|]. split; [exact H|].
  apply (input_player_move_first_open Examples.board_col0_full [1; 1; 4; 2]
           wf_board_col0_full H).
Defined.

(** Column 1 is asked twice and is full; column 4 is taken. *)
Example input_player_move_col0_full :
  input_player_move [1; 1; 4; 2] Examples.board_col0_full
  = Val (Some (mkMove 5 3, [2])).
Proof. vm_compute. reflexivity. Qed.

(** ** The Player-vs-Player loop *)

Lemma in_play_count_moves (s : Session) :
  in_play s ->
  0 <= count_moves s <= BOARD_FULL /\
  Z.of_nat (count_cells (s_board s) cell_empty) = BOARD_FULL - count_moves s.
Proof.
  intros Hplay. destruct (in_play_inv s Hplay) as (Hwf & Hturn & H1 & H2).
  pose proof (count_cells_total (s_board s) Hwf) as T.
  unfold BOARD_FULL. lia.
Qed.

(** One ply on a session without four in a row: the gated check reports a
    win exactly when the mover made four in a row. *)
Lemma ply_quiet (s : Session) move s' w :
  in_play s -> quiet (s_board s) -> is_drop (s_board s) move ->
  ply s move = Val (s', w) ->
  let p := if turn s =? 0 then cell_player1 else cell_player2 in
  (w = Some true ->
   7 <= count_moves s' /\ four_anywhere (s_board s') p = true /\
   four_anywhere (s_board s') (opponent_of p) = false) /\
  (w <> Some true -> quiet (s_board s')).
Proof.
  intros Hplay [Q1 Q2] Hdrop Hply p.
  destruct (in_play_inv s Hplay) as (Hwf & _).
  pose proof (in_play_ply _ _ _ _ Hplay Hdrop Hply) as Hplay'.
  destruct (ply_board _ _ _ _ Hply) as (Hw & Hn & _). fold p in Hw.
  assert (Hp : p <> cell_empty) by (unfold p; destruct (turn s =? 0); discriminate).
  assert (Hq : forall q, q <> cell_empty -> four_anywhere (s_board s) q = false)
    by (intros [] Hq; congruence).
  pose proof (check_winner_iff_four (s_board s') move p
                (wr_wf _ _ _ _ _ Hwf Hw) (rd_wr_same _ _ _ _ _ Hw)) as Hcw.
  assert (Hq' : four_through (s_board s') p (row move) (column move) = false ->
                quiet (s_board s')).
  { intros T. split.
    - destruct (four_anywhere (s_board s') cell_player1) eqn:F; [|reflexivity].
      assert (N : cell_player1 <> cell_empty) by discriminate.
      destruct (new_four_through_last _ _ _ _ _ _ Hw (Hq _ N) F) as [_ T'].
      congruence.
    - destruct (four_anywhere (s_board s') cell_player2) eqn:F; [|reflexivity].
      assert (N : cell_player2 <> cell_empty) by discriminate.
      destruct (new_four_through_last _ _ _ _ _ _ Hw (Hq _ N) F) as [_ T'].
      congruence. }
  unfold ply in Hply. fold p in Hply. rewrite Hw in Hply. cbn [rbind] in Hply.
  destruct (count_moves s + 1 >? 6) eqn:G.
  - rewrite Hcw in Hply. cbn [rbind] in Hply. injection Hply as _ <-. split.
    + intros E. injection E as T. split; [lia|].
      split; [exact (four_through_anywhere _ _ _ _ T)|].
      destruct (four_anywhere (s_board s') (opponent_of p)) eqn:F; [|reflexivity].
      destruct (new_four_through_last _ _ _ _ _ _ Hw
                  (Hq _ (opponent_of_not_empty p)) F) as [E _].
      destruct p; discriminate.
    + intros E. apply Hq'.
      destruct (four_through (s_board s') p (row move) (column move));
        congruence.
  - injection Hply as _ <-. split; [discriminate|]. intros _.
    apply no_four_before_seven; [assumption|lia].
Qed.

Lemma input_player_move_cases (b : Board) (inputs : list Z) :
  wf_board b -> Forall (fun v => 1 <= v <= 7) inputs ->
  input_player_move inputs b = Val None \/
  exists move rest,
    input_player_move inputs b = Val (Some (move, rest)) /\
    is_drop b move /\ Forall (fun v => 1 <= v <= 7) rest.
Proof.
  intros Hwf Hall. induction Hall as [|v inputs Hv Hall IH]; [now left|].
  cbn [input_player_move].
  assert (Hc : 0 <= v - 1 < COLS) by (unfold COLS; lia).
  destruct (scan_column_total b (v - 1) Hwf Hc) as [[r|] Ho];
    rewrite Ho; cbn [rbind].
  - right. exists (mkMove r (v - 1)), inputs.
    split; [reflexivity|]. split; [split; assumption|assumption].
  - exact IH.
Qed.

Lemma pvp_loop_outcome (fuel : nat) :
  forall (inputs : list Z) (s : Session) (o : Outcome),
    Forall (fun v => 1 <= v <= 7) inputs ->
    in_play s -> quiet (s_board s) ->
    pvp_loop fuel inputs s = Val o -> outcome_ok o.
Proof.
  induction fuel as [|fuel IH]; intros inputs s o Hin Hplay Hq E;
    [discriminate|].
  destruct (in_play_inv s Hplay) as (Hwf & Hturn & _).
  destruct (in_play_count_moves s Hplay) as (Hn & He).
  cbn [pvp_loop] in E. destruct (Z.eqb_spec (count_moves s) BOARD_FULL) as [F|F].
  { injection E as <-. cbn [outcome_ok]. repeat split; try assumption;
      try apply Hq. lia. }
  destruct (input_player_move_cases (s_board s) inputs Hwf Hin)
    as [Hi|(move & rest & Hi & Hdrop & Hrest)]; rewrite Hi in E; cbn [rbind] in E.
  { injection E as <-. cbn [outcome_ok]. repeat split; try assumption;
      try apply Hq. lia. }
  destruct (ply_total s move Hplay Hdrop) as (s' & w & Hply).
  rewrite Hply in E. cbn [rbind] in E.
  pose proof (in_play_ply _ _ _ _ Hplay Hdrop Hply) as Hplay'.
  destruct (ply_quiet s move s' w Hplay Hq Hdrop Hply) as [Hwin Hgo].
  destruct (ply_board _ _ _ _ Hply) as (_ & _ & Ht).
  destruct w as [[|]|].
  - injection E as <-. destruct (Hwin eq_refl) as (H7 & F1 & F2).
    destruct (in_play_count_moves s' Hplay') as (Hn' & _).
    cbn [outcome_ok]. split; [assumption|]. split; [lia|].
    rewrite Ht. destruct Hturn as [T|T]; rewrite T in *; cbn [Z.eqb] in *;
      auto.
  - apply (IH rest s' o Hrest Hplay'); [apply Hgo; discriminate|assumption].
  - apply (IH rest s' o Hrest Hplay'); [apply Hgo; discriminate|assumption].
Qed.

Lemma pvp_loop_total (fuel : nat) :
  forall (inputs : list Z) (s : Session),
    Forall (fun v => 1 <= v <= 7) inputs -> in_play s ->
    BOARD_FULL - count_moves s < Z.of_nat fuel ->
    exists o, pvp_loop fuel inputs s = Val o.
Proof.
  induction fuel as [|fuel IH]; intros inputs s Hin Hplay Hfuel.
  { destruct (in_play_count_moves s Hplay) as (Hn & _). lia. }
  destruct (in_play_inv s Hplay) as (Hwf & _).
  cbn [pvp_loop]. destruct (Z.eqb_spec (count_moves s) BOARD_FULL) as [F|F];
    [eauto|].
  destruct (input_player_move_cases (s_board s) inputs Hwf Hin)
    as [Hi|(move & rest & Hi & Hdrop & Hrest)]; rewrite Hi; cbn [rbind];
    [eauto|].
  destruct (ply_total s move Hplay Hdrop) as (s' & w & Hply).
  rewrite Hply. cbn [rbind].
  pose proof (in_play_ply _ _ _ _ Hplay Hdrop Hply) as Hplay'.
  destruct (ply_board _ _ _ _ Hply) as (_ & Hn' & _).
  assert (Hgo : exists o, pvp_loop fuel rest s' = Val o)
    by (apply IH; [assumption..|lia]).
  destruct w as [[|]|]; eauto.
Qed.

(** X10.  A Player-vs-Player game on the initial board, fed column requests
    in 1..7, leaves its loop within 43 iterations without an out-of-bounds
    access, and what it announces is right: a win is announced for the
    player who moved last, who then has four in a row while the other has
    none, and never before the 7th ply; a draw is announced only on a board
    with 42 plies played, no empty cell and no four in a row for either
    player; and while it waits for input no player has four in a row. *)
Theorem game_init_pvp_outcome (fuel : nat) (inputs : list Z) :
  Forall (fun v => 1 <= v <= 7) inputs -> (42 < fuel)%nat ->
  exists o, game_init_pvp fuel inputs board_init = Val o /\ outcome_ok o.
Proof.
  intros Hin Hfuel.
  destruct (pvp_loop_total fuel inputs session_start Hin in_play_start)
    as [o E]; [unfold BOARD_FULL, session_start; cbn [count_moves]; lia|].
  exists o. split; [exact E|].
  apply (pvp_loop_outcome fuel inputs session_start o Hin in_play_start);
    [exact quiet_board_init|exact E].
Qed.

Lemma game_init_pvp_outcome_witness :
  Forall (fun v => 1 <= v <= 7) [1; 2; 1; 2; 1; 2; 1; 5] /\ (42 < 43)%nat /\
  exists o, game_init_pvp 43 [1; 2; 1; 2; 1; 2; 1; 5] board_init = Val o /\
            outcome_ok o.
Proof.
  assert (H : Forall (fun v => 1 <= v <= 7) [1; 2; 1; 2; 1; 2; 1; 5])
    by (repeat constructor; lia).
  split; [exact H|]. split; [lia|].
  apply (game_init_pvp_outcome 43 [1; 2; 1; 2; 1; 2; 1; 5] H). lia.
Defined.

(** Player1 stacks four in column 1 on the 7th ply; the 8th request is not
    read. *)
Example game_init_pvp_column_win :
  exists s, game_init_pvp 43 [1; 2; 1; 2; 1; 2; 1; 5] board_init
            = Val (Win cell_player1 s) /\ count_moves s = 7.
Proof. eexists. split; vm_compute; reflexivity. Qed.

(** ** The games against the computer *)

Lemma ply_outcome (s : Session) move s' w :
  in_play s -> quiet (s_board s) -> is_drop (s_board s) move ->
  ply s move = Val (s', w) ->
  in_play s' /\ count_moves s' = count_moves s + 1 /\
  (w = Some true ->
   outcome_ok (Win (if turn s =? 0 then cell_player1 else cell_player2) s')) /\
  (w <> Some true -> quiet (s_board s')).
Proof.
  intros Hplay Hq Hdrop Hply.
  pose proof (in_play_ply _ _ _ _ Hplay Hdrop Hply) as Hplay'.
  destruct (in_play_inv s Hplay) as (_ & Hturn & _).
  destruct (ply_quiet s move s' w Hplay Hq Hdrop Hply) as [Hwin Hgo].
  destruct (ply_board _ _ _ _ Hply) as (_ & Hn & Ht).
  destruct (in_play_count_moves s' Hplay') as (Hn' & _).
  split; [assumption|]. split; [assumption|]. split; [|assumption].
  intros E. destruct (Hwin E) as (H7 & F1 & F2).
  cbn [outcome_ok]. split; [assumption|]. split; [lia|].
  rewrite Ht. destruct Hturn as [T|T]; rewrite T in *; cbn [Z.eqb] in *; auto.
Qed.

Lemma count_cells_pos (b : Board) v :
  (0 < count_cells b v)%nat ->
  exists r c, in_grid r c = true /\ rd b r c = Val v.
Proof.
  unfold count_cells. intros H.
  destruct (List.filter (holds b v) grid_cells) as [|[r c] l] eqn:E;
    [cbn in H; lia|].
  assert (Hin : In (r, c) (List.filter (holds b v) grid_cells))
    by (rewrite E; now left).
  apply List.filter_In in Hin as [Hin Hh].
  apply In_grid_cells in Hin. exists r, c. split; [assumption|].
  unfold holds in Hh. cbn [fst snd] in Hh.
  destruct (rd b r c) as [x| |]; try discriminate.
  apply Cell_eqb_eq in Hh. now subst.
Qed.

(** Before the 42nd ply some column has its top cell empty. *)
Lemma in_play_room (s : Session) :
  in_play s -> count_moves s <> BOARD_FULL ->
  exists col, valid_col (s_board s) col.
Proof.
  intros Hplay Hn. destruct (in_play_count_moves s Hplay) as (Hr & He).
  destruct (count_cells_pos (s_board s) cell_empty) as (r & c & Hg & Hrd);
    [lia|].
  apply in_grid_spec in Hg. exists c. split; [lia|].
  destruct (Z.eq_dec r 0) as [->|Hne]; [assumption|].
  apply (in_play_gravity s Hplay r c Hrd). lia.
Qed.

Section AiGame.
Variable ai : nat -> M (GameMove * nat).
Variable may_hang : Prop.
Hypothesis ai_safe :
  forall k (b : Board),
    wf_board b -> (exists col, valid_col b col) ->
    (may_hang /\ ai k b = Timeout) \/
    exists m k', ai k b = Val ((m, k'), b) /\ valid_drop b m.

Lemma ai_game_loop_spec (fuel : nat) :
  forall (inputs : list Z) (k : nat) (s : Session),
    Forall (fun v => 1 <= v <= 7) inputs ->
    in_play s -> quiet (s_board s) ->
    (ai_game_loop ai fuel inputs k s = Timeout /\
     (may_hang \/ Z.of_nat fuel <= BOARD_FULL - count_moves s)) \/
    exists o, ai_game_loop ai fuel inputs k s = Val o /\ outcome_ok o.
Proof.
  induction fuel as [|fuel IH]; intros inputs k s Hin Hplay Hq.
  { left. split; [reflexivity|]. right.
    destruct (in_play_count_moves s Hplay) as (Hn & _). lia. }
  destruct (in_play_inv s Hplay) as (Hwf & Hturn & _).
  destruct (in_play_count_moves s Hplay) as (Hn & He).
  cbn [ai_game_loop].
  destruct (Z.eqb_spec (count_moves s) BOARD_FULL) as [F|F].
  { right. eexists. split; [reflexivity|]. cbn [outcome_ok].
    split; [assumption|]. split; [assumption|]. split; [assumption|]. lia. }
  assert (Step : forall move rest k' p,
             is_drop (s_board s) move ->
             Forall (fun v => 1 <= v <= 7) rest ->
             p = (if turn s =? 0 then cell_player1 else cell_player2) ->
             forall result,
               result = (let* after_ply := ply s move in
                         match after_ply with
                         | (s', Some true) => Val (Win p s')
                         | (s', _) => ai_game_loop ai fuel rest k' s'
                         end) ->
               (result = Timeout /\
                (may_hang \/ Z.of_nat (S fuel) <= BOARD_FULL - count_moves s)) \/
               exists o, result = Val o /\ outcome_ok o).
  { intros move rest k' p Hdrop Hrest -> result ->.
    destruct (ply_total s move Hplay Hdrop) as (s' & w & Hply).
    rewrite Hply. cbn [rbind].
    destruct (ply_outcome s move s' w Hplay Hq Hdrop Hply)
      as (Hplay' & Hn' & Hwin & Hgo).
    assert (Go : w <> Some true ->
                 (ai_game_loop ai fuel rest k' s' = Timeout /\
                  (may_hang \/
                   Z.of_nat (S fuel) <= BOARD_FULL - count_moves s)) \/
                 exists o, ai_game_loop ai fuel rest k' s' = Val o /\
                           outcome_ok o).
    { intros Hw. destruct (IH rest k' s' Hrest Hplay' (Hgo Hw))
        as [[E [Hh|Hf]]|Hok]; [left; split; auto|left; split; [auto|]|now right].
      right. lia. }
    destruct w as [[|]|].
    - right. eexists. split; [reflexivity|]. now apply Hwin.
    - apply Go. discriminate.
    - apply Go. discriminate. }
  destruct (Z.eqb_spec (turn s) 0) as [T|T].
  - destruct (input_player_move_cases (s_board s) inputs Hwf Hin)
      as [Hi|(move & rest & Hi & Hdrop & Hrest)]; rewrite Hi; cbn [rbind].
    { right. eexists. split; [reflexivity|]. cbn [outcome_ok].
      split; [assumption|]. split; [lia|assumption]. }
    apply (Step move rest k cell_player1 Hdrop Hrest); reflexivity.
  - destruct (ai_safe k (s_board s) Hwf (in_play_room s Hplay F))
      as [[Hh E]|(m & k' & E & Hv)]; rewrite E; cbn [rbind].
    { left. split; [reflexivity|]. now left. }
    assert (Hdrop : is_drop (s_board s) m).
    { destruct Hv as [Hc Hl]. split; [assumption|].
      now apply scan_column_some. }
    replace (mkSession (s_board s) (count_moves s) (turn s)) with s
      by (destruct s; reflexivity).
    apply (Step m inputs k' cell_player2 Hdrop Hin); reflexivity.
Qed.
End AiGame.

Lemma ai_easy_move_cases (b : Board) rnd fuel :
  wf_board b -> (forall i, 0 <= rnd i) ->
  forall k,
    ai_easy_move fuel rnd k b = Timeout \/
    exists m k', ai_easy_move fuel rnd k b = Val ((m, k'), b) /\ valid_drop b m.
Proof.
  intros Hwf Hrnd. induction fuel as [|fuel IH]; intros k; [now left|].
  cbn [ai_easy_move]. rewrite bind_eq, peek_eq.
  pose proof (rem7_range (rnd k) (Hrnd k)) as Hc.
  destruct (scan_column_total b _ Hwf Hc) as [[r|] Ho]; rewrite Ho.
  - right. eexists _, _. split; [reflexivity|].
    split; [exact Hc|]. now apply scan_column_some in Ho.
  - apply IH.
Qed.

(** The Hard AI on a board with a free top cell returns a valid drop, the
    board restored, and draws no random number. *)
Lemma ai_hard_move_drop (b : Board) (fuel : nat) (rnd : nat -> Z) (k : nat) :
  wf_board b -> (count_cells b cell_empty <= fuel)%nat ->
  (exists col, valid_col b col) ->
  exists m, ai_hard_move fuel rnd k b = Val ((m, k), b) /\ valid_drop b m.
Proof.
  intros Hwf Hc (col & Hcol). unfold ai_hard_move.
  rewrite bind_eq, find_winning_move_spec by assumption.
  destruct (first_win_cases b cell_player2 Hwf) as [E2|V2].
  2:{ pose proof (valid_drop_row _ _ V2) as Hr2.
      destruct (Z.eqb_spec (row (first_win b cell_player2 cols_left_right)) (-1));
        [lia|]. cbn [negb]. eauto. }
  rewrite E2. cbn [row negb Z.eqb Pos.eqb].
  rewrite bind_eq, find_winning_move_spec by assumption.
  destruct (first_win_cases b cell_player1 Hwf) as [E1|V1].
  2:{ pose proof (valid_drop_row _ _ V1) as Hr1.
      destruct (Z.eqb_spec (row (first_win b cell_player1 cols_left_right)) (-1));
        [lia|]. cbn [negb]. eauto. }
  rewrite E1. cbn [row negb Z.eqb Pos.eqb].
  destruct (get_valid_moves_spec b Hwf) as (valid & Hv & Hall & Hin).
  rewrite bind_eq, peek_eq, Hv.
  destruct (hard_loop_spec
              (minimax fuel (SEARCH_DEPTH - 1) INT_MIN INT_MAX false cell_player2)
              (minimax_exhaustive fuel (SEARCH_DEPTH - 1) false cell_player2)
              fuel b Hwf Hc) with (cols := valid) (best := (INT_MIN, 3))
    as (best & L1 & _ & Hgood); [|assumption|].
  { intros b' Hwf' Hc'.
    destruct (minimax_full_window fuel (SEARCH_DEPTH - 1) false cell_player2 b'
                Hwf') as (e & He & Hp & Hb); [discriminate|assumption|].
    exists e. auto. }
  rewrite bind_eq, L1.
  destruct Hgood as [_ [Hbc Hbt]].
  { right. split; [reflexivity|]. intros ->.
    destruct Hcol as [Hc0 Ht0]. exact (Hin col Hc0 Ht0). }
  destruct (exists_lowest_empty b (snd best) Hwf Hbc) as [r Hr]; [eauto|].
  rewrite bind_eq, peek_eq, Hr. exists (mkMove r (snd best)).
  split; [reflexivity|]. split; [exact Hbc|].
  now apply scan_column_some in Hr.
Qed.

(** X11.  The three games against the computer, started on the initial
    board with column requests in 1..7 and non-negative [rand()] values:
    against the Medium AI, and against the Hard AI, the loop ends within 43
    iterations without an out-of-bounds access; against the Easy AI it does
    so unless a retry of [ai_easy_move] runs out; and in all three what the
    loop announces is right (a win for the player who moved last and now has
    four in a row, a draw only on a full board without four in a row). *)
Theorem game_init_vs_ai_outcome (ai_fuel fuel : nat) (rnd : nat -> Z)
        (inputs : list Z) :
  Forall (fun v => 1 <= v <= 7) inputs -> (forall i, 0 <= rnd i) ->
  (42 < fuel)%nat ->
  (game_init_easy ai_fuel fuel rnd inputs board_init = Timeout \/
   exists o, game_init_easy ai_fuel fuel rnd inputs board_init = Val o /\
             outcome_ok o) /\
  (exists o, game_init_medium ai_fuel fuel rnd inputs board_init = Val o /\
             outcome_ok o) /\
  ((42 <= ai_fuel)%nat ->
   exists o, game_init_hard ai_fuel fuel rnd inputs board_init = Val o /\
             outcome_ok o).
Proof.
  intros Hin Hrnd Hfuel.
  assert (Hroom : forall (b : Board),
             (exists col, valid_col b col) ->
             exists col r, 0 <= col < COLS /\ rd b r col = Val cell_empty).
  { intros b (col & Hc & Ht). eauto. }
  split; [|split].
  - destruct (ai_game_loop_spec (ai_easy_move ai_fuel rnd) True) with
      (fuel := fuel) (inputs := inputs) (k := 0%nat) (s := session_start)
      as [[E _]|Hok];
      [|assumption|exact in_play_start|exact quiet_board_init
       |now left|now right].
    intros k b Hwf _.
    destruct (ai_easy_move_cases b rnd ai_fuel Hwf Hrnd k) as [E|Hv];
      [now left|now right].
  - destruct (ai_game_loop_spec (ai_medium_move ai_fuel rnd) False) with
      (fuel := fuel) (inputs := inputs) (k := 0%nat) (s := session_start)
      as [[_ [[]|Hf]]|Hok];
      [|assumption|exact in_play_start|exact quiet_board_init| |exact Hok].
    + intros k b Hwf Hr. right.
      exact (ai_medium_move_drop b ai_fuel rnd k Hwf Hrnd (Hroom b Hr)).
    + unfold BOARD_FULL, session_start in Hf. cbn [count_moves] in Hf. lia.
  - intros Hai.
    destruct (ai_game_loop_spec (ai_hard_move ai_fuel rnd) False) with
      (fuel := fuel) (inputs := inputs) (k := 0%nat) (s := session_start)
      as [[_ [[]|Hf]]|Hok];
      [|assumption|exact in_play_start|exact quiet_board_init| |exact Hok].
    + intros k b Hwf Hr. right.
      pose proof (count_cells_total b Hwf) as T.
      destruct (ai_hard_move_drop b ai_fuel rnd k Hwf ltac:(lia) Hr)
        as (m & E & Hv).
      eauto.
    + unfold BOARD_FULL, session_start in Hf. cbn [count_moves] in Hf. lia.
Qed.

Lemma game_init_vs_ai_outcome_witness :
  Forall (fun v => 1 <= v <= 7) [4; 4; 3; 5] /\
  (forall i : nat, 0 <= (fun _ => 3) i) /\ (42 < 43)%nat /\
  (game_init_easy 42 43 (fun _ => 3) [4; 4; 3; 5] board_init = Timeout \/
   exists o, game_init_easy 42 43 (fun _ => 3) [4; 4; 3; 5] board_init = Val o /\
             outcome_ok o) /\
  (exists o, game_init_medium 42 43 (fun _ => 3) [4; 4; 3; 5] board_init = Val o /\
             outcome_ok o) /\
  ((42 <= 42)%nat ->
   exists o, game_init_hard 42 43 (fun _ => 3) [4; 4; 3; 5] board_init = Val o /\
             outcome_ok o).
Proof.
  assert (H : Forall (fun v => 1 <= v <= 7) [4; 4; 3; 5])
    by (repeat constructor; lia).
  assert (R : forall i : nat, 0 <= (fun _ => 3) i) by (intros; cbv beta; lia).
  split; [exact H|]. split; [exact R|]. split; [lia|].
  apply (game_init_vs_ai_outcome 42 43 (fun _ => 3) [4; 4; 3; 5] H R). lia.
Defined.

(** ** The earlier revision of the win check *)

Section LegacyCountRun.
Variables (guard : Z -> Z -> bool) (dr dc : Z) (b : Board) (p : Cell).
Hypothesis Hwf : wf_board b.
Hypothesis Hdir : dr <> 0 \/ dc <> 0.
Hypothesis Hguard :
  forall r c, in_grid r c = true -> guard r c = in_grid (r + dr) (c + dc).

(** The earlier loop stops counting at [WIN_COUNT]. *)
Lemma legacy_count_run_spec fuel r c count :
  in_grid r c = true ->
  steps_left dr dc r c < Z.of_nat fuel ->
  count <= WIN_COUNT ->
  Legacy.count_run fuel guard dr dc b p r c count
  = Val (Z.min WIN_COUNT (count + run_len fuel b p r c dr dc)).
Proof.
  revert r c count. induction fuel as [|fuel IH]; intros r c count Hg Hs Hcnt.
  - apply in_grid_spec in Hg. unfold steps_left, ROWS, COLS in *.
    destruct (dr >? 0), (dr <? 0), (dc >? 0), (dc <? 0); lia.
  - cbn [Legacy.count_run run_len]. rewrite (Hguard _ _ Hg).
    unfold holds. cbn [fst snd].
    destruct (in_grid (r + dr) (c + dc)) eqn:Hg'.
    + destruct (rd_total b _ _ Hwf Hg') as [v Hv]. rewrite Hv. cbn [rbind].
      pose proof (run_len_nonneg fuel b p (r + dr) (c + dc) dr dc) as Hn.
      destruct (Cell_eqb v p); cbn [andb].
      * destruct (Z.ltb_spec count WIN_COUNT).
        -- rewrite IH; [f_equal; lia | assumption | | lia].
           apply in_grid_spec in Hg, Hg'. unfold steps_left, ROWS, COLS in *.
           destruct (Z.gtb_spec dr 0), (Z.ltb_spec dr 0),
                    (Z.gtb_spec dc 0), (Z.ltb_spec dc 0); lia.
        -- f_equal. lia.
      * f_equal. lia.
    + unfold rd. rewrite Hg'. f_equal. lia.
Qed.

(** One walk of the earlier revision from the placed piece: the count
    reaches [WIN_COUNT] exactly when the three cells beyond the piece hold
    the player. *)
Lemma legacy_walk r c :
  in_grid r c = true -> holds b p (r, c) = true ->
  exists n,
    Legacy.count_run LOOP_FUEL guard dr dc b p r c 1 = Val n /\
    (n =? WIN_COUNT) = List.forallb (holds b p) (window_cells r c dr dc).
Proof.
  intros Hg H0. eexists. split.
  - apply legacy_count_run_spec; [assumption| |unfold WIN_COUNT; lia].
    apply in_grid_spec in Hg. unfold steps_left, ROWS, COLS, LOOP_FUEL in *.
    destruct (dr >? 0), (dr <? 0), (dc >? 0), (dc <? 0); lia.
  - pose proof (run_len_min3 10 b p r c dr dc) as E. fold LOOP_FUEL in E.
    pose proof (run_len_nonneg LOOP_FUEL b p r c dr dc) as Hn.
    set (e := run_len LOOP_FUEL b p r c dr dc) in *.
    unfold window_cells. change (upto 0 4) with [0; 1; 2; 3].
    cbn [List.forallb map].
    replace (r + 0 * dr) with r by lia. replace (c + 0 * dc) with c by lia.
    rewrite H0. cbn [andb]. unfold WIN_COUNT.
    destruct (holds b p (r + 1 * dr, c + 1 * dc)); cbn [andb];
      [|apply Z.eqb_neq; lia].
    destruct (holds b p (r + 2 * dr, c + 2 * dc)); cbn [andb];
      [|apply Z.eqb_neq; lia].
    destruct (holds b p (r + 3 * dr, c + 3 * dc)); cbn [andb];
      [apply Z.eqb_eq; lia|apply Z.eqb_neq; lia].
Qed.
End LegacyCountRun.

Lemma forallb_window_rev (b : Board) p r c dr dc :
  List.forallb (holds b p) (window_cells r c (- dr) (- dc)) = true ->
  List.forallb (holds b p) (window_cells (r - 3 * dr) (c - 3 * dc) dr dc)
  = true.
Proof.
  rewrite !List.forallb_forall. intros H x Hx. apply H.
  unfold window_cells in *. apply in_map_iff in Hx as (i & <- & Hi).
  apply In_upto in Hi. apply in_map_iff. exists (3 - i). split.
  - f_equal; lia.
  - apply In_upto. lia.
Qed.

Lemma four_from_through (b : Board) p r c :
  four_from b p r c = true -> four_through b p r c = true.
Proof.
  unfold four_from, directions8. cbn [List.existsb fst snd].
  assert (Fwd : forall dr dc,
             In (dr, dc) axes ->
             List.forallb (holds b p) (window_cells r c dr dc) = true ->
             four_through b p r c = true).
  { intros dr dc Hin H. unfold four_through.
    apply List.existsb_exists. exists (dr, dc). split; [assumption|].
    apply List.existsb_exists. exists 0. split; [now left|].
    cbn [fst snd]. replace (r - 0 * dr) with r by lia.
    now replace (c - 0 * dc) with c by lia. }
  assert (Bwd : forall dr dc,
             In (dr, dc) axes ->
             List.forallb (holds b p) (window_cells r c (- dr) (- dc)) = true ->
             four_through b p r c = true).
  { intros dr dc Hin H. unfold four_through.
    apply List.existsb_exists. exists (dr, dc). split; [assumption|].
    apply List.existsb_exists. exists 3. split; [cbn; auto|].
    cbn [fst snd]. now apply forallb_window_rev. }
  intros H. repeat (apply orb_prop in H as [H|H]); try discriminate.
  - apply (Fwd 1 0); [cbn; auto|exact H].
  - apply (Bwd 1 0); [cbn; auto|exact H].
  - apply (Fwd 0 1); [cbn; auto|exact H].
  - apply (Bwd 0 1); [cbn; auto|exact H].
  - apply (Fwd 1 1); [cbn; auto|exact H].
  - apply (Bwd 1 1); [cbn; auto|exact H].
  - apply (Bwd (-1) 1); [cbn; auto|exact H].
  - apply (Fwd (-1) 1); [cbn; auto|exact H].
Qed.

Ltac legacy_walk_step Hwf Hg H0 dr dc :=
  let n := fresh "n" in let E := fresh "E" in let W := fresh "W" in
  match goal with
  | |- context [Legacy.count_run LOOP_FUEL ?g dr dc ?b ?p ?r0 ?c0 1] =>
      assert (W : exists n,
                 Legacy.count_run LOOP_FUEL g dr dc b p r0 c0 1 = Val n /\
                 (n =? WIN_COUNT)
                 = List.forallb (holds b p) (window_cells r0 c0 dr dc))
        by (apply legacy_walk;
            first [ exact Hwf | exact Hg | exact H0 | lia
                  | let r' := fresh "r" in let c' := fresh "c" in
                    let H := fresh "H" in
                    intros r' c' H; apply in_grid_spec in H;
                    unfold in_grid, ROWS, COLS in *; lia ]);
      destruct W as (n & E & W);
      rewrite E; cbn [rbind]; rewrite W; clear n E W
  end.

(** X12.  The earlier revision of [check_winner], called on the piece just
    placed, returns without leaving the grid, and returns 1 exactly when
    that piece is an end cell of four in line (one of the eight walks from
    it finds three more); so whenever it reports a win the board has four
    in a row through the piece and the current revision reports it too. *)
Theorem legacy_check_winner_end_cell (b : Board) (m : GameMove) (p : Cell) :
  wf_board b -> rd b (row m) (column m) = Val p ->
  Legacy.check_winner b m p = Val (four_from b p (row m) (column m)) /\
  (Legacy.check_winner b m p = Val true -> check_winner b m p = Val true).
Proof.
  intros Hwf Hr.
  pose proof (rd_in_grid _ _ _ _ Hr) as Hg.
  assert (H0 : holds b p (row m, column m) = true)
    by (rewrite (holds_rd _ _ _ _ _ Hr); apply Cell_eqb_refl).
  assert (E : Legacy.check_winner b m p
              = Val (four_from b p (row m) (column m))).
  { unfold Legacy.check_winner, Legacy.check_vertical, Legacy.check_horizontal,
      Legacy.check_diagonal, four_from, directions8.
    cbn [List.existsb fst snd].
    legacy_walk_step Hwf Hg H0 1 0.
    destruct (List.forallb _ (window_cells _ _ 1 0)); [reflexivity|].
    legacy_walk_step Hwf Hg H0 (-1) 0.
    destruct (List.forallb _ (window_cells _ _ (-1) 0)); [reflexivity|].
    cbn [rbind orb].
    legacy_walk_step Hwf Hg H0 0 1.
    destruct (List.forallb _ (window_cells _ _ 0 1)); [reflexivity|].
    legacy_walk_step Hwf Hg H0 0 (-1).
    destruct (List.forallb _ (window_cells _ _ 0 (-1))); [reflexivity|].
    cbn [rbind orb].
    legacy_walk_step Hwf Hg H0 1 1.
    destruct (List.forallb _ (window_cells _ _ 1 1)); [reflexivity|].
    legacy_walk_step Hwf Hg H0 (-1) (-1).
    destruct (List.forallb _ (window_cells _ _ (-1) (-1))); [reflexivity|].
    legacy_walk_step Hwf Hg H0 1 (-1).
    destruct (List.forallb _ (window_cells _ _ 1 (-1))); [reflexivity|].
    legacy_walk_step Hwf Hg H0 (-1) 1.
    destruct (List.forallb _ (window_cells _ _ (-1) 1)); reflexivity. }
  split; [exact E|].
  rewrite E. intros [= F].
  rewrite (check_winner_iff_four b m p Hwf Hr). f_equal.
  now apply four_from_through.
Qed.

Lemma legacy_check_winner_end_cell_witness :
  wf_board Examples.board_split_run /\
  rd Examples.board_split_run 5 2 = Val cell_player1 /\
  Legacy.check_winner Examples.board_split_run (mkMove 5 2) cell_player1
  = Val (four_from Examples.board_split_run cell_player1 5 2) /\
  (Legacy.check_winner Examples.board_split_run (mkMove 5 2) cell_player1
   = Val true ->
   check_winner Examples.board_split_run (mkMove 5 2) cell_player1 = Val true).
Proof.
  split; [exact wf_board_split_run|]. split; [reflexivity|].
  apply (legacy_check_winner_end_cell Examples.board_split_run (mkMove 5 2)
           cell_player1 wf_board_split_run).
  reflexivity.
Defined.

(** ** The strategic move of the Medium AI *)

Lemma count_threats_value (b : Board) r col p :
  wf_board b -> rd b r col = Val cell_empty ->
  count_threats r col p b = Val (threat_value b p r col, b) /\
  0 <= threat_value b p r col.
Proof.
  intros Hwf He. pose proof (rd_in_grid _ _ _ _ He) as Hg.
  destruct (wr_total b r col p Hwf Hg) as [b' Hb'].
  pose proof (wr_wf _ _ _ _ _ Hwf Hb') as Hwf'.
  unfold count_threats, threat_value. unfold bind at 1, store at 1.
  rewrite Hb'.
  do 4 peek_loop Hwf' Hg.
  unfold bind, store, ret. rewrite (wr_undo _ _ _ _ _ _ He Hb').
  pose proof (run_len_nonneg LOOP_FUEL b' p r col 0 1).
  pose proof (run_len_nonneg LOOP_FUEL b' p r col 0 (-1)).
  pose proof (run_len_nonneg LOOP_FUEL b' p r col 1 0).
  pose proof (run_len_nonneg LOOP_FUEL b' p r col (-1) 0).
  set (h1 := run_len LOOP_FUEL b' p r col 0 1) in *.
  set (h2 := run_len LOOP_FUEL b' p r col 0 (-1)) in *.
  set (v1 := run_len LOOP_FUEL b' p r col 1 0) in *.
  set (v2 := run_len LOOP_FUEL b' p r col (-1) 0) in *.
  cbn zeta.
  destruct (Z.geb_spec (1 + h1 + h2) 2), (Z.geb_spec (1 + v1 + v2) 2);
    (split; [do 2 f_equal|]); lia.
Qed.

Lemma strategic_score_nonneg (b : Board) p col s :
  wf_board b -> 0 <= col < COLS ->
  strategic_score b p col = Some s -> 0 <= s.
Proof.
  intros Hwf Hc. unfold strategic_score.
  destruct (scan_column b col) as [[r|]| |] eqn:Hs; try discriminate.
  apply scan_column_some in Hs; [|assumption..].
  destruct (count_threats_value b r col p Hwf (proj1 Hs)) as [_ Ht].
  pose proof (center_bonus_nonneg col). intros [= <-]. lia.
Qed.

Lemma strategic_cols_argmax p (b : Board) n :
  wf_board b ->
  forall lo best,
    0 <= lo -> lo + Z.of_nat n <= COLS ->
    strategic_best b p lo best ->
    exists best',
      strategic_cols p (upto lo n) best b = Val (best', b) /\
      strategic_best b p (lo + Z.of_nat n) best'.
Proof.
  intros Hwf. induction n as [|n IH]; intros lo best Hlo Hhi Hinv.
  { exists best. split; [reflexivity|]. now rewrite Z.add_0_r. }
  cbn [upto strategic_cols]. rewrite bind_eq, strategic_rows_scan.
  fold (scan_column b lo).
  assert (Hc : 0 <= lo < COLS) by lia.
  assert (Next : forall best1,
             strategic_best b p (lo + 1) best1 ->
             exists best',
               strategic_cols p (upto (lo + 1) n) best1 b = Val (best', b) /\
               strategic_best b p (lo + Z.of_nat (S n)) best').
  { intros best1 H1. destruct (IH (lo + 1) best1) as (best' & E & I);
      [lia|lia|assumption|].
    exists best'. split; [exact E|].
    now replace (lo + Z.of_nat (S n)) with (lo + 1 + Z.of_nat n) by lia. }
  pose proof (strategic_score_nonneg b p lo) as Hnn.
  destruct (scan_column_total b lo Hwf Hc) as [[r|] Ho]; rewrite Ho.
  - pose proof Ho as Hl. apply scan_column_some in Hl; [|assumption..].
    destruct (count_threats_value b r lo p Hwf (proj1 Hl)) as [Et _].
    assert (Es : strategic_score b p lo
                 = Some (threat_value b p r lo + center_bonus lo))
      by (unfold strategic_score; now rewrite Ho).
    specialize (Hnn _ Hwf Hc Es).
    rewrite bind_eq, Et. cbn zeta.
    set (s := threat_value b p r lo + center_bonus lo) in *.
    destruct (Z.gtb_spec s (fst best)) as [Hgt|Hle]; unfold ret; apply Next.
    + right. cbn [fst snd row column].
      split; [lia|]. split; [assumption|]. split; [assumption|].
      intros c s' Hcr Hs'.
      destruct (Z.eq_dec c lo) as [->|Hne].
      * rewrite Es in Hs'. injection Hs' as <-. lia.
      * destruct Hinv as [(_ & _ & Hnone)|(_ & _ & _ & Hmax)].
        -- rewrite Hnone in Hs' by lia. discriminate.
        -- destruct (Hmax c s' ltac:(lia) Hs'). lia.
    + destruct Hinv as [(Hm & _ & _)|(Hcol & Hsc & Hss & Hmax)]; [lia|].
      right. split; [lia|]. split; [assumption|]. split; [assumption|].
      intros c s' Hcr Hs'.
      destruct (Z.eq_dec c lo) as [->|Hne].
      * rewrite Es in Hs'. injection Hs' as <-. lia.
      * apply Hmax; [lia|assumption].
  - apply Next.
    assert (En : strategic_score b p lo = None)
      by (unfold strategic_score; now rewrite Ho).
    destruct Hinv as [(Hm & Hsn & Hnone)|(Hcol & Hsc & Hss & Hmax)].
    + left. split; [assumption|]. split; [assumption|].
      intros c Hcr. destruct (Z.eq_dec c lo) as [->|Hne];
        [assumption|apply Hnone; lia].
    + right. split; [lia|]. split; [assumption|]. split; [assumption|].
      intros c s' Hcr Hs'.
      destruct (Z.eq_dec c lo) as [->|Hne]; [congruence|].
      apply Hmax; [lia|assumption].
Qed.

(** X13.  [find_best_strategic_move] puts the board back and returns the
    drop into the leftmost column among those with the highest score, the
    score of a column with room being what [count_threats] returns for its
    landing cell plus the centre bonus; it returns the sentinel [{-1, -1}]
    exactly when every column is full. *)
Theorem find_best_strategic_move_argmax (b : Board) (p : Cell) :
  wf_board b ->
  (forall col r,
      0 <= col < COLS -> lowest_empty b col r ->
      exists t, count_threats r col p b = Val (t, b) /\
                strategic_score b p col = Some (t + center_bonus col)) /\
  exists m,
    find_best_strategic_move p b = Val (m, b) /\
    ((m = mkMove (-1) (-1) /\ forall col, 0 <= col < COLS -> column_full b col) \/
     (valid_drop b m /\
      exists s,
        strategic_score b p (column m) = Some s /\
        forall col s',
          0 <= col < COLS -> strategic_score b p col = Some s' ->
          s' <= s /\ (s' = s -> column m <= col))).
Proof.
  intros Hwf. split.
  { intros col r Hc Hl.
    destruct (count_threats_value b r col p Hwf (proj1 Hl)) as [Et _].
    exists (threat_value b p r col). split; [exact Et|].
    apply scan_column_some in Hl; [|assumption..].
    unfold strategic_score. now rewrite Hl. }
  destruct (strategic_cols_argmax p b (Z.to_nat COLS) Hwf 0
              (-1, mkMove (-1) (-1))) as (best & E & I);
    [lia|unfold COLS; lia| |].
  { left. split; [reflexivity|]. split; [reflexivity|]. intros c Hc. lia. }
  replace (0 + Z.of_nat (Z.to_nat COLS)) with COLS in I by (unfold COLS; lia).
  exists (snd best). unfold find_best_strategic_move.
  fold cols_left_right in E. rewrite bind_eq, E. split; [reflexivity|].
  destruct I as [(_ & Hs & Hnone)|(Hcol & Hsc & Hss & Hmax)].
  - left. split; [assumption|]. intros col Hc.
    specialize (Hnone col Hc). unfold strategic_score in Hnone.
    destruct (scan_column_total b col Hwf Hc) as [[r|] Ho];
      rewrite Ho in Hnone; [discriminate|].
    now apply scan_column_none in Ho.
  - right. split.
    + split; [assumption|]. now apply scan_column_some in Hsc.
    + exists (fst best). split; assumption.
Qed.

Lemma find_best_strategic_move_argmax_witness :
  wf_board Examples.board_p2_three /\
  (forall col r,
      0 <= col < COLS -> lowest_empty Examples.board_p2_three col r ->
      exists t,
        count_threats r col cell_player2 Examples.board_p2_three
        = Val (t, Examples.board_p2_three) /\
        strategic_score Examples.board_p2_three cell_player2 col
        = Some (t + center_bonus col)) /\
  exists m,
    find_best_strategic_move cell_player2 Examples.board_p2_three
    = Val (m, Examples.board_p2_three) /\
    ((m = mkMove (-1) (-1) /\
      forall col, 0 <= col < COLS -> column_full Examples.board_p2_three col) \/
     (valid_drop Examples.board_p2_three m /\
      exists s,
        strategic_score Examples.board_p2_three cell_player2 (column m) = Some s /\
        forall col s',
          0 <= col < COLS ->
          strategic_score Examples.board_p2_three cell_player2 col = Some s' ->
          s' <= s /\ (s' = s -> column m <= col))).
Proof.
  split; [exact wf_board_p2_three|].
  apply (find_best_strategic_move_argmax Examples.board_p2_three cell_player2
           wf_board_p2_three).
Defined.

(** ** The Hard AI's choice is the best drop *)

Lemma holds_empty_top (b : Board) c :
  holds b cell_empty (0, c) = true <-> rd b 0 c = Val cell_empty.
Proof.
  unfold holds. cbn [fst snd]. split.
  - destruct (rd b 0 c) as [v| |]; try discriminate.
    intros H. apply Cell_eqb_eq in H. now subst.
  - intros ->. reflexivity.
Qed.

(** [get_valid_moves] lists the columns with an empty top cell in ascending
    order. *)
Lemma get_valid_moves_upto (b : Board) n :
  wf_board b ->
  forall lo,
    0 <= lo -> lo + Z.of_nat n <= COLS ->
    get_valid_moves_from b (upto lo n)
    = Val (List.filter (fun c => holds b cell_empty (0, c)) (upto lo n)).
Proof.
  intros Hwf. induction n as [|n IH]; intros lo Hlo Hhi; [reflexivity|].
  cbn [upto get_valid_moves_from List.filter].
  rewrite IH by lia.
  destruct (rd_total b 0 lo Hwf) as [v Hv];
    [apply in_grid_spec; unfold ROWS; lia|].
  rewrite Hv. cbn [rbind]. now rewrite (holds_rd _ _ _ _ _ Hv).
Qed.

Lemma hard_loop_argmax (fuel : nat) (b : Board) n :
  wf_board b -> (count_cells b cell_empty <= fuel)%nat ->
  forall lo best,
    0 <= lo -> lo + Z.of_nat n <= COLS ->
    hard_best fuel b lo best ->
    exists best',
      hard_loop
        (minimax fuel (SEARCH_DEPTH - 1) INT_MIN INT_MAX false cell_player2)
        (List.filter (fun c => holds b cell_empty (0, c)) (upto lo n)) best b
      = Val (best', b) /\
      hard_best fuel b (lo + Z.of_nat n) best'.
Proof.
  intros Hwf Hcnt. induction n as [|n IH]; intros lo best Hlo Hhi Hinv.
  { exists best. split; [reflexivity|]. now rewrite Z.add_0_r. }
  assert (Next : forall best1,
             hard_best fuel b (lo + 1) best1 ->
             exists best',
               hard_loop
                 (minimax fuel (SEARCH_DEPTH - 1) INT_MIN INT_MAX false
                          cell_player2)
                 (List.filter (fun c => holds b cell_empty (0, c))
                              (upto (lo + 1) n)) best1 b
               = Val (best', b) /\
               hard_best fuel b (lo + Z.of_nat (S n)) best').
  { intros best1 H1. destruct (IH (lo + 1) best1) as (best' & E & I);
      [lia|lia|assumption|].
    exists best'. split; [exact E|].
    now replace (lo + Z.of_nat (S n)) with (lo + 1 + Z.of_nat n) by lia. }
  cbn [upto List.filter].
  destruct (holds b cell_empty (0, lo)) eqn:Hh.
  - apply holds_empty_top in Hh.
    assert (Hv : valid_col b lo) by (split; [lia|assumption]).
    destruct (make_move_valid b lo cell_player2 Hwf (proj1 Hv) Hh)
      as (r & b' & Hm & Hwf' & Hc' & Hu); [discriminate|].
    destruct (minimax_full_window fuel (SEARCH_DEPTH - 1) false cell_player2 b'
                Hwf') as (e & Hex & Hpr & Hbd); [discriminate|lia|].
    assert (Ed : drop_value fuel b lo = Some e)
      by (unfold drop_value; now rewrite Hm, Hex).
    cbn [hard_loop]. rewrite bind_eq, Hm, bind_eq, Hpr, bind_eq, Hu.
    apply Next. unfold bounded, SCORE_BOUND in Hbd.
    destruct (Z.gtb_spec e (fst best)) as [Hgt|Hle].
    + right. cbn [fst snd]. split; [lia|]. split; [assumption|].
      split; [assumption|]. intros c Hc Hvc.
      destruct (Z.eq_dec c lo) as [->|Hne].
      * exists e. split; [assumption|]. lia.
      * destruct Hinv as [(_ & Hnone)|(_ & _ & _ & Hmax)].
        -- exfalso. apply (Hnone c); [lia|assumption].
        -- destruct (Hmax c ltac:(lia) Hvc) as (e' & E' & L & _).
           exists e'. split; [assumption|]. lia.
    + destruct Hinv as [(Hm0 & _)|(Hb & Hbv & Hbd' & Hmax)];
        [unfold INT_MIN in Hm0; lia|].
      right. split; [lia|]. split; [assumption|]. split; [assumption|].
      intros c Hc Hvc.
      destruct (Z.eq_dec c lo) as [->|Hne].
      * exists e. split; [assumption|]. lia.
      * apply Hmax; [lia|assumption].
  - assert (Hnv : ~ valid_col b lo).
    { intros [_ Ht]. apply holds_empty_top in Ht. congruence. }
    apply Next.
    destruct Hinv as [(Hm0 & Hnone)|(Hb & Hbv & Hbd' & Hmax)].
    + left. split; [assumption|]. intros c Hc.
      destruct (Z.eq_dec c lo) as [->|Hne]; [assumption|apply Hnone; lia].
    + right. split; [lia|]. split; [assumption|]. split; [assumption|].
      intros c Hc Hvc.
      destruct (Z.eq_dec c lo) as [->|Hne]; [contradiction|].
      apply Hmax; [lia|assumption].
Qed.

(** X14.  When neither player has a winning drop and some column has room,
    the Hard AI returns, with the board restored and no random number
    drawn, the drop into the column whose exhaustive minimax value
    ([SEARCH_DEPTH - 1] plies after the drop, the opponent to move) is the
    highest, the leftmost of them on a tie. *)
Theorem ai_hard_move_minimax_optimal (b : Board) (fuel : nat)
        (rnd : nat -> Z) (k : nat) :
  wf_board b -> (count_cells b cell_empty <= fuel)%nat ->
  (forall col r, 0 <= col < COLS -> ~ winning_drop b cell_player2 col r) ->
  (forall col r, 0 <= col < COLS -> ~ winning_drop b cell_player1 col r) ->
  (exists col, valid_col b col) ->
  exists m e,
    ai_hard_move fuel rnd k b = Val ((m, k), b) /\
    valid_drop b m /\
    drop_value fuel b (column m) = Some e /\
    forall col,
      valid_col b col ->
      exists e', drop_value fuel b col = Some e' /\ e' <= e /\
                 (e' = e -> column m <= col).
Proof.
  intros Hwf Hcnt Hno2 Hno1 (col0 & Hv0).
  destruct (hard_loop_argmax fuel b (Z.to_nat COLS) Hwf Hcnt 0 (INT_MIN, 3))
    as (best & E & I); [lia|unfold COLS; lia| |].
  { left. split; [reflexivity|]. intros c Hc. lia. }
  replace (0 + Z.of_nat (Z.to_nat COLS)) with COLS in I by (unfold COLS; lia).
  fold cols_left_right in E.
  destruct I as [(_ & Hnone)|(Hb & Hbv & Hbd & Hmax)].
  { exfalso. apply (Hnone col0); [apply Hv0|assumption]. }
  destruct (exists_lowest_empty b (snd best) Hwf (proj1 Hbv)) as [r Hr];
    [exists 0; apply Hbv|].
  exists (mkMove r (snd best)), (fst best).
  split; [|split; [|split]].
  - unfold ai_hard_move.
    rewrite bind_eq, find_winning_move_spec by assumption.
    rewrite (first_win_none b cell_player2 Hwf Hno2).
    cbn [row negb Z.eqb Pos.eqb].
    rewrite bind_eq, find_winning_move_spec by assumption.
    rewrite (first_win_none b cell_player1 Hwf Hno1).
    cbn [row negb Z.eqb Pos.eqb].
    rewrite bind_eq, peek_eq. unfold get_valid_moves, cols_left_right.
    rewrite (get_valid_moves_upto b (Z.to_nat COLS) Hwf 0)
      by (unfold COLS; lia).
    fold cols_left_right. rewrite bind_eq, E, bind_eq, peek_eq, Hr.
    reflexivity.
  - split; [exact (proj1 Hbv)|]. now apply scan_column_some in Hr.
  - exact Hbd.
  - intros col Hv. apply Hmax; [apply Hv|assumption].
Qed.

Lemma ai_hard_move_minimax_optimal_witness :
  wf_board Examples.board_one_piece /\
  (count_cells Examples.board_one_piece cell_empty <= 42)%nat /\
  (exists col, valid_col Examples.board_one_piece col) /\
  exists m e,
    ai_hard_move 42 (fun _ => 0) 0 Examples.board_one_piece
    = Val ((m, 0%nat), Examples.board_one_piece) /\
    valid_drop Examples.board_one_piece m /\
    drop_value 42 Examples.board_one_piece (column m) = Some e /\
    forall col,
      valid_col Examples.board_one_piece col ->
      exists e', drop_value 42 Examples.board_one_piece col = Some e' /\
                 e' <= e /\ (e' = e -> column m <= col).
Proof.
  assert (Hc : (count_cells Examples.board_one_piece cell_empty <= 42)%nat)
    by (vm_compute; lia).
  assert (Hv : exists col, valid_col Examples.board_one_piece col).
  { exists 0. split; [unfold COLS; lia|reflexivity]. }
  split; [exact wf_board_one_piece|]. split; [exact Hc|]. split; [exact Hv|].
  apply (ai_hard_move_minimax_optimal Examples.board_one_piece 42 (fun _ => 0)
           0%nat wf_board_one_piece Hc).
  - apply no_winning_drop_by_wins_at; [exact wf_board_one_piece|].
    vm_compute. reflexivity.
  - apply no_winning_drop_by_wins_at; [exact wf_board_one_piece|].
    vm_compute. reflexivity.
  - exact Hv.
Defined.

(** ** The Medium AI without a forced move *)

Lemma shuffle_cursor rnd :
  forall idxs k (a a' : list Z) k',
    shuffle rnd k idxs a = Val (a', k') -> k' = (k + length idxs)%nat.
Proof.
  intros idxs. induction idxs as [|i idxs IH]; intros k a a' k' E.
  - injection E as _ <-. cbn [length]. lia.
  - cbn [shuffle] in E.
    destruct (arr_get a i) as [ai| |]; cbn [rbind] in E; try discriminate.
    destruct (arr_get a (Z.rem (rnd k) 7)) as [aj| |]; cbn [rbind] in E;
      try discriminate.
    destruct (arr_set a i aj) as [a1| |]; cbn [rbind] in E; try discriminate.
    destruct (arr_set a1 (Z.rem (rnd k) 7) ai) as [a2| |]; cbn [rbind] in E;
      try discriminate.
    apply IH in E. cbn [length]. lia.
Qed.

(** What [first_open] returns is the first entry of the array, in index
    order, whose column has room. *)
Lemma first_open_first (b : Board) (a : list Z) idxs :
  wf_board b -> length a = 7%nat ->
  (forall x, x ∈ a -> 0 <= x < COLS) ->
  Forall (fun i => 0 <= i < 7) idxs ->
  forall m,
    first_open b a idxs = Val (Some m) ->
    valid_drop b m /\
    exists pre i post,
      idxs = pre ++ i :: post /\
      a !! Z.to_nat i = Some (column m) /\
      forall j col, In j pre -> a !! Z.to_nat j = Some col -> column_full b col.
Proof.
  intros Hwf Hlen Hrange Hall.
  induction Hall as [|i idxs Hi Hall IH]; intros m E; [discriminate|].
  cbn [first_open] in E.
  destruct (arr_get_ok a i Hlen Hi) as (col & Eg & Lc). rewrite Eg in E.
  cbn [rbind] in E.
  assert (Hc : 0 <= col < COLS)
    by (apply Hrange; eapply list_elem_of_lookup_2; eauto).
  destruct (scan_column_total b col Hwf Hc) as [[r|] Ho]; rewrite Ho in E;
    cbn [rbind] in E.
  - injection E as <-. apply scan_column_some in Ho; [|assumption..].
    split; [split; assumption|].
    exists [], i, idxs. split; [reflexivity|]. split; [exact Lc|].
    intros j c [].
  - destruct (IH m E) as (Hv & pre & i' & post & -> & Li & Hfull).
    split; [assumption|].
    exists (i :: pre), i', post. split; [reflexivity|]. split; [exact Li|].
    intros j c [<-|Hin] Hl.
    + rewrite Lc in Hl. injection Hl as <-. now apply scan_column_none in Ho.
    + eauto.
Qed.

(** The entries of [upto] before a given one are the smaller ones. *)
Lemma upto_prefix n :
  forall lo pre i post,
    upto lo n = pre ++ i :: post ->
    forall x, lo <= x < i -> In x pre.
Proof.
  induction n as [|n IH]; intros lo pre i post E x Hx.
  - destruct pre; discriminate.
  - cbn [upto] in E. destruct pre as [|p pre].
    + injection E as -> _. lia.
    + injection E as <- E. destruct (Z.eq_dec x lo) as [->|Hne];
        [now left|right].
      apply (IH (lo + 1) pre i post E). lia.
Qed.

(** X15.  The Medium AI when neither player has a winning drop and some
    column has room: [find_best_strategic_move] finds a drop, one random
    number is drawn, and if it is below 70 modulo 100 that drop is
    returned; otherwise seven more numbers are drawn for the shuffle, the
    shuffled list still holds every column, and the drop into its first
    column with room is returned.  The fall-back call of [ai_easy_move] is
    not reached, and the board is as before. *)
Theorem ai_medium_move_strategic_or_shuffled (b : Board) (fuel : nat)
        (rnd : nat -> Z) (k : nat) :
  wf_board b -> (forall n, 0 <= rnd n) ->
  (forall col r, 0 <= col < COLS -> ~ winning_drop b cell_player2 col r) ->
  (forall col r, 0 <= col < COLS -> ~ winning_drop b cell_player1 col r) ->
  (exists col r, 0 <= col < COLS /\ rd b r col = Val cell_empty) ->
  exists sm,
    find_best_strategic_move cell_player2 b = Val (sm, b) /\
    valid_drop b sm /\
    (Z.rem (rnd k) 100 < 70 ->
     ai_medium_move fuel rnd k b = Val ((sm, S k), b)) /\
    (70 <= Z.rem (rnd k) 100 ->
     exists a m,
       shuffle rnd (S k) (upto 0 7) [3; 2; 4; 1; 5; 0; 6]
       = Val (a, (k + 8)%nat) /\
       length a = 7%nat /\ (forall x, x ∈ a <-> 0 <= x < COLS) /\
       ai_medium_move fuel rnd k b = Val ((m, (k + 8)%nat), b) /\
       valid_drop b m /\
       exists i,
         a !! i = Some (column m) /\
         forall j col, (j < i)%nat -> a !! j = Some col -> column_full b col).
Proof.
  intros Hwf Hrnd Hno2 Hno1 Hroom.
  destruct (find_best_strategic_move_spec cell_player2 b Hwf)
    as (sm & Es & _ & Vs).
  specialize (Vs Hroom). pose proof (valid_drop_row _ _ Vs) as Hrs.
  exists sm. split; [exact Es|]. split; [exact Vs|].
  assert (Head : ai_medium_move fuel rnd k b
                 = (if Z.rem (rnd k) 100 <? 70 then ret (sm, S k) else
                    do sh <- peek (fun _ => shuffle rnd (S k) (upto 0 7)
                                              [3; 2; 4; 1; 5; 0; 6]) in
                    let (center_preference, k0) := (sh : list Z * nat) in
                    do found <- peek (fun b => first_open b center_preference
                                                 (upto 0 7)) in
                    match found with
                    | Some m => ret (m, k0)
                    | None => ai_easy_move fuel rnd k0
                    end) b).
  { unfold ai_medium_move.
    rewrite bind_eq, find_winning_move_spec by assumption.
    rewrite (first_win_none b cell_player2 Hwf Hno2).
    cbn [row negb Z.eqb Pos.eqb].
    rewrite bind_eq, find_winning_move_spec by assumption.
    rewrite (first_win_none b cell_player1 Hwf Hno1).
    cbn [row negb Z.eqb Pos.eqb].
    rewrite bind_eq, Es.
    destruct (Z.eqb_spec (row sm) (-1)); [lia|]. cbn [negb andb].
    reflexivity. }
  split.
  - intros Hlt. rewrite Head.
    destruct (Z.ltb_spec (Z.rem (rnd k) 100) 70); [reflexivity|lia].
  - intros Hge.
    destruct (shuffle_spec rnd Hrnd (upto 0 7) (S k) [3; 2; 4; 1; 5; 0; 6])
      as (a & k' & Esh & Lsh & Msh); [apply (upto_range 0 7)|reflexivity|].
    pose proof (shuffle_cursor _ _ _ _ _ _ Esh) as Hk.
    change (length (upto 0 7)) with 7%nat in Hk.
    replace k' with (k + 8)%nat in Esh by lia. clear k' Hk.
    assert (Hmem : forall x, x ∈ a <-> 0 <= x < COLS).
    { intros x. rewrite Msh. unfold COLS. split.
      - intros Hx.
        repeat (apply elem_of_cons in Hx as [->|Hx]; [lia|]).
        now apply elem_of_nil in Hx.
      - intros Hx.
        assert (x = 0 \/ x = 1 \/ x = 2 \/ x = 3 \/ x = 4 \/ x = 5 \/ x = 6)
          as Hcases by lia.
        destruct Hcases as [->|[->|[->|[->|[->|[->| ->]]]]]];
          repeat first [apply list_elem_of_here | apply list_elem_of_further]. }
    assert (Hrange : forall x, x ∈ a -> 0 <= x < COLS)
      by (intros x; apply Hmem).
    destruct (first_open_spec b a (upto 0 7) Hwf Lsh Hrange (upto_range 0 7))
      as (o & Eo & Ho).
    destruct o as [m|].
    2:{ exfalso. destruct Hroom as (col & r & Hc & Hr).
        assert (Hin : col ∈ a) by now apply Hmem.
        apply list_elem_of_lookup in Hin as [idx Hidx].
        pose proof (lookup_lt_Some _ _ _ Hidx) as Ln.
        apply (Ho (Z.of_nat idx) col) with (r := r).
        - apply In_upto. lia.
        - now rewrite Nat2Z.id.
        - apply rd_in_grid, in_grid_spec in Hr. tauto.
        - assumption. }
    destruct (first_open_first b a (upto 0 7) Hwf Lsh Hrange (upto_range 0 7)
                m Eo) as (Hv & pre & i & post & Hsplit & Li & Hfull).
    exists a, m. split; [exact Esh|]. split; [exact Lsh|].
    split; [exact Hmem|]. split; [|split; [exact Hv|]].
    + rewrite Head.
      destruct (Z.ltb_spec (Z.rem (rnd k) 100) 70); [lia|].
      rewrite bind_eq, peek_eq, Esh. cbn beta iota.
      rewrite bind_eq, peek_eq, Eo. reflexivity.
    + exists (Z.to_nat i). split; [exact Li|].
      intros j col Hj Hl.
      apply (Hfull (Z.of_nat j) col); [|now rewrite Nat2Z.id].
      apply (upto_prefix 7 0 pre i post Hsplit).
      assert (Hi : In i (upto 0 7)) by (rewrite Hsplit; apply in_elt).
      apply In_upto in Hi. lia.
Qed.

Lemma ai_medium_move_strategic_or_shuffled_witness :
  wf_board Examples.board_one_piece /\
  (forall n : nat, 0 <= (fun _ => 75) n) /\
  (exists col r, 0 <= col < COLS /\
                 rd Examples.board_one_piece r col = Val cell_empty) /\
  exists sm,
    find_best_strategic_move cell_player2 Examples.board_one_piece
    = Val (sm, Examples.board_one_piece) /\
    valid_drop Examples.board_one_piece sm /\
    (Z.rem ((fun _ => 75) 0%nat) 100 < 70 ->
     ai_medium_move 1 (fun _ => 75) 0 Examples.board_one_piece
     = Val ((sm, 1%nat), Examples.board_one_piece)) /\
    (70 <= Z.rem ((fun _ => 75) 0%nat) 100 ->
     exists a m,
       shuffle (fun _ => 75) 1 (upto 0 7) [3; 2; 4; 1; 5; 0; 6]
       = Val (a, (0 + 8)%nat) /\
       length a = 7%nat /\ (forall x, x ∈ a <-> 0 <= x < COLS) /\
       ai_medium_move 1 (fun _ => 75) 0 Examples.board_one_piece
       = Val ((m, (0 + 8)%nat), Examples.board_one_piece) /\
       valid_drop Examples.board_one_piece m /\
       exists i,
         a !! i = Some (column m) /\
         forall j col, (j < i)%nat -> a !! j = Some col ->
                       column_full Examples.board_one_piece col).
Proof.
  assert (R : forall n : nat, 0 <= (fun _ => 75) n) by (intros; cbv beta; lia).
  assert (Hroom : exists col r, 0 <= col < COLS /\
                    rd Examples.board_one_piece r col = Val cell_empty).
  { exists 0, 0. split; [unfold COLS; lia|reflexivity]. }
  split; [exact wf_board_one_piece|]. split; [exact R|]. split; [exact Hroom|].
  apply (ai_medium_move_strategic_or_shuffled Examples.board_one_piece 1
           (fun _ => 75) 0%nat wf_board_one_piece R).
  - apply no_winning_drop_by_wins_at; [exact wf_board_one_piece|].
    vm_compute. reflexivity.
  - apply no_winning_drop_by_wins_at; [exact wf_board_one_piece|].
    vm_compute. reflexivity.
  - exact Hroom.
Defined.

(** With every draw equal to 75 the strategic move is declined, and each
    of the seven swaps exchanges entry [i] with entry 5. *)
Example ai_medium_move_shuffled_draws :
  ai_medium_move 1 (fun _ => 75) 0 Examples.board_one_piece
  = Val ((mkMove 5 0, 8%nat), Examples.board_one_piece).
Proof. vm_compute. reflexivity. Qed.

(** ** Reading a number in a range *)

(** X16.  [input_player_int_range] returns the first read that is a number
    within [low, high], having consumed the reads before it, all rejected;
    it keeps waiting exactly when every read is rejected; so every value it
    returns is within the range, and the column requests of a game
    (range 1..7) all are. *)
Theorem input_player_int_range_first_valid (low high : Z)
        (reads : list (option Z)) :
  (forall v rest,
      input_player_int_range low high reads = Some (v, rest) ->
      low <= v <= high /\
      exists skipped,
        reads = skipped ++ Some v :: rest /\
        Forall (rejected low high) skipped) /\
  (input_player_int_range low high reads = None <->
   Forall (rejected low high) reads) /\
  (forall fuel,
      Forall (fun v => low <= v <= high)
             (int_range_calls fuel low high reads)).
Proof.
  assert (First : forall reads v rest,
             input_player_int_range low high reads = Some (v, rest) ->
             low <= v <= high /\
             exists skipped,
               reads = skipped ++ Some v :: rest /\
               Forall (rejected low high) skipped).
  { clear reads. intros reads. induction reads as [|[x|] reads IH];
      intros v rest E; [discriminate| |].
    - cbn [input_player_int_range] in E.
      destruct (Z.ltb_spec x low) as [Hl|Hl]; cbn [orb] in E.
      + destruct (IH v rest E) as (Hv & skipped & -> & Hsk).
        split; [assumption|]. exists (Some x :: skipped).
        split; [reflexivity|]. constructor; [now left|assumption].
      + destruct (Z.gtb_spec x high) as [Hh|Hh].
        * destruct (IH v rest E) as (Hv & skipped & -> & Hsk).
          split; [assumption|]. exists (Some x :: skipped).
          split; [reflexivity|]. constructor; [right; lia|assumption].
        * injection E as <- <-. split; [lia|]. exists [].
          split; [reflexivity|constructor].
    - cbn [input_player_int_range] in E.
      destruct (IH v rest E) as (Hv & skipped & -> & Hsk).
      split; [assumption|]. exists (None :: skipped).
      split; [reflexivity|]. constructor; [exact I|assumption]. }
  split; [apply First|]. split.
  - induction reads as [|[x|] reads IH]; cbn [input_player_int_range].
    + split; [constructor|reflexivity].
    + destruct (Z.ltb_spec x low) as [Hl|Hl]; cbn [orb].
      * rewrite IH. split; [constructor; [now left|assumption]|].
        intros H. now inversion H.
      * destruct (Z.gtb_spec x high) as [Hh|Hh].
        -- rewrite IH. split; [constructor; [right; lia|assumption]|].
           intros H. now inversion H.
        -- split; [discriminate|]. intros H. inversion H as [|? ? Hr _].
           cbn [rejected] in Hr. lia.
    + rewrite IH. split; [constructor; [exact I|assumption]|].
      intros H. now inversion H.
  - intros fuel. revert reads.
    induction fuel as [|fuel IH]; intros reads; cbn [int_range_calls];
      [constructor|].
    destruct (input_player_int_range low high reads) as [[v rest]|] eqn:E;
      [|constructor].
    constructor; [apply (First reads v rest E)|apply IH].
Qed.

(** Letters, then 9, then 0 are rejected; 4 is returned and 2 is left. *)
Example input_player_int_range_skips :
  input_player_int_range 1 7 [None; Some 9; Some 0; Some 4; Some 2]
  = Some (4, [Some 2]).
Proof. reflexivity. Qed.

(** ** The computer takes its win *)

(** In the AI's branch of the loop, a drop that completes four ends the
    game with the computer announced as winner. *)
Lemma ai_game_loop_winning_drop (ai : nat -> M (GameMove * nat)) (fuel : nat)
      (inputs : list Z) (k k' : nat) (s : Session) col r b' :
  in_play s -> turn s = 1 ->
  lowest_empty (s_board s) col r -> 0 <= col < COLS ->
  wr (s_board s) r col cell_player2 = Val b' ->
  four_through b' cell_player2 r col = true ->
  ai k (s_board s) = Val ((mkMove r col, k'), s_board s) ->
  ai_game_loop ai (S fuel) inputs k s
  = Val (Win cell_player2 (mkSession b' (count_moves s + 1) 0)).
Proof.
  intros Hplay Hturn Hlow Hc Hw Hfour Hai.
  destruct (in_play_inv s Hplay) as (Hwf & _).
  destruct (in_play_count_moves s Hplay) as (Hn & He).
  assert (Hdrop : is_drop (s_board s) (mkMove r col)).
  { split; [exact Hc|]. now apply scan_column_some. }
  destruct (ply_total s _ Hplay Hdrop) as (s1 & w & Hply).
  pose proof (in_play_ply _ _ _ _ Hplay Hdrop Hply) as Hplay1.
  destruct (ply_board _ _ _ _ Hply) as (Hw1 & Hn1 & _).
  rewrite Hturn in Hw1. cbn [Z.eqb row column] in Hw1.
  assert (Hb1 : s_board s1 = b') by congruence.
  assert (H7 : 7 <= count_moves s1).
  { destruct (Z.lt_ge_cases (count_moves s1) 7) as [Hlt|]; [|assumption].
    destruct (no_four_before_seven s1 Hplay1 Hlt) as [_ F].
    rewrite Hb1, (four_through_anywhere _ _ _ _ Hfour) in F. discriminate. }
  assert (Hfull : count_moves s <> BOARD_FULL).
  { intros F. rewrite F in He.
    assert (Z0 : count_cells (s_board s) cell_empty = 0%nat) by lia.
    apply (proj1 (count_cells_zero _ _) Z0 r col);
      [eapply rd_in_grid; apply Hlow|apply Hlow]. }
  cbn [ai_game_loop].
  destruct (Z.eqb_spec (count_moves s) BOARD_FULL); [contradiction|].
  rewrite Hturn. cbn [Z.eqb]. rewrite Hai. cbn [rbind].
  replace (mkSession (s_board s) (count_moves s) 1) with s
    by (destruct s; cbn [turn] in Hturn; subst; reflexivity).
  unfold ply. rewrite Hturn. cbn [Z.eqb row column]. rewrite Hw.
  cbn [rbind].
  destruct (Z.gtb_spec (count_moves s + 1) 6); [|lia].
  rewrite (check_winner_iff_four b' (mkMove r col) cell_player2
             (wr_wf _ _ _ _ _ Hwf Hw) (rd_wr_same _ _ _ _ _ Hw)).
  cbn [rbind row column]. rewrite Hfour. reflexivity.
Qed.

(** X17.  In a game against the Medium or the Hard AI, when it is the
    computer's turn and a drop of Player2 completes four in a row, the loop
    ends on this turn: the computer plays the leftmost such drop, the win
    check runs (at least seven plies have then been played) and the
    computer is announced as winner. *)
Theorem computer_takes_win_in_game (ai_fuel fuel : nat) (rnd : nat -> Z)
        (inputs : list Z) (k : nat) (s : Session) :
  in_play s -> turn s = 1 ->
  (exists col r,
      0 <= col < COLS /\ winning_drop (s_board s) cell_player2 col r) ->
  exists col r b',
    winning_drop (s_board s) cell_player2 col r /\
    (forall col' r',
        0 <= col' < COLS -> winning_drop (s_board s) cell_player2 col' r' ->
        col <= col') /\
    wr (s_board s) r col cell_player2 = Val b' /\
    6 <= count_moves s /\
    ai_game_loop (ai_medium_move ai_fuel rnd) (S fuel) inputs k s
    = Val (Win cell_player2 (mkSession b' (count_moves s + 1) 0)) /\
    ai_game_loop (ai_hard_move ai_fuel rnd) (S fuel) inputs k s
    = Val (Win cell_player2 (mkSession b' (count_moves s + 1) 0)).
Proof.
  intros Hplay Hturn Hex.
  destruct (in_play_inv s Hplay) as (Hwf & _).
  destruct (first_win_found (s_board s) cell_player2 Hwf Hex)
    as (col & r & Hfw & Hr & Hc & Hwd & Hmin).
  pose proof Hwd as (Hlow & b' & Hw & Hfour).
  exists col, r, b'. split; [assumption|]. split; [assumption|].
  split; [assumption|].
  assert (Hdrop : is_drop (s_board s) (mkMove r col)).
  { split; [exact Hc|]. now apply scan_column_some. }
  split.
  { destruct (ply_total s _ Hplay Hdrop) as (s1 & w & Hply).
    pose proof (in_play_ply _ _ _ _ Hplay Hdrop Hply) as Hplay1.
    destruct (ply_board _ _ _ _ Hply) as (Hw1 & Hn1 & _).
    rewrite Hturn in Hw1. cbn [Z.eqb row column] in Hw1.
    assert (Hb1 : s_board s1 = b') by congruence.
    destruct (Z.lt_ge_cases (count_moves s1) 7) as [Hlt|]; [|lia].
    destruct (no_four_before_seven s1 Hplay1 Hlt) as [_ F].
    rewrite Hb1, (four_through_anywhere _ _ _ _ Hfour) in F. discriminate. }
  split.
  - apply (ai_game_loop_winning_drop _ fuel inputs k k s col r b'
             Hplay Hturn Hlow Hc Hw Hfour).
    unfold ai_medium_move.
    rewrite bind_eq, find_winning_move_spec by assumption.
    rewrite Hfw. cbn [row].
    destruct (Z.eqb_spec r (-1)); [unfold ROWS in Hr; lia|]. reflexivity.
  - apply (ai_game_loop_winning_drop _ fuel inputs k k s col r b'
             Hplay Hturn Hlow Hc Hw Hfour).
    unfold ai_hard_move.
    rewrite bind_eq, find_winning_move_spec by assumption.
    rewrite Hfw. cbn [row].
    destruct (Z.eqb_spec r (-1)); [unfold ROWS in Hr; lia|]. reflexivity.
Qed.

Lemma in_play_computer_to_win :
  in_play (mkSession board_computer_to_win 7 1).
Proof.
  change (mkSession board_computer_to_win 7 1)
    with (replay session_start computer_to_win_moves).
  apply in_play_replay; [constructor|]. vm_compute. reflexivity.
Qed.

Lemma computer_takes_win_in_game_witness :
  in_play (mkSession board_computer_to_win 7 1) /\
  (exists col r,
      0 <= col < COLS /\
      winning_drop board_computer_to_win cell_player2 col r) /\
  exists col r b',
    winning_drop board_computer_to_win cell_player2 col r /\
    (forall col' r',
        0 <= col' < COLS ->
        winning_drop board_computer_to_win cell_player2 col' r' ->
        col <= col') /\
    wr board_computer_to_win r col cell_player2 = Val b' /\
    6 <= 7 /\
    ai_game_loop (ai_medium_move 1 (fun _ => 0)) 1 [] 0
                 (mkSession board_computer_to_win 7 1)
    = Val (Win cell_player2 (mkSession b' (7 + 1) 0)) /\
    ai_game_loop (ai_hard_move 1 (fun _ => 0)) 1 [] 0
                 (mkSession board_computer_to_win 7 1)
    = Val (Win cell_player2 (mkSession b' (7 + 1) 0)).
Proof.
  assert (Hwf : wf_board board_computer_to_win)
    by (apply (bool_decide_unpack _); vm_compute; exact I).
  assert (Hex : exists col r,
             0 <= col < COLS /\
             winning_drop board_computer_to_win cell_player2 col r).
  { exists 1, 2. split; [unfold COLS; lia|].
    apply (wins_at_iff board_computer_to_win cell_player2 1 (mkMove 2 1) Hwf);
      [unfold COLS; lia|vm_compute; reflexivity]. }
  split; [exact in_play_computer_to_win|]. split; [exact Hex|].
  apply (computer_takes_win_in_game 1 0 (fun _ => 0) [] 0%nat
           (mkSession board_computer_to_win 7 1) in_play_computer_to_win
           eq_refl Hex).
Defined.
